(** * Fee-history oracle of coreth (package [gasprice], file feehistory.go)

    A shallow embedding of [processPercentiles], [resolveBlockRange] and
    [FeeHistory], and the properties of the fee-history specification
    stated over it.

    Conventions.
    - [uint64], [int] and [rpc.BlockNumber] (an [int64]) are integers of [Z]
      with their wrap-around written out ([wrap_u64], [wrap_i64]); [int] is
      taken to be 64 bits wide.
    - [*big.Int] is [Z]; a pointer that may be [nil] is an [option].
    - [float64] is IEEE 754 binary64, modelled by [spec_float] of the
      standard library at precision 53 and maximal exponent 1024, so that
      every floating-point operation of the source is executed bit for bit.
    - A Go slice is a [list]; the [nil] slice is the empty list. *)

From Stdlib Require Import ZArith List Bool Lia PeanoNat Permutation.
From Stdlib Require Import SpecFloat.
Import ListNotations.

Local Open Scope Z_scope.

(** ** Machine integers *)

Definition wrap_u64 (z : Z) : Z := z mod 2 ^ 64.

Definition wrap_i64 (z : Z) : Z := (z + 2 ^ 63) mod 2 ^ 64 - 2 ^ 63.

Definition in_u64 (z : Z) : Prop := 0 <= z < 2 ^ 64.

Definition in_i64 (z : Z) : Prop := - 2 ^ 63 <= z < 2 ^ 63.

(** ** float64 *)

Module F64.

Definition t := spec_float.

Definition prec : Z := 53.
Definition emax : Z := 1024.

(** [float64(n)] for an unsigned integer [n]: round to nearest, ties to
    even. *)
Definition of_uint64 (n : Z) : t := binary_normalize prec emax n 0 false.

Definition mul (x y : t) : t := SFmul prec emax x y.
Definition div (x y : t) : t := SFdiv prec emax x y.
Definition ltb (x y : t) : bool := SFltb x y.

Definition zero : t := S754_zero false.
Definition hundred : t := of_uint64 100.

(** The integer part of a finite float, the fraction discarded. *)
Definition trunc_mag (m : positive) (e : Z) : Z :=
  if 0 <=? e then Z.shiftl (Zpos m) e else Z.shiftr (Zpos m) (- e).

(** [uint64(f)].  Go discards the fraction; when the truncated value is
    not a [uint64] (negative, too large, infinite or not a number) the
    conversion "succeeds but the result value is implementation-dependent":
    [undef] is what the platform yields there. *)
Definition to_uint64 (undef : t -> Z) (f : t) : Z :=
  match f with
  | S754_zero _ => 0
  | S754_finite s m e =>
      let v := trunc_mag m e in
      if v =? 0 then 0
      else if negb s && (v <? 2 ^ 64) then v
      else wrap_u64 (undef f)
  | _ => wrap_u64 (undef f)
  end.

(** The binary64 value of an integer [0 < N < 2^53]: the mantissa
    shifted up to 53 digits. *)
Definition norm (N : Z) : t :=
  match N * 2 ^ (52 - Z.log2 N) with
  | Zpos m => S754_finite false m (Z.log2 N - 52)
  | _ => S754_zero false
  end.

Definition is_finite (f : t) : bool :=
  match f with
  | S754_zero _ | S754_finite _ _ _ => true
  | _ => false
  end.

End F64.

Abbreviation float64 := F64.t.

(** The Go platform: the one implementation-dependent operation the oracle
    uses. *)
Class Platform := { uint64_of_float64_undef : float64 -> Z }.

Definition uint64_of_float64 `{Platform} (f : float64) : Z :=
  F64.to_uint64 uint64_of_float64_undef f.

(** ** Data model *)

Record txGasAndReward := mkTx { gasUsed : Z; reward : Z }.

Record slimBlock := mkSlimBlock {
  GasUsed : Z;
  GasLimit : Z;
  BaseFee : Z;
  Txs : list txGasAndReward
}.

(** [processedFees]: [pf_baseFee] is [None] in the zero value of the struct
    (a [nil] pointer), which is how a missing block is told apart. *)
Record processedFees := mkProcessedFees {
  pf_reward : list Z;
  pf_baseFee : option Z;
  pf_gasUsedRatio : float64
}.

Definition zero_processedFees : processedFees :=
  mkProcessedFees [] None F64.zero.

(** ** processPercentiles *)

Section ProcessPercentiles.
Context `{Platform}.

Definition tx_at (txs : list txGasAndReward) (i : nat) : txGasAndReward :=
  nth i txs (mkTx 0 0).

(** [uint64(float64(sb.GasUsed) * p / 100)] *)
Definition thresholdGasUsed (sb : slimBlock) (p : float64) : Z :=
  uint64_of_float64
    (F64.div (F64.mul (F64.of_uint64 (GasUsed sb)) p) F64.hundred).

(** The inner loop
    [for sumGasUsed < thresholdGasUsed && txIndex < txLen-1 { ... }].
    [fuel] bounds the number of iterations; [length txs] is always
    enough ([advance_fuel]). *)
Fixpoint advance (fuel : nat) (txs : list txGasAndReward)
    (thresholdGasUsed : Z) (txIndex : nat) (sumGasUsed : Z) : nat * Z :=
  match fuel with
  | O => (txIndex, sumGasUsed)
  | S fuel' =>
      if (sumGasUsed <? thresholdGasUsed)
         && (txIndex <? length txs - 1)%nat
      then
        let txIndex' := S txIndex in
        advance fuel' txs thresholdGasUsed txIndex'
          (wrap_u64 (sumGasUsed + gasUsed (tx_at txs txIndex')))
      else (txIndex, sumGasUsed)
  end.

(** The outer loop [for i, p := range percentiles]. *)
Fixpoint percentile_loop (sb : slimBlock) (percentiles : list float64)
    (txIndex : nat) (sumGasUsed : Z) : list Z :=
  match percentiles with
  | [] => []
  | p :: rest =>
      let '(txIndex', sumGasUsed') :=
        advance (length (Txs sb)) (Txs sb) (thresholdGasUsed sb p)
          txIndex sumGasUsed in
      reward (tx_at (Txs sb) txIndex')
        :: percentile_loop sb rest txIndex' sumGasUsed'
  end.

Definition processPercentiles (sb : slimBlock) (percentiles : list float64)
    : processedFees :=
  let baseFee := Some (BaseFee sb) in
  let gasUsedRatio :=
    F64.div (F64.of_uint64 (GasUsed sb)) (F64.of_uint64 (GasLimit sb)) in
  match percentiles with
  | [] => mkProcessedFees [] baseFee gasUsedRatio
  | _ :: _ =>
      match Txs sb with
      | [] =>
          mkProcessedFees (map (fun _ => 0) percentiles) baseFee gasUsedRatio
      | tx0 :: _ =>
          mkProcessedFees
            (percentile_loop sb percentiles 0%nat (gasUsed tx0))
            baseFee gasUsedRatio
      end
  end.

End ProcessPercentiles.

(** ** Declarative description of the percentile walk *)

(** The running cumulative [gasUsed] once the cursor stands on transaction
    [j]: the value [sumGasUsed] holds there, wrap-around included. *)
Fixpoint cumulativeGasUsed (txs : list txGasAndReward) (j : nat) : Z :=
  match j with
  | O => gasUsed (tx_at txs 0)
  | S j' => wrap_u64 (cumulativeGasUsed txs j' + gasUsed (tx_at txs j))
  end.

(** [k] is where a cursor started at [start] comes to rest for a threshold:
    it moved past every position whose cumulative gas is below the
    threshold, and stopped at the last transaction or at the first position
    that reaches the threshold. *)
Definition cursor_stop (txs : list txGasAndReward) (threshold : Z)
    (start k : nat) : Prop :=
  (start <= k < length txs)%nat
  /\ (forall j, (start <= j < k)%nat -> cumulativeGasUsed txs j < threshold)
  /\ (k = (length txs - 1)%nat \/ threshold <= cumulativeGasUsed txs k).

(** One cursor position per percentile, each walk starting where the
    previous one stopped. *)
Inductive cursor_walk (threshold : float64 -> Z) (txs : list txGasAndReward)
    : nat -> list float64 -> list nat -> Prop :=
| walk_done start : cursor_walk threshold txs start [] []
| walk_step start p ps k ks :
    cursor_stop txs (threshold p) start k ->
    cursor_walk threshold txs k ps ks ->
    cursor_walk threshold txs start (p :: ps) (k :: ks).

(** [rewards] is what a cursor walk driven by [threshold] emits. *)
Definition emits_by_cursor (threshold : float64 -> Z) (sb : slimBlock)
    (percentiles : list float64) (rewards : list Z) : Prop :=
  exists ks,
    cursor_walk threshold (Txs sb) 0%nat percentiles ks
    /\ rewards = map (fun k => reward (tx_at (Txs sb) k)) ks.

(** The threshold as the specification words it:
    [gasLimit * p / 100]. *)
Definition spec_threshold `{Platform} (sb : slimBlock) (p : float64) : Z :=
  uint64_of_float64
    (F64.div (F64.mul (F64.of_uint64 (GasLimit sb)) p) F64.hundred).

(** Transactions sorted in ascending order of reward, as [processBlock]
    leaves them. *)
Fixpoint sorted_by_reward (txs : list txGasAndReward) : Prop :=
  match txs with
  | [] => True
  | tx :: rest =>
      match rest with
      | [] => True
      | tx' :: _ => reward tx <= reward tx'
      end /\ sorted_by_reward rest
  end.

Fixpoint nondecreasing (l : list Z) : Prop :=
  match l with
  | [] => True
  | x :: rest =>
      match rest with
      | [] => True
      | y :: _ => x <= y
      end /\ nondecreasing rest
  end.

(** The order [FeeHistory] demands of the percentiles: no entry is smaller
    than its predecessor. *)
Fixpoint ascending (ps : list float64) : Prop :=
  match ps with
  | [] => True
  | p :: rest =>
      match rest with
      | [] => True
      | q :: _ => F64.ltb q p = false
      end /\ ascending rest
  end.

(** Every [uint64] field of the block holds a [uint64]. *)
Definition slimBlock_typed (sb : slimBlock) : Prop :=
  in_u64 (GasUsed sb) /\ Forall (fun tx => in_u64 (gasUsed tx)) (Txs sb).

Definition total_gas (txs : list txGasAndReward) : Z :=
  fold_right (fun tx acc => gasUsed tx + acc) 0 txs.

Definition first_tx (sb : slimBlock) : txGasAndReward := tx_at (Txs sb) 0.

Definition last_tx (sb : slimBlock) : txGasAndReward :=
  tx_at (Txs sb) (length (Txs sb) - 1).

(** ** Errors *)

(** The three sentinel errors of the package, wrapped by [fmt.Errorf] with
    the values the message names, and the errors of the backend, which the
    oracle passes through unread. *)
Inductive error :=
| errInvalidPercentile (p : float64)
    (* "%w: %f" *)
| errInvalidPercentileOrder (i : nat) (prev : float64) (j : nat) (p : float64)
    (* "%w: #%d:%f > #%d:%f" *)
| errRequestBeyondHead (requested head : Z)
| errBeyondHistoricalLimit (requested head : Z)
| errBackend (code : nat).

Definition isInvalidPercentile (e : error) : bool :=
  match e with
  | errInvalidPercentile _ | errInvalidPercentileOrder _ _ _ _ => true
  | _ => false
  end.

(** ** Collaborators

    None of the following is defined in feehistory.go; each is an interface
    the oracle calls. *)

(** Package [rpc]: the block-number selectors.  rpc/types.go is not among
    the sources, so the two named constants and the predicate are
    parameters. *)
Class RpcDecls := {
  PendingBlockNumber : Z;
  LatestBlockNumber : Z;
  IsAccepted : Z -> bool
}.

(** What the oracle relies on: the named selectors are negative numbers,
    "latest" is served from the last accepted block, and no block height is
    mistaken for a selector. *)
Definition rpc_wf `{RpcDecls} : Prop :=
  PendingBlockNumber < 0
  /\ IsAccepted LatestBlockNumber = true
  /\ (forall n, IsAccepted n = true -> n < 0).

(** Package [types]: a transaction is known by its effective gas tip over a
    base fee, a receipt by the gas it records, a block by its header fields
    and transactions. *)
Record Transaction := mkTransaction { EffectiveGasTip : Z -> Z }.

Record Receipt := mkReceipt { receipt_GasUsed : Z }.

Record Block := mkBlock {
  Hash : Z;
  block_BaseFee : option Z;
  block_GasUsed : Z;
  block_GasLimit : Z;
  Transactions : list Transaction
}.

(** [OracleBackend], read as an unchanging chain: every method is a
    function of its arguments. *)
Record Backend := mkBackend {
  LastAcceptedBlock : Z;                                (* its NumberU64 *)
  BlockByNumber : Z -> option Block * option error;
  GetReceipts : Z -> list Receipt * option error
}.

Inductive backend_call :=
| CallLastAcceptedBlock
| CallBlockByNumber (number : Z)
| CallGetReceipts (hash : Z).

(** [sort.Sort]: some rearrangement of its argument; which one is the
    library's business. *)
Class GoSort := {
  sort_Sort :
    (txGasAndReward -> txGasAndReward -> bool) ->
    list txGasAndReward -> list txGasAndReward
}.

(** The LRU cache behind [oracle.historyCache]: [Get] may reorder and [Add]
    may evict, so both return the cache they leave behind. *)
Class HistoryCache := {
  cache : Type;
  cache_Get : cache -> Z -> option slimBlock * cache;
  cache_Add : cache -> Z -> slimBlock -> cache
}.

Record Oracle := mkOracle {
  backend : Backend;
  maxCallBlockHistory : Z;
  maxBlockHistory : Z
}.

Definition maxBlockFetchers : Z := 4.

(** ** State

    What a call can change or leave a mark on: the cache, and the calls made
    to the backend, most recent first. *)
Section State.
Context `{HistoryCache}.

Record state := mkState {
  calls : list backend_call;
  historyCache : cache
}.

Definition M (A : Type) : Type := state -> A * state.

Definition ret {A} (a : A) : M A := fun st => (a, st).

Definition bind {A B} (m : M A) (k : A -> M B) : M B :=
  fun st => let '(a, st') := m st in k a st'.

Definition called (c : backend_call) : M unit :=
  fun st => (tt, mkState (c :: calls st) (historyCache st)).

Definition historyCache_Get (key : Z) : M (option slimBlock) :=
  fun st =>
    let '(v, c) := cache_Get (historyCache st) key in
    (v, mkState (calls st) c).

Definition historyCache_Add (key : Z) (sb : slimBlock) : M unit :=
  fun st => (tt, mkState (calls st) (cache_Add (historyCache st) key sb)).

End State.

Notation "x <- m ;; k" := (bind m (fun x => k))
  (at level 61, m at next level, right associativity).
Notation "m ;;; k" := (bind m (fun _ => k))
  (at level 61, right associativity).

(** ** processBlock *)

Definition Less (a b : txGasAndReward) : bool := reward a <? reward b.

(** [sorter[i] = txGasAndReward{receipts[i].GasUsed, reward}] for every
    transaction; [None] is the index-out-of-range panic of [receipts[i]]. *)
Fixpoint pair_up (baseFee : Z) (txs : list Transaction)
    (receipts : list Receipt) : option (list txGasAndReward) :=
  match txs with
  | [] => Some []
  | tx :: txs' =>
      match receipts with
      | [] => None
      | r :: receipts' =>
          match pair_up baseFee txs' receipts' with
          | None => None
          | Some rest =>
              Some (mkTx (receipt_GasUsed r) (EffectiveGasTip tx baseFee)
                      :: rest)
          end
      end
  end.

Definition processBlock `{GoSort} (block : Block) (receipts : list Receipt)
    : option slimBlock :=
  let baseFee :=
    match block_BaseFee block with Some b => b | None => 0 end in
  match pair_up baseFee (Transactions block) receipts with
  | None => None
  | Some sorter =>
      Some (mkSlimBlock (block_GasUsed block) (block_GasLimit block) baseFee
              (sort_Sort Less sorter))
  end.

(** ** resolveBlockRange *)

Section Resolve.
Context `{RpcDecls} `{HistoryCache}.

Definition backend_LastAcceptedBlock (oracle : Oracle) : M Z :=
  called CallLastAcceptedBlock ;;;
  ret (LastAcceptedBlock (backend oracle)).

(** The result is [(lastBlock, blocks, err)] as in the source. *)
Definition resolveBlockRange (oracle : Oracle) (lastBlock : Z) (blocks : Z)
    : M (Z * Z * option error) :=
  let '(lastBlock, blocks) :=
    if lastBlock =? PendingBlockNumber
    then (LatestBlockNumber, wrap_i64 (blocks - 1))
    else (lastBlock, blocks) in
  if blocks =? 0 then ret (0, 0, None)
  else
    head <- backend_LastAcceptedBlock oracle ;;
    let lastAcceptedBlock := wrap_i64 head in
    let maxQueryDepth := wrap_i64 (wrap_i64 (maxBlockHistory oracle) - 1) in
    let resolved :=
      if IsAccepted lastBlock then inl lastAcceptedBlock
      else if (maxQueryDepth <? lastAcceptedBlock)
              && (lastBlock <? wrap_i64 (lastAcceptedBlock - maxQueryDepth))
      then inr (errBeyondHistoricalLimit lastBlock lastAcceptedBlock)
      else if lastAcceptedBlock <? lastBlock
      then inr (errRequestBeyondHead lastBlock lastAcceptedBlock)
      else inl lastBlock in
    match resolved with
    | inr e => ret (0, 0, Some e)
    | inl lastBlock =>
        let blocks :=
          if wrap_i64 (lastBlock + 1) <? blocks
          then wrap_i64 (lastBlock + 1) else blocks in
        let oldestQueriedIndex :=
          wrap_i64 (wrap_i64 (lastBlock - blocks) + 1) in
        let queryDepth := wrap_i64 (lastAcceptedBlock - oldestQueriedIndex) in
        let blocks :=
          if maxQueryDepth <? queryDepth
          then wrap_i64 (blocks - wrap_i64 (queryDepth - maxQueryDepth))
          else blocks in
        ret (wrap_u64 lastBlock, blocks, None)
    end.

End Resolve.

(** ** FeeHistory *)

Record blockFees := mkBlockFees {
  blockNumber : Z;
  results : processedFees;
  err : option error
}.

(** The five results of [FeeHistory]. *)
Record feeHistory := mkFeeHistory {
  fh_oldestBlock : Z;
  fh_reward : list (list Z);
  fh_baseFee : list (option Z);
  fh_gasUsedRatio : list float64;
  fh_err : option error
}.

(** [return common.Big0, nil, nil, nil, err] *)
Definition no_data (err : option error) : feeHistory :=
  mkFeeHistory 0 [] [] [] err.

(** How a call ends.  [Waiting]: the caller is still receiving from the
    result channel when the schedule under consideration is used up (for
    good, if every fetcher has exited).  [Panicked]: a run-time panic. *)
Inductive outcome :=
| Returned (r : feeHistory)
| Waiting
| Panicked.

(** The check of [rewardPercentiles], entry [i] with its predecessor. *)
Fixpoint check_percentiles (i : nat) (prev : option float64)
    (rewardPercentiles : list float64) : option error :=
  match rewardPercentiles with
  | [] => None
  | p :: rest =>
      if F64.ltb p F64.zero || F64.ltb F64.hundred p
      then Some (errInvalidPercentile p)
      else
        match prev with
        | Some q =>
            if F64.ltb p q
            then Some (errInvalidPercentileOrder (i - 1) q i p)
            else check_percentiles (S i) (Some p) rest
        | None => check_percentiles (S i) (Some p) rest
        end
  end.

(** A fetcher goroutine is about to claim a block number, holds one, or has
    returned. *)
Inductive worker :=
| Ready
| Fetching (blockNumber : Z)
| Exited.

(** The shared counter [next], the goroutines, and what has been sent on
    the channel [results], oldest first.  The channel has room for every
    block, so a send never waits. *)
Record pool := mkPool {
  next : Z;
  workers : list worker;
  sent : list blockFees
}.

Inductive fetched :=
| Sent (fees : blockFees) (continue : bool)
| Panic.

Fixpoint set_nth {A} (i : nat) (x : A) (l : list A) : list A :=
  match l, i with
  | [], _ => []
  | _ :: l', O => x :: l'
  | y :: l', S i' => y :: set_nth i' x l'
  end.

(** [l[i] = x] for a Go [int] index; [None] is the index-out-of-range
    panic. *)
Definition store {A} (l : list A) (i : Z) (x : A) : option (list A) :=
  if (0 <=? i) && (i <? Z.of_nat (length l))
  then Some (set_nth (Z.to_nat i) x l) else None.

Record collected := mkCollected {
  c_reward : list (list Z);
  c_baseFee : list (option Z);
  c_gasUsedRatio : list float64;
  c_firstMissing : Z
}.

Inductive drained :=
| Drained (c : collected)
| DrainedError (e : error)
| DrainedWaiting
| DrainedPanic.

(** The receiving loop [for ; blocks > 0; blocks-- { fees := <-results ... }],
    [n] iterations over what the channel delivers. *)
Fixpoint drain (n : nat) (oldestBlock : Z) (chan : list blockFees)
    (c : collected) : drained :=
  match n with
  | O => Drained c
  | S n' =>
      match chan with
      | [] => DrainedWaiting
      | fees :: chan' =>
          match err fees with
          | Some e => DrainedError e
          | None =>
              let i := wrap_i64 (wrap_u64 (blockNumber fees - oldestBlock)) in
              match pf_baseFee (results fees) with
              | Some b =>
                  match store (c_reward c) i (pf_reward (results fees)),
                        store (c_baseFee c) i (Some b),
                        store (c_gasUsedRatio c) i
                          (pf_gasUsedRatio (results fees)) with
                  | Some reward', Some baseFee', Some gasUsedRatio' =>
                      drain n' oldestBlock chan'
                        (mkCollected reward' baseFee' gasUsedRatio'
                           (c_firstMissing c))
                  | _, _, _ => DrainedPanic
                  end
              | None =>
                  drain n' oldestBlock chan'
                    (mkCollected (c_reward c) (c_baseFee c)
                       (c_gasUsedRatio c)
                       (if i <? c_firstMissing c then i
                        else c_firstMissing c))
              end
          end
      end
  end.

Section FeeHistory.
Context `{Platform} `{GoSort} `{RpcDecls} `{HistoryCache}.

(** The body of a fetcher's loop once it holds [blockNumber]. *)
Definition fetch (oracle : Oracle) (rewardPercentiles : list float64)
    (blockNumber : Z) : M fetched :=
  cached <- historyCache_Get blockNumber ;;
  match cached with
  | Some sb =>
      ret (Sent (mkBlockFees blockNumber
                   (processPercentiles sb rewardPercentiles) None) true)
  | None =>
      called (CallBlockByNumber blockNumber) ;;;
      let '(block, err) := BlockByNumber (backend oracle) blockNumber in
      match block, err with
      | Some block, None =>
          called (CallGetReceipts (Hash block)) ;;;
          let '(receipts, err) :=
            GetReceipts (backend oracle) (Hash block) in
          match err with
          | Some e =>
              ret (Sent (mkBlockFees blockNumber zero_processedFees
                           (Some e)) false)
          | None =>
              match processBlock block receipts with
              | None => ret Panic
              | Some sb =>
                  historyCache_Add blockNumber sb ;;;
                  ret (Sent (mkBlockFees blockNumber
                               (processPercentiles sb rewardPercentiles)
                               None) true)
              end
          end
      | _, _ =>
          ret (Sent (mkBlockFees blockNumber zero_processedFees err) false)
      end
  end.

(** One move of goroutine [w]: claim the next block number
    ([atomic.AddUint64(&next, 1) - 1]), or fetch the number it holds and
    send the result.  [None] is a panic. *)
Definition worker_step (oracle : Oracle) (rewardPercentiles : list float64)
    (lastBlock : Z) (w : nat) (p : pool) : M (option pool) :=
  match nth_error (workers p) w with
  | None | Some Exited => ret (Some p)
  | Some Ready =>
      let next' := wrap_u64 (next p + 1) in
      let blockNumber := wrap_u64 (next' - 1) in
      let wk :=
        if lastBlock <? blockNumber then Exited else Fetching blockNumber in
      ret (Some (mkPool next' (set_nth w wk (workers p)) (sent p)))
  | Some (Fetching blockNumber) =>
      r <- fetch oracle rewardPercentiles blockNumber ;;
      match r with
      | Panic => ret None
      | Sent fees continue =>
          ret (Some (mkPool (next p)
                       (set_nth w (if continue then Ready else Exited)
                          (workers p))
                       (sent p ++ [fees])))
      end
  end.

(** The goroutines interleaved as [schedule] says: each entry names the
    goroutine that moves next. *)
Fixpoint run_workers (oracle : Oracle) (rewardPercentiles : list float64)
    (lastBlock : Z) (schedule : list nat) (p : pool) : M (option pool) :=
  match schedule with
  | [] => ret (Some p)
  | w :: rest =>
      r <- worker_step oracle rewardPercentiles lastBlock w p ;;
      match r with
      | None => ret None
      | Some p' => run_workers oracle rewardPercentiles lastBlock rest p'
      end
  end.

Definition start_pool (oldestBlock blocks : Z) : pool :=
  mkPool oldestBlock
    (repeat Ready (Z.to_nat (Z.min maxBlockFetchers blocks))) [].

(** [FeeHistory] from the resolved range on. *)
Definition fetch_range (oracle : Oracle) (rewardPercentiles : list float64)
    (lastBlock blocks : Z) (schedule : list nat) : M outcome :=
  let oldestBlock := wrap_u64 (lastBlock + 1 - wrap_u64 blocks) in
  if blocks <? 0 then ret Panicked          (* make(chan, blocks) *)
  else
    r <- run_workers oracle rewardPercentiles lastBlock schedule
           (start_pool oldestBlock blocks) ;;
    match r with
    | None => ret Panicked
    | Some p =>
        let n := Z.to_nat blocks in
        match drain n oldestBlock (sent p)
                (mkCollected (repeat [] n) (repeat None n)
                   (repeat F64.zero n) blocks) with
        | DrainedPanic => ret Panicked
        | DrainedWaiting => ret Waiting
        | DrainedError e => ret (Returned (no_data (Some e)))
        | Drained c =>
            let firstMissing := c_firstMissing c in
            if firstMissing =? 0 then ret (Returned (no_data None))
            else
              let k := Z.to_nat firstMissing in
              ret (Returned
                     (mkFeeHistory oldestBlock
                        (match rewardPercentiles with
                         | [] => []
                         | _ :: _ => firstn k (c_reward c)
                         end)
                        (firstn k (c_baseFee c))
                        (firstn k (c_gasUsedRatio c))
                        None))
        end
    end.

Definition FeeHistory (oracle : Oracle) (blocks : Z)
    (unresolvedLastBlock : Z) (rewardPercentiles : list float64)
    (schedule : list nat) : M outcome :=
  if blocks <? 1 then ret (Returned (no_data None))
  else
    let blocks :=
      if maxCallBlockHistory oracle <? blocks
      then maxCallBlockHistory oracle else blocks in
    match check_percentiles 0 None rewardPercentiles with
    | Some e => ret (Returned (no_data (Some e)))
    | None =>
        r <- resolveBlockRange oracle unresolvedLastBlock blocks ;;
        let '(lastBlock, blocks, err) := r in
        match err with
        | Some e => ret (Returned (no_data (Some e)))
        | None =>
            if blocks =? 0 then ret (Returned (no_data None))
            else fetch_range oracle rewardPercentiles lastBlock blocks
                   schedule
        end
    end.

(** Every goroutine has returned. *)
Definition all_exited (p : pool) : bool :=
  forallb (fun w => match w with Exited => true | _ => false end)
    (workers p).

End FeeHistory.

(** The error names an entry of [ps] outside [0, 100], or an entry and its
    predecessor that are out of order. *)
Definition names_offence (ps : list float64) (e : error) : Prop :=
  match e with
  | errInvalidPercentile p =>
      In p ps /\ (F64.ltb p F64.zero = true \/ F64.ltb F64.hundred p = true)
  | errInvalidPercentileOrder i q j p =>
      j = S i /\ nth_error ps i = Some q /\ nth_error ps j = Some p
      /\ F64.ltb p q = true
  | _ => False
  end.

(** Entry [i] of [ps] is outside [0, 100] or smaller than entry [i - 1]. *)
Definition offends (ps : list float64) (i : nat) : Prop :=
  exists p,
    nth_error ps i = Some p
    /\ (F64.ltb p F64.zero = true \/ F64.ltb F64.hundred p = true
        \/ exists j q, i = S j /\ nth_error ps j = Some q
                       /\ F64.ltb p q = true).

(** The last entry of the percentiles checked so far. *)
Definition last_of (pre : list float64) : option float64 :=
  nth_error pre (length pre - 1).

(** ** Bookkeeping of the fetcher pool *)

Definition holds (w : worker) : list Z :=
  match w with
  | Fetching n => [n]
  | _ => []
  end.

(** The block numbers the goroutines hold at the moment. *)
Definition holding (ws : list worker) : list Z := flat_map holds ws.

(** Every block number that has been claimed and not given up: those whose
    result is on the channel and those being fetched. *)
Definition claimed (p : pool) : list Z :=
  map blockNumber (sent p) ++ holding (workers p).

Definition is_exited (w : worker) : bool :=
  match w with
  | Exited => true
  | _ => false
  end.

Definition exited_count (ws : list worker) : nat :=
  length (filter is_exited ws).

(** A result that carries the fees of its block. *)
Definition good (rewardPercentiles : list float64) (m : blockFees) : Prop :=
  err m = None
  /\ (exists b, pf_baseFee (results m) = Some b)
  /\ length (pf_reward (results m)) = length rewardPercentiles.

(** A result without fees and without error. *)
Definition is_missing (m : blockFees) : Prop :=
  err m = None /\ pf_baseFee (results m) = None.

(** The backend finds every block of [lo .. hi], with a receipt for each
    of its transactions. *)
Definition serves (b : Backend) (lo hi : Z) : Prop :=
  forall n, lo <= n <= hi ->
    exists block receipts,
      BlockByNumber b n = (Some block, None)
      /\ GetReceipts b (Hash block) = (receipts, None)
      /\ (length (Transactions block) <= length receipts)%nat.

(** What holds of the pool fetching [oldestBlock .. lastBlock] at every
    moment: the counter has not run away, no number is claimed twice, and
    the claimed numbers are those between [oldestBlock] and the counter. *)
Record pool_inv (oldestBlock lastBlock : Z) (p : pool) : Prop := {
  inv_next_lo : oldestBlock <= next p;
  inv_next_hi :
    next p <= lastBlock + 1 + Z.of_nat (exited_count (workers p));
  inv_width : (length (workers p) <= 4)%nat;
  inv_nodup : NoDup (claimed p);
  inv_claimed :
    forall n, In n (claimed p)
              <-> oldestBlock <= n < Z.min (next p) (lastBlock + 1)
}.

(** A result without fees and without error stands for a block the backend
    reported as absent. *)
Definition missing_reported (b : Backend) (m : blockFees) : Prop :=
  is_missing m -> BlockByNumber b (blockNumber m) = (None, None).

(** Nothing but good results is sent, and a goroutine returns only past
    the last block. *)
Definition pool_served (rewardPercentiles : list float64) (lastBlock : Z)
    (p : pool) : Prop :=
  Forall (good rewardPercentiles) (sent p)
  /\ (In Exited (workers p) -> lastBlock < next p).

(** The three result arrays have [n] entries each. *)
Definition arrays_len (n : nat) (c : collected) : Prop :=
  length (c_reward c) = n /\ length (c_baseFee c) = n
  /\ length (c_gasUsedRatio c) = n.

(** The block of a result is one of the [n] blocks from [oldestBlock]
    on. *)
Definition in_range (oldestBlock : Z) (n : nat) (m : blockFees) : Prop :=
  oldestBlock <= blockNumber m < oldestBlock + Z.of_nat n.

(** The [n] block numbers from [oldestBlock] on. *)
Definition block_range (oldestBlock : Z) (n : nat) : list Z :=
  map (fun i => oldestBlock + Z.of_nat i) (seq 0 n).

(** Every goroutine of a pool of four gets at least [turns] turns. *)
Definition fair (turns : nat) (schedule : list nat) : Prop :=
  forall w, (w < 4)%nat -> (turns <= count_occ Nat.eq_dec schedule w)%nat.

(** The turns goroutine [w] can still take before it returns, when every
    fetch succeeds. *)
Definition turns_left (lastBlock : Z) (p : pool) (w : nat) : nat :=
  let remaining := Z.to_nat (lastBlock + 1 - next p) in
  match nth_error (workers p) w with
  | Some Ready => 2 * remaining + 1
  | Some (Fetching _) => 2 * remaining + 2
  | _ => 0
  end.

(** The index of a block in the result arrays. *)
Definition slot (oldestBlock : Z) (m : blockFees) : nat :=
  Z.to_nat (blockNumber m - oldestBlock).

(** The response of a call that returned. *)
Definition returned (o : outcome) : feeHistory :=
  match o with
  | Returned r => r
  | _ => no_data None
  end.

(** The backend answered the request for block [n], or for its receipts,
    with the error [e]. *)
Definition backend_failed (b : Backend) (n : Z) (e : error) : Prop :=
  snd (BlockByNumber b n) = Some e
  \/ exists block,
       BlockByNumber b n = (Some block, None)
       /\ snd (GetReceipts b (Hash block)) = Some e.



(** The block numbers asked of the backend, most recent first. *)
Definition requested (cs : list backend_call) : list Z :=
  flat_map (fun c => match c with
                     | CallBlockByNumber n => [n]
                     | _ => []
                     end) cs.

(** ** A sample chain

    Concrete collaborators on which the definitions above run: the
    scenarios of the specification are evaluated on them. *)
Module Sample.

(** Out-of-range conversions yield 2^63. *)
#[export] Instance platform : Platform :=
  {| uint64_of_float64_undef := fun _ => 2 ^ 63 |}.

Fixpoint insert (less : txGasAndReward -> txGasAndReward -> bool)
    (x : txGasAndReward) (l : list txGasAndReward) : list txGasAndReward :=
  match l with
  | [] => [x]
  | y :: l' => if less y x then y :: insert less x l' else x :: l
  end.

#[export] Instance insertion_sort : GoSort :=
  {| sort_Sort := fun less l => fold_right (insert less) [] l |}.

(** The named selectors are the three negative numbers next to zero, all
    of them served from the last accepted block. *)
#[export] Instance rpc : RpcDecls :=
  {| PendingBlockNumber := -2;
     LatestBlockNumber := -1;
     IsAccepted := fun bn => (bn <? 0) && (-3 <=? bn) |}.

(** A cache that never evicts. *)
#[export] Instance unbounded_cache : HistoryCache :=
  {| cache := list (Z * slimBlock);
     cache_Get := fun c key =>
       (match find (fun e => fst e =? key) c with
        | Some e => Some (snd e)
        | None => None
        end, c);
     cache_Add := fun c key sb => (key, sb) :: c |}.

(** Block [n]: two transfers of 21000 gas, tipping 3 and 1. *)
Definition block (n : Z) : Block :=
  mkBlock n (Some (100 + n)) 42000 8000000
    [mkTransaction (fun _ => 3); mkTransaction (fun _ => 1)].

(** A chain whose last accepted block is 9 and whose backend finds the
    blocks 0 to [top]; above [top] it reports no block and no error. *)
Definition chain (top : Z) : Backend :=
  mkBackend 9
    (fun n =>
       if (0 <=? n) && (n <=? top) then (Some (block n), None)
       else (None, None))
    (fun _ => ([mkReceipt 21000; mkReceipt 21000], None)).

(** [maxCallBlockHistory = 10], [maxBlockHistory = 8]. *)
Definition oracle (top : Z) : Oracle := mkOracle (chain top) 10 8.

(** A young chain under the same limits as a long-lived one: the history
    window reaches back before genesis. *)
Definition young_oracle : Oracle := mkOracle (chain 9) 10 25000.

Definition fresh : state := mkState [] [].

(** Four goroutines taking turns, eleven rounds. *)
Definition round_robin : list nat :=
  concat (repeat [0; 1; 2; 3]%nat 11).

Definition percentiles : list float64 :=
  [F64.zero; F64.of_uint64 50; F64.hundred].

(** Two transfers in a block whose header accounts for one of them. *)
Definition short_header : slimBlock :=
  mkSlimBlock 21000 8000000 7 [mkTx 21000 1; mkTx 21000 2].

(** A block without transactions. *)
Definition empty_block : slimBlock := mkSlimBlock 0 8000000 7 [].

(** Two transfers filling a small part of the block's gas limit. *)
Definition light_block : slimBlock :=
  mkSlimBlock 42000 8000000 7 [mkTx 21000 1; mkTx 21000 2].

End Sample.

(** A cache of capacity zero: nothing is kept, every lookup misses. *)
Definition no_cache : HistoryCache :=
  {| cache := unit;
     cache_Get := fun c _ => (None, c);
     cache_Add := fun c _ _ => c |}.

(* ================================================================= *)
(** * Properties *)

(** ** Floating-point facts

    What the percentile thresholds need of binary64: small integers convert,
    multiply and divide exactly, and a [uint64] never rounds to infinity. *)

Lemma digits2_pos_log2 p : Zpos (digits2_pos p) = Z.log2 (Zpos p) + 1.
Proof.
  induction p as [p IH|p IH|]; simpl; try reflexivity.
  - rewrite Pos2Z.inj_succ, IH.
    destruct p; simpl in *; lia.
  - rewrite Pos2Z.inj_succ, IH.
    destruct p; simpl in *; lia.
Qed.

Lemma Zdigits2_log2 m : 0 < m -> Zdigits2 m = Z.log2 m + 1.
Proof. destruct m; try lia. intros _. apply digits2_pos_log2. Qed.

Lemma iter_pos_nat {A} (f : A -> A) p x :
  iter_pos f p x = Nat.iter (Pos.to_nat p) f x.
Proof.
  revert x. induction p as [p IH|p IH|]; intros x; cbn [iter_pos].
  - rewrite !IH, Pos2Nat.inj_xI.
    replace (S (2 * Pos.to_nat p)) with (Pos.to_nat p + S (Pos.to_nat p))%nat
      by lia.
    now rewrite Nat.iter_add, Nat.iter_succ_r.
  - rewrite !IH, Pos2Nat.inj_xO.
    replace (2 * Pos.to_nat p)%nat with (Pos.to_nat p + Pos.to_nat p)%nat
      by lia.
    now rewrite Nat.iter_add.
  - reflexivity.
Qed.

Lemma shr_1_exact M : 0 <= M ->
  shr_1 (Build_shr_record (2 * M) false false) = Build_shr_record M false false.
Proof. destruct M as [|p|p]; try lia; reflexivity. Qed.

Lemma iter_shr_1_exact n M : 0 <= M ->
  Nat.iter n shr_1 (Build_shr_record (M * 2 ^ Z.of_nat n) false false)
  = Build_shr_record M false false.
Proof.
  revert M. induction n as [|n IH]; intros M HM.
  - simpl. now rewrite Z.mul_1_r.
  - rewrite Nat.iter_succ_r.
    replace (M * 2 ^ Z.of_nat (S n)) with (2 * (M * 2 ^ Z.of_nat n))
      by (rewrite Nat2Z.inj_succ, Z.pow_succ_r; lia).
    rewrite shr_1_exact by (apply Z.mul_nonneg_nonneg; lia).
    now apply IH.
Qed.

Lemma log2_lt_53 N : 0 < N < 2 ^ 53 -> 0 <= Z.log2 N <= 52.
Proof.
  intros [H0 H1]. split; [apply Z.log2_nonneg|].
  assert (Z.log2 N < 53) by (apply Z.log2_lt_pow2; lia). lia.
Qed.

Lemma shr_exact M n e : 0 <= M -> 0 <= n ->
  shr (Build_shr_record (M * 2 ^ n) false false) e n
  = (Build_shr_record M false false, e + n).
Proof.
  intros HM Hn. destruct n as [|p|p]; try lia; unfold shr.
  - now rewrite Z.mul_1_r, Z.add_0_r.
  - rewrite iter_pos_nat.
    rewrite <- (positive_nat_Z p) at 1.
    now rewrite iter_shr_1_exact.
Qed.

Lemma shr_fexp_exact N k :
  0 < N < 2 ^ 53 -> 0 <= k -> 52 <= Z.log2 N + k ->
  shr_fexp 53 1024 (N * 2 ^ k) (- k) loc_Exact
  = (Build_shr_record (N * 2 ^ (52 - Z.log2 N)) false false, Z.log2 N - 52).
Proof.
  intros HN Hk Hlog. pose proof (log2_lt_53 N HN) as Hl.
  unfold shr_fexp.
  assert (Hpos : 0 < N * 2 ^ k) by (apply Z.mul_pos_pos; [lia|apply Z.pow_pos_nonneg; lia]).
  rewrite Zdigits2_log2 by exact Hpos.
  rewrite Z.log2_mul_pow2 by lia.
  unfold fexp, emin.
  replace (Z.max (k + Z.log2 N + 1 + - k - 53) (3 - 1024 - 53) - - k)
    with (Z.log2 N + k - 52) by lia.
  cbn [shr_record_of_loc].
  replace (N * 2 ^ k)
    with (N * 2 ^ (52 - Z.log2 N) * 2 ^ (Z.log2 N + k - 52)).
  2:{ rewrite <- Z.mul_assoc, <- Z.pow_add_r by lia. f_equal. f_equal. lia. }
  rewrite shr_exact; [f_equal; lia| |lia].
  apply Z.mul_nonneg_nonneg; [lia|apply Z.pow_nonneg; lia].
Qed.

Lemma binary_round_aux_exact N k :
  0 < N < 2 ^ 53 -> 0 <= k -> 52 <= Z.log2 N + k ->
  binary_round_aux 53 1024 false (N * 2 ^ k) (- k) loc_Exact = F64.norm N.
Proof.
  intros HN Hk Hlog. pose proof (log2_lt_53 N HN) as Hl.
  unfold binary_round_aux.
  rewrite shr_fexp_exact by assumption.
  cbn [loc_of_shr_record shr_m round_nearest_even].
  replace (Z.log2 N - 52) with (- (52 - Z.log2 N)) by lia.
  rewrite shr_fexp_exact by lia.
  cbn [shr_m]. unfold F64.norm.
  replace (- (52 - Z.log2 N)) with (Z.log2 N - 52) by lia.
  assert (Hpos : 0 < N * 2 ^ (52 - Z.log2 N))
    by (apply Z.mul_pos_pos; [lia|apply Z.pow_pos_nonneg; lia]).
  destruct (N * 2 ^ (52 - Z.log2 N)) eqn:E; try lia.
  destruct (Z.leb_spec (Z.log2 N - 52) (1024 - 53)); [reflexivity|lia].
Qed.

Lemma norm_finite N : 0 < N < 2 ^ 53 ->
  F64.norm N = S754_finite false (Z.to_pos (N * 2 ^ (52 - Z.log2 N))) (Z.log2 N - 52).
Proof.
  intros HN. pose proof (log2_lt_53 N HN) as Hl. unfold F64.norm.
  assert (Hpos : 0 < N * 2 ^ (52 - Z.log2 N))
    by (apply Z.mul_pos_pos; [lia|apply Z.pow_pos_nonneg; lia]).
  destruct (N * 2 ^ (52 - Z.log2 N)); try lia. reflexivity.
Qed.

Lemma iter_xO_pow2 n d : Zpos (Pos.iter xO n d) = Zpos n * 2 ^ Zpos d.
Proof.
  induction d as [|d IH] using Pos.peano_ind.
  - simpl. lia.
  - rewrite Pos.iter_succ, Pos2Z.inj_xO, IH, Pos2Z.inj_succ, Z.pow_succ_r; lia.
Qed.

Lemma of_uint64_exact N : 0 < N < 2 ^ 53 -> F64.of_uint64 N = F64.norm N.
Proof.
  intros HN. pose proof (log2_lt_53 N HN) as Hl.
  unfold F64.of_uint64, binary_normalize.
  destruct N as [|n|n]; try lia.
  unfold binary_round, shl_align.
  rewrite digits2_pos_log2. unfold fexp, emin, F64.prec, F64.emax.
  replace (Z.max (Z.log2 (Z.pos n) + 1 + 0 - 53) (3 - 1024 - 53) - 0)
    with (Z.log2 (Z.pos n) - 52) by lia.
  destruct (Z.log2 (Z.pos n) - 52) as [|d|d] eqn:Ed; try lia.
  - replace (Z.pos n) with (Z.pos n * 2 ^ 0) at 1 by lia.
    apply (binary_round_aux_exact (Z.pos n) 0); lia.
  - rewrite iter_xO_pow2.
    replace (Z.log2 (Z.pos n) + 1 + 0 - 53) with (- Z.pos d) by lia.
    replace (Z.max (- Z.pos d) (3 - 1024 - 53)) with (- Z.pos d) by lia.
    apply (binary_round_aux_exact (Z.pos n) (Z.pos d)); lia.
Qed.

Lemma norm_mantissa N : 0 < N < 2 ^ 53 ->
  Zpos (Z.to_pos (N * 2 ^ (52 - Z.log2 N))) = N * 2 ^ (52 - Z.log2 N).
Proof.
  intros HN. pose proof (log2_lt_53 N HN) as Hl.
  apply Z2Pos.id. apply Z.mul_pos_pos; [lia|apply Z.pow_pos_nonneg; lia].
Qed.

Lemma mul_exact a b : 0 < a -> 0 < b -> a * b < 2 ^ 53 ->
  F64.mul (F64.norm a) (F64.norm b) = F64.norm (a * b).
Proof.
  intros Ha Hb Hab.
  assert (Ha' : 0 < a < 2 ^ 53) by nia.
  assert (Hb' : 0 < b < 2 ^ 53) by nia.
  pose proof (log2_lt_53 a Ha') as Hla. pose proof (log2_lt_53 b Hb') as Hlb.
  pose proof (Z.log2_mul_below a b Ha Hb) as Hbelow.
  rewrite (norm_finite a Ha'), (norm_finite b Hb').
  unfold F64.mul, SFmul, F64.prec, F64.emax. cbn [xorb].
  rewrite Pos2Z.inj_mul, !norm_mantissa by assumption.
  replace (a * 2 ^ (52 - Z.log2 a) * (b * 2 ^ (52 - Z.log2 b)))
    with (a * b * 2 ^ (104 - Z.log2 a - Z.log2 b)).
  2:{ replace (104 - Z.log2 a - Z.log2 b)
        with ((52 - Z.log2 a) + (52 - Z.log2 b)) by lia.
      rewrite Z.pow_add_r by lia. ring. }
  replace (Z.log2 a - 52 + (Z.log2 b - 52))
    with (- (104 - Z.log2 a - Z.log2 b)) by lia.
  apply binary_round_aux_exact; nia.
Qed.

Lemma norm_digits N : 0 < N < 2 ^ 53 ->
  Zdigits2 (N * 2 ^ (52 - Z.log2 N)) = 53.
Proof.
  intros HN. pose proof (log2_lt_53 N HN) as Hl.
  rewrite Zdigits2_log2
    by (apply Z.mul_pos_pos; [lia|apply Z.pow_pos_nonneg; lia]).
  rewrite Z.log2_mul_pow2 by lia. lia.
Qed.

Lemma div_exact a b : 0 < a -> 0 < b -> a * b < 2 ^ 53 ->
  F64.div (F64.norm (a * b)) (F64.norm b) = F64.norm a.
Proof.
  intros Ha Hb Hab.
  assert (Ha' : 0 < a < 2 ^ 53) by nia.
  assert (Hb' : 0 < b < 2 ^ 53) by nia.
  assert (Hp' : 0 < a * b < 2 ^ 53) by nia.
  pose proof (log2_lt_53 a Ha') as Hla. pose proof (log2_lt_53 b Hb') as Hlb.
  pose proof (log2_lt_53 _ Hp') as Hlp.
  pose proof (Z.log2_mul_above a b ltac:(lia) ltac:(lia)) as Habove.
  pose proof (Z.log2_mul_below a b Ha Hb) as Hbelow.
  rewrite (norm_finite _ Hp'), (norm_finite b Hb').
  unfold F64.div, SFdiv, SFdiv_core_binary, F64.prec, F64.emax. cbn [xorb].
  rewrite !norm_mantissa, !norm_digits by assumption.
  unfold fexp, emin.
  replace (Z.min
             (Z.max (53 + (Z.log2 (a * b) - 52) - (53 + (Z.log2 b - 52)) - 53)
                (3 - 1024 - 53))
             (Z.log2 (a * b) - 52 - (Z.log2 b - 52)))
    with (Z.log2 (a * b) - Z.log2 b - 53) by lia.
  replace (Z.log2 (a * b) - 52 - (Z.log2 b - 52)
           - (Z.log2 (a * b) - Z.log2 b - 53)) with 53 by lia.
  rewrite Z.shiftl_mul_pow2 by lia.
  set (k := 53 - Z.log2 (a * b) + Z.log2 b).
  assert (Hq : a * b * 2 ^ (52 - Z.log2 (a * b)) * 2 ^ 53
               = a * 2 ^ k * (b * 2 ^ (52 - Z.log2 b))).
  { replace (a * b * 2 ^ (52 - Z.log2 (a * b)) * 2 ^ 53)
      with (a * b * (2 ^ (52 - Z.log2 (a * b)) * 2 ^ 53)) by ring.
    rewrite <- Z.pow_add_r by lia.
    replace (a * 2 ^ k * (b * 2 ^ (52 - Z.log2 b)))
      with (a * b * (2 ^ k * 2 ^ (52 - Z.log2 b))) by ring.
    rewrite <- Z.pow_add_r by (unfold k; lia).
    f_equal. f_equal. unfold k; lia. }
  rewrite Hq.
  assert (Hb2 : 0 < b * 2 ^ (52 - Z.log2 b))
    by (apply Z.mul_pos_pos; [lia|apply Z.pow_pos_nonneg; lia]).
  pose proof (Z.div_eucl_eq (a * 2 ^ k * (b * 2 ^ (52 - Z.log2 b)))
                (b * 2 ^ (52 - Z.log2 b)) ltac:(lia)) as Heucl.
  pose proof (Z.mod_pos_bound (a * 2 ^ k * (b * 2 ^ (52 - Z.log2 b)))
                (b * 2 ^ (52 - Z.log2 b)) Hb2) as Hmod.
  pose proof (Z_div_mult (a * 2 ^ k) (b * 2 ^ (52 - Z.log2 b)) ltac:(lia))
    as Hdiv.
  pose proof (Z_mod_mult (a * 2 ^ k) (b * 2 ^ (52 - Z.log2 b))) as Hmod0.
  unfold Z.div in Hdiv. unfold Z.modulo in Hmod0.
  destruct (Z.div_eucl (a * 2 ^ k * (b * 2 ^ (52 - Z.log2 b)))
              (b * 2 ^ (52 - Z.log2 b))) as [q r].
  subst q r.
  replace (new_location (b * 2 ^ (52 - Z.log2 b)) 0) with loc_Exact
    by (unfold new_location, new_location_even, new_location_odd;
        now destruct (Z.even _)).
  replace (Z.log2 (a * b) - Z.log2 b - 53) with (- k) by (unfold k; lia).
  apply binary_round_aux_exact; unfold k; lia.
Qed.

Lemma to_uint64_norm undef N : 0 < N < 2 ^ 53 ->
  F64.to_uint64 undef (F64.norm N) = N.
Proof.
  intros HN. pose proof (log2_lt_53 N HN) as Hl.
  rewrite (norm_finite N HN). unfold F64.to_uint64, F64.trunc_mag.
  rewrite norm_mantissa by assumption.
  assert (Hv : (if 0 <=? Z.log2 N - 52
                then Z.shiftl (N * 2 ^ (52 - Z.log2 N)) (Z.log2 N - 52)
                else Z.shiftr (N * 2 ^ (52 - Z.log2 N)) (- (Z.log2 N - 52)))
               = N).
  { destruct (Z.leb_spec 0 (Z.log2 N - 52)).
    - replace (Z.log2 N - 52) with 0 by lia.
      replace (52 - Z.log2 N) with 0 by lia.
      rewrite Z.shiftl_0_r. lia.
    - rewrite Z.shiftr_div_pow2 by lia.
      replace (- (Z.log2 N - 52)) with (52 - Z.log2 N) by lia.
      apply Z_div_mult. apply Z.lt_gt, Z.pow_pos_nonneg; lia. }
  rewrite Hv.
  destruct (Z.eqb_spec N 0); [lia|].
  cbn [negb andb].
  destruct (Z.ltb_spec N (2 ^ 64)); [reflexivity|lia].
Qed.

Lemma threshold_hundred_exact `{Platform} sb :
  0 <= GasUsed sb -> GasUsed sb * 100 < 2 ^ 53 ->
  thresholdGasUsed sb F64.hundred = GasUsed sb.
Proof.
  intros H0 H1. unfold thresholdGasUsed, uint64_of_float64.
  destruct (Z.eq_dec (GasUsed sb) 0) as [->|Hnz]; [reflexivity|].
  assert (Hh : F64.hundred = F64.norm 100) by reflexivity.
  rewrite Hh, of_uint64_exact by lia.
  rewrite mul_exact, div_exact by lia.
  apply to_uint64_norm. lia.
Qed.

(** Rounding a [uint64] never overflows. *)
Lemma shr_1_bounds mrs :
  0 <= shr_m mrs -> 0 <= shr_m (shr_1 mrs) <= shr_m mrs.
Proof.
  destruct mrs as [m r s]. cbn [shr_m]. intros Hm. unfold shr_1.
  destruct m as [|[p|p|]|p]; cbn [shr_m]; lia.
Qed.

Lemma iter_shr_1_bounds n mrs :
  0 <= shr_m mrs -> 0 <= shr_m (Nat.iter n shr_1 mrs) <= shr_m mrs.
Proof.
  intros Hm. induction n as [|n IH]; simpl; [lia|].
  pose proof (shr_1_bounds (Nat.iter n shr_1 mrs) ltac:(lia)). lia.
Qed.

Lemma shr_bounds mrs e n :
  0 <= shr_m mrs ->
  0 <= shr_m (fst (shr mrs e n)) <= shr_m mrs
  /\ snd (shr mrs e n) = e + Z.max 0 n.
Proof.
  intros Hm. destruct n as [|p|p]; cbn [shr fst snd]; try (split; lia).
  rewrite iter_pos_nat. split; [now apply iter_shr_1_bounds|lia].
Qed.

Lemma shr_m_of_loc m l : shr_m (shr_record_of_loc m l) = m.
Proof. destruct l as [|[]]; reflexivity. Qed.

Lemma Zdigits2_bound m k : 0 <= k -> 0 <= m < 2 ^ k -> 0 <= Zdigits2 m <= k.
Proof.
  intros Hk [H0 H1]. destruct (Z.eq_dec m 0) as [->|Hnz]; [simpl; lia|].
  rewrite Zdigits2_log2 by lia.
  pose proof (Z.log2_nonneg m).
  assert (Z.log2 m < k) by (apply Z.log2_lt_pow2; lia). lia.
Qed.

Lemma round_nearest_even_bounds m l :
  0 <= m -> 0 <= round_nearest_even m l <= m + 1.
Proof.
  intros Hm. destruct l as [|[]]; cbn [round_nearest_even]; try lia.
  destruct (Z.even m); lia.
Qed.

Lemma binary_round_aux_finite s m e l :
  0 <= m < 2 ^ 64 -> -1074 <= e <= 0 ->
  F64.is_finite (binary_round_aux 53 1024 s m e l) = true.
Proof.
  intros Hm He. unfold binary_round_aux, shr_fexp.
  pose proof (shr_bounds (shr_record_of_loc m l) e
                (fexp 53 1024 (Zdigits2 m + e) - e)) as H1.
  rewrite shr_m_of_loc in H1. specialize (H1 ltac:(lia)).
  destruct (shr (shr_record_of_loc m l) e _) as [mrs' e'].
  cbn [fst snd] in H1. destruct H1 as [Hm1 He1].
  pose proof (Zdigits2_bound m 64 ltac:(lia) Hm) as Hd1.
  unfold fexp, emin in He1.
  pose proof (round_nearest_even_bounds (shr_m mrs') (loc_of_shr_record mrs')
                ltac:(lia)) as Hr.
  set (m2 := round_nearest_even (shr_m mrs') (loc_of_shr_record mrs')) in *.
  pose proof (shr_bounds (shr_record_of_loc m2 loc_Exact) e'
                (fexp 53 1024 (Zdigits2 m2 + e') - e')) as H2.
  rewrite shr_m_of_loc in H2. specialize (H2 ltac:(lia)).
  destruct (shr (shr_record_of_loc m2 loc_Exact) e' _) as [mrs'' e''].
  cbn [fst snd] in H2. destruct H2 as [Hm2 He2].
  pose proof (Zdigits2_bound m2 65 ltac:(lia) ltac:(lia)) as Hd2.
  unfold fexp, emin in He2.
  destruct (shr_m mrs'') as [|q|q]; try lia; [reflexivity|].
  destruct (Z.leb_spec e'' (1024 - 53)); [reflexivity|lia].
Qed.

Lemma of_uint64_finite n : 0 <= n < 2 ^ 64 -> F64.is_finite (F64.of_uint64 n) = true.
Proof.
  intros Hn.
  destruct (Z.ltb_spec n (2 ^ 53)) as [Hlt|Hge].
  - destruct (Z.eq_dec n 0) as [->|Hnz]; [reflexivity|].
    rewrite of_uint64_exact, norm_finite by lia. reflexivity.
  - unfold F64.of_uint64, binary_normalize.
    destruct n as [|p|p]; try lia.
    unfold binary_round, shl_align, F64.prec, F64.emax.
    rewrite digits2_pos_log2. unfold fexp, emin.
    assert (53 <= Z.log2 (Z.pos p)) by (apply Z.log2_le_pow2; lia).
    destruct (Z.max (Z.log2 (Z.pos p) + 1 + 0 - 53) (3 - 1024 - 53) - 0)
      eqn:E; try lia.
    apply binary_round_aux_finite; lia.
Qed.

Lemma threshold_zero `{Platform} sb :
  0 <= GasUsed sb < 2 ^ 64 -> thresholdGasUsed sb F64.zero = 0.
Proof.
  intros HG. unfold thresholdGasUsed, uint64_of_float64.
  pose proof (of_uint64_finite _ HG) as Hfin.
  destruct (F64.of_uint64 (GasUsed sb)); try discriminate; reflexivity.
Qed.

(** ** The percentile calculator *)

Section PercentileFacts.
Context `{Platform}.

Lemma advance_spec fuel txs thr idx sum :
  (idx < length txs)%nat ->
  (length txs - 1 - idx <= fuel)%nat ->
  sum = cumulativeGasUsed txs idx ->
  cursor_stop txs thr idx (fst (advance fuel txs thr idx sum))
  /\ snd (advance fuel txs thr idx sum)
     = cumulativeGasUsed txs (fst (advance fuel txs thr idx sum)).
Proof.
  revert idx sum.
  induction fuel as [|fuel IH]; intros idx sum Hidx Hfuel Hsum; simpl.
  - split; [|exact Hsum].
    repeat split; try lia.
  - destruct (sum <? thr) eqn:Hlt; simpl.
    + destruct (idx <? length txs - 1)%nat eqn:Hlast.
      * apply Nat.ltb_lt in Hlast. apply Z.ltb_lt in Hlt.
        destruct (IH (S idx) (wrap_u64 (sum + gasUsed (tx_at txs (S idx)))))
          as [[Hrange [Hbelow Hstop]] Hsum'];
          [lia | lia | simpl; now rewrite Hsum |].
        split; [|exact Hsum'].
        split; [lia|]. split; [|exact Hstop].
        intros j Hj.
        destruct (Nat.eq_dec j idx) as [->|Hne]; [now rewrite <- Hsum|].
        apply Hbelow; lia.
      * apply Nat.ltb_ge in Hlast.
        split; [|exact Hsum].
        repeat split; simpl; try lia.
    + apply Z.ltb_ge in Hlt.
      split; [|exact Hsum].
      repeat split; simpl; lia.
Qed.

(** Fuel beyond [length txs] changes nothing: the loop has exited. *)
Lemma advance_fuel fuel txs thr idx sum :
  (idx < length txs)%nat ->
  (length txs - 1 - idx <= fuel)%nat ->
  advance (S fuel) txs thr idx sum = advance fuel txs thr idx sum.
Proof.
  revert idx sum.
  induction fuel as [|fuel IH]; intros idx sum Hidx Hfuel.
  - simpl. destruct (sum <? thr); simpl; [|reflexivity].
    destruct (idx <? length txs - 1)%nat eqn:E; [|reflexivity].
    apply Nat.ltb_lt in E; lia.
  - change (advance (S (S fuel)) txs thr idx sum) with
      (if (sum <? thr) && (idx <? length txs - 1)%nat
       then advance (S fuel) txs thr (S idx)
              (wrap_u64 (sum + gasUsed (tx_at txs (S idx))))
       else (idx, sum)).
    change (advance (S fuel) txs thr idx sum) with
      (if (sum <? thr) && (idx <? length txs - 1)%nat
       then advance fuel txs thr (S idx)
              (wrap_u64 (sum + gasUsed (tx_at txs (S idx))))
       else (idx, sum)).
    destruct ((sum <? thr) && (idx <? length txs - 1)%nat) eqn:E;
      [|reflexivity].
    apply andb_true_iff in E as [_ E]. apply Nat.ltb_lt in E.
    apply IH; lia.
Qed.

Lemma cursor_stop_unique txs thr start k1 k2 :
  cursor_stop txs thr start k1 -> cursor_stop txs thr start k2 -> k1 = k2.
Proof.
  intros [R1 [B1 S1]] [R2 [B2 S2]].
  destruct (Nat.lt_trichotomy k1 k2) as [Hlt|[Heq|Hgt]]; [|exact Heq|].
  - destruct S1 as [S1|S1]; [lia|].
    specialize (B2 k1 ltac:(lia)). lia.
  - destruct S2 as [S2|S2]; [lia|].
    specialize (B1 k2 ltac:(lia)). lia.
Qed.

Lemma cursor_walk_unique thr txs start ps ks1 ks2 :
  cursor_walk thr txs start ps ks1 -> cursor_walk thr txs start ps ks2 ->
  ks1 = ks2.
Proof.
  intros W1. revert ks2.
  induction W1 as [start|start p ps k ks Hstop W1 IH]; intros ks2 W2;
    inversion W2; subst; [reflexivity|].
  match goal with
  | Hs : cursor_stop _ _ _ ?k' |- _ :: _ = ?k' :: _ =>
      pose proof (cursor_stop_unique _ _ _ _ _ Hstop Hs); subst k'
  end.
  f_equal. now apply IH.
Qed.

Lemma percentile_loop_walk sb ps idx sum :
  (idx < length (Txs sb))%nat ->
  sum = cumulativeGasUsed (Txs sb) idx ->
  exists ks,
    cursor_walk (thresholdGasUsed sb) (Txs sb) idx ps ks
    /\ percentile_loop sb ps idx sum
       = map (fun k => reward (tx_at (Txs sb) k)) ks.
Proof.
  revert idx sum.
  induction ps as [|p ps IH]; intros idx sum Hidx Hsum.
  - exists []. split; [constructor|reflexivity].
  - simpl.
    pose proof (advance_spec (length (Txs sb)) (Txs sb)
                  (thresholdGasUsed sb p) idx sum Hidx ltac:(lia) Hsum)
      as [Hstop Hsum'].
    destruct (advance (length (Txs sb)) (Txs sb) (thresholdGasUsed sb p)
                idx sum) as [k s] eqn:E.
    simpl in Hstop, Hsum'.
    destruct (IH k s) as [ks [Hwalk Hout]];
      [destruct Hstop; lia | exact Hsum' |].
    exists (k :: ks). split; [now constructor|].
    simpl. now rewrite Hout.
Qed.

Lemma processPercentiles_walk sb ps :
  Txs sb <> [] ->
  emits_by_cursor (thresholdGasUsed sb) sb ps
    (pf_reward (processPercentiles sb ps)).
Proof.
  intros Hne. unfold processPercentiles.
  destruct ps as [|p ps]; [exists []; split; [constructor|reflexivity]|].
  destruct (Txs sb) as [|tx0 txs] eqn:Htxs; [contradiction|].
  cbn [pf_reward].
  apply (percentile_loop_walk sb (p :: ps) 0%nat (gasUsed tx0)).
  - rewrite Htxs; simpl; lia.
  - simpl; rewrite Htxs; reflexivity.
Qed.

End PercentileFacts.

Section PercentileClaims.
Context `{Platform}.

Lemma cursor_walk_bounds thr txs start ps ks :
  cursor_walk thr txs start ps ks ->
  length ks = length ps
  /\ Forall (fun k => (start <= k < length txs)%nat) ks.
Proof.
  induction 1 as [start|start p ps k ks [Hr _] _ [IHlen IHall]].
  - split; [reflexivity|constructor].
  - split; [simpl; now rewrite IHlen|].
    constructor; [exact Hr|].
    eapply Forall_impl; [|exact IHall]. simpl; intros; lia.
Qed.

Lemma sorted_by_reward_nth txs i j :
  sorted_by_reward txs -> (i <= j < length txs)%nat ->
  reward (tx_at txs i) <= reward (tx_at txs j).
Proof.
  revert i j.
  induction txs as [|tx rest IH]; intros i j Hs Hij; [simpl in Hij; lia|].
  destruct Hs as [Hhd Hs].
  assert (Hfirst : forall n, (n < length (tx :: rest))%nat ->
                   reward tx <= reward (tx_at (tx :: rest) n)).
  { intros n Hn. destruct n as [|n]; [unfold tx_at; simpl; lia|].
    destruct rest as [|tx' rest']; [simpl in Hn; lia|].
    specialize (IH 0%nat n Hs ltac:(simpl in *; lia)).
    unfold tx_at in *; simpl in *; lia. }
  destruct i as [|i].
  - apply Hfirst; lia.
  - destruct j as [|j]; [lia|].
    apply (IH i j Hs). simpl in Hij; lia.
Qed.

Lemma walk_rewards_nondecreasing thr txs start ps ks :
  sorted_by_reward txs ->
  cursor_walk thr txs start ps ks ->
  nondecreasing (map (fun k => reward (tx_at txs k)) ks).
Proof.
  intros Hs. induction 1 as [start|start p ps k ks Hstop Hwalk IH].
  - exact I.
  - simpl. split; [|exact IH].
    destruct Hwalk as [|k p' ps' k' ks' [Hr _] _]; [exact I|].
    simpl. apply sorted_by_reward_nth; [exact Hs|lia].
Qed.

(** C9.  A block without transactions yields, for a non-empty request,
    one reward per requested percentile, each of them zero. *)
Theorem processPercentiles_no_transactions sb ps :
  Txs sb = [] -> ps <> [] ->
  length (pf_reward (processPercentiles sb ps)) = length ps
  /\ Forall (fun r => r = 0) (pf_reward (processPercentiles sb ps)).
Proof.
  intros Htxs Hps. unfold processPercentiles. rewrite Htxs.
  destruct ps as [|p ps]; [contradiction|].
  cbn [pf_reward]. split; [apply length_map|].
  apply Forall_forall. intros r Hin.
  apply in_map_iff in Hin as [? [Heq _]]. now symmetry.
Qed.

(** C10.  On a block with transactions, sorted by reward, an ascending
    percentile sequence yields a non-decreasing reward sequence. *)
Theorem processPercentiles_rewards_nondecreasing sb ps :
  Txs sb <> [] -> sorted_by_reward (Txs sb) -> ascending ps ->
  nondecreasing (pf_reward (processPercentiles sb ps)).
Proof.
  intros Hne Hs _.
  destruct (processPercentiles_walk sb ps Hne) as [ks [Hwalk ->]].
  eapply walk_rewards_nondecreasing; eassumption.
Qed.

Lemma walk_single thr sb p k :
  Txs sb <> [] ->
  cursor_stop (Txs sb) (thresholdGasUsed sb p) 0 k ->
  thr = thresholdGasUsed sb ->
  pf_reward (processPercentiles sb [p]) = [reward (tx_at (Txs sb) k)].
Proof.
  intros Hne Hstop ->.
  destruct (processPercentiles_walk sb [p] Hne) as [ks [Hwalk ->]].
  inversion Hwalk as [|? ? ? k' ks' Hstop' Hrest]; subst.
  inversion Hrest; subst.
  now rewrite (cursor_stop_unique _ _ _ _ _ Hstop' Hstop).
Qed.

Lemma total_gas_firstn_succ txs j :
  (j < length txs)%nat ->
  total_gas (firstn (S j) txs)
  = total_gas (firstn j txs) + gasUsed (tx_at txs j).
Proof.
  revert j. induction txs as [|tx rest IH]; intros j Hj; [simpl in Hj; lia|].
  destruct j as [|j].
  - unfold tx_at; simpl. lia.
  - change (firstn (S (S j)) (tx :: rest))
      with (tx :: firstn (S j) rest).
    change (firstn (S j) (tx :: rest)) with (tx :: firstn j rest).
    cbn [total_gas fold_right]. fold (total_gas (firstn (S j) rest)).
    fold (total_gas (firstn j rest)).
    rewrite IH by (simpl in Hj; lia).
    unfold tx_at; simpl. lia.
Qed.

Lemma total_gas_firstn_le txs j :
  Forall (fun tx => 0 < gasUsed tx) txs ->
  total_gas (firstn j txs) <= total_gas txs
  /\ ((j < length txs)%nat -> total_gas (firstn j txs) < total_gas txs).
Proof.
  intros Hpos. revert j.
  induction Hpos as [|tx rest Htx Hrest IH]; intros j.
  - rewrite firstn_nil. simpl. split; [lia|lia].
  - destruct j as [|j]; simpl.
    + fold (total_gas rest). specialize (IH 0%nat). simpl in IH.
      split; [lia|intros _; lia].
    + fold (total_gas rest). fold (total_gas (firstn j rest)).
      specialize (IH j). split; [lia|intros Hj; lia].
Qed.

Lemma cumulativeGasUsed_prefix txs j :
  Forall (fun tx => 0 < gasUsed tx) txs ->
  total_gas txs < 2 ^ 64 ->
  (j < length txs)%nat ->
  cumulativeGasUsed txs j = total_gas (firstn (S j) txs).
Proof.
  intros Hpos Htot. induction j as [|j IH]; intros Hj.
  - rewrite total_gas_firstn_succ by exact Hj. simpl. lia.
  - cbn [cumulativeGasUsed]. rewrite IH by lia.
    rewrite (total_gas_firstn_succ txs (S j)) by exact Hj.
    unfold wrap_u64. apply Z.mod_small.
    pose proof (total_gas_firstn_le txs (S (S j)) Hpos) as [Hle _].
    rewrite (total_gas_firstn_succ txs (S j)) in Hle by exact Hj.
    pose proof (total_gas_firstn_le txs (S j) Hpos) as [_ Hlt].
    assert (0 <= total_gas (firstn (S j) txs)).
    { clear -Hpos. generalize (S j) as k. induction Hpos; intros k.
      - rewrite firstn_nil; simpl; lia.
      - destruct k; simpl; [lia|].
        fold (total_gas (firstn k l)). specialize (IHHpos k). lia. }
    assert (0 < gasUsed (tx_at txs (S j))).
    { rewrite Forall_forall in Hpos. apply Hpos. apply nth_In. exact Hj. }
    lia.
Qed.

(** C1 (as amended).  On a block with transactions the rewards emitted
    are exactly those of the cursor walk whose threshold for percentile
    [p] is [uint64(float64(GasUsed) * p / 100)]: the cursor advances while
    the running cumulative gas is below the threshold and it is not on
    the last transaction, and the reward under it is emitted. *)
Theorem processPercentiles_cursor_walk sb ps :
  Txs sb <> [] ->
  emits_by_cursor (thresholdGasUsed sb) sb ps
    (pf_reward (processPercentiles sb ps))
  /\ (forall rewards,
        emits_by_cursor (thresholdGasUsed sb) sb ps rewards ->
        rewards = pf_reward (processPercentiles sb ps)).
Proof.
  intros Hne. split; [now apply processPercentiles_walk|].
  intros rewards [ks [Hwalk ->]].
  destruct (processPercentiles_walk sb ps Hne) as [ks' [Hwalk' ->]].
  now rewrite (cursor_walk_unique _ _ _ _ _ _ Hwalk Hwalk').
Qed.

(** C8 (as amended).  On a typed block with transactions sorted by
    reward: percentile 0 yields the smallest reward; a percentile whose
    threshold exceeds the running cumulative gas at every transaction
    before the last yields the largest reward; and percentile 100 is such
    a percentile when [GasUsed] is the sum of the transactions' gas, each
    of them positive, and [GasUsed * 100] is below 2^53. *)
Theorem processPercentiles_extremes sb :
  Txs sb <> [] -> sorted_by_reward (Txs sb) -> slimBlock_typed sb ->
  (pf_reward (processPercentiles sb [F64.zero]) = [reward (first_tx sb)]
   /\ Forall (fun tx => reward (first_tx sb) <= reward tx) (Txs sb))
  /\ (forall p,
        (forall j, (j < length (Txs sb) - 1)%nat ->
                   cumulativeGasUsed (Txs sb) j < thresholdGasUsed sb p) ->
        pf_reward (processPercentiles sb [p]) = [reward (last_tx sb)])
  /\ Forall (fun tx => reward tx <= reward (last_tx sb)) (Txs sb)
  /\ (GasUsed sb = total_gas (Txs sb) ->
      Forall (fun tx => 0 < gasUsed tx) (Txs sb) ->
      GasUsed sb * 100 < 2 ^ 53 ->
      pf_reward (processPercentiles sb [F64.hundred])
      = [reward (last_tx sb)]).
Proof.
  intros Hne Hsorted [HG Hgas].
  assert (Hlen : (0 < length (Txs sb))%nat)
    by (destruct (Txs sb); [contradiction|simpl; lia]).
  assert (Hlast : forall p,
            (forall j, (j < length (Txs sb) - 1)%nat ->
               cumulativeGasUsed (Txs sb) j < thresholdGasUsed sb p) ->
            pf_reward (processPercentiles sb [p]) = [reward (last_tx sb)]).
  { intros p Hp.
    apply (walk_single (thresholdGasUsed sb)); [exact Hne| |reflexivity].
    split; [lia|]. split; [intros j Hj; apply Hp; lia|now left]. }
  repeat split.
  - apply (walk_single (thresholdGasUsed sb)); [exact Hne| |reflexivity].
    rewrite threshold_zero by exact HG.
    split; [lia|]. split; [intros j Hj; lia|right].
    simpl. rewrite Forall_forall in Hgas.
    apply (Hgas (tx_at (Txs sb) 0)). apply nth_In. exact Hlen.
  - apply Forall_forall. intros tx Hin.
    apply (In_nth _ _ (mkTx 0 0)) in Hin as [j [Hj <-]].
    apply (sorted_by_reward_nth (Txs sb) 0 j Hsorted). lia.
  - exact Hlast.
  - apply Forall_forall. intros tx Hin.
    apply (In_nth _ _ (mkTx 0 0)) in Hin as [j [Hj <-]].
    apply (sorted_by_reward_nth (Txs sb) j _ Hsorted). lia.
  - intros Htotal Hpos H53. apply Hlast.
    rewrite threshold_hundred_exact by (unfold in_u64 in HG; lia).
    intros j Hj.
    rewrite cumulativeGasUsed_prefix by (try assumption; lia).
    rewrite Htotal.
    apply (total_gas_firstn_le (Txs sb) (S j) Hpos). lia.
Qed.

End PercentileClaims.

Section PercentileScenarios.
  Import Sample.

(** C1, as the specification words it, fails: with the threshold taken from
    [gasLimit] the cursor of a lightly filled block would run on to the
    last transaction at the median, where the code stays on the first. *)
Lemma spec_threshold_walk_differs :
  ~ emits_by_cursor (spec_threshold Sample.light_block) Sample.light_block
      [F64.of_uint64 50]
      (pf_reward (processPercentiles Sample.light_block [F64.of_uint64 50])).
Proof.
  intros [ks [Hwalk Heq]].
  inversion Hwalk as [|? ? ? k ks' [Hrange [_ Hstop]] Hrest]; subst.
  inversion Hrest; subst.
  simpl in Hrange.
  destruct k as [|[|k]]; [| |lia].
  - vm_compute in Hstop.
    destruct Hstop as [Hstop|Hstop]; [discriminate|now apply Hstop].
  - vm_compute in Heq. discriminate.
Qed.

Lemma processPercentiles_cursor_walk_witness :
  Txs Sample.light_block <> []
  /\ (emits_by_cursor (thresholdGasUsed Sample.light_block)
        Sample.light_block Sample.percentiles
        (pf_reward (processPercentiles Sample.light_block Sample.percentiles))
      /\ (forall rewards,
            emits_by_cursor (thresholdGasUsed Sample.light_block)
              Sample.light_block Sample.percentiles rewards ->
            rewards
            = pf_reward
                (processPercentiles Sample.light_block Sample.percentiles))).
Proof.
  split; [discriminate|].
  apply processPercentiles_cursor_walk. discriminate.
Defined.

(** C8, as stated for every block with a transaction, fails at percentile
    100: the threshold is the header's [GasUsed], and a cursor whose running
    sum has reached it stays where it is. *)
Lemma percentile_100_not_largest_reward :
  Txs short_header <> []
  /\ sorted_by_reward (Txs short_header)
  /\ pf_reward (processPercentiles short_header [F64.hundred])
     <> [reward (last_tx short_header)].
Proof.
  split; [discriminate|]. split; [simpl; lia|].
  vm_compute. discriminate.
Qed.

Lemma light_block_typed : slimBlock_typed light_block.
Proof.
  split; [unfold in_u64; simpl; lia|].
  repeat constructor; unfold in_u64; simpl; lia.
Defined.

Lemma processPercentiles_extremes_witness :
  Txs light_block <> []
  /\ sorted_by_reward (Txs light_block)
  /\ slimBlock_typed light_block
  /\ pf_reward (processPercentiles light_block [F64.zero])
     = [reward (first_tx light_block)]
  /\ pf_reward (processPercentiles light_block [F64.hundred])
     = [reward (last_tx light_block)].
Proof.
  assert (Hne : Txs light_block <> []) by discriminate.
  assert (Hs : sorted_by_reward (Txs light_block)) by (simpl; lia).
  destruct (processPercentiles_extremes light_block Hne Hs light_block_typed)
    as [[Hzero _] [_ [_ Hhundred]]].
  split; [exact Hne|]. split; [exact Hs|].
  split; [exact light_block_typed|]. split; [exact Hzero|].
  apply Hhundred; [reflexivity| |simpl; lia].
  repeat constructor; simpl; lia.
Defined.

Lemma processPercentiles_no_transactions_witness :
  Txs empty_block = [] /\ percentiles <> []
  /\ length (pf_reward (processPercentiles empty_block percentiles))
     = length percentiles
  /\ Forall (fun r => r = 0)
       (pf_reward (processPercentiles empty_block percentiles)).
Proof.
  split; [reflexivity|]. split; [discriminate|].
  apply processPercentiles_no_transactions; [reflexivity|discriminate].
Defined.

Lemma processPercentiles_rewards_nondecreasing_witness :
  Txs light_block <> [] /\ sorted_by_reward (Txs light_block)
  /\ ascending percentiles
  /\ nondecreasing (pf_reward (processPercentiles light_block percentiles)).
Proof.
  assert (Hne : Txs light_block <> []) by discriminate.
  assert (Hs : sorted_by_reward (Txs light_block)) by (simpl; lia).
  assert (Ha : ascending percentiles) by (repeat split; reflexivity).
  split; [exact Hne|]. split; [exact Hs|]. split; [exact Ha|].
  exact (processPercentiles_rewards_nondecreasing light_block percentiles
           Hne Hs Ha).
Defined.

End PercentileScenarios.


(** ** The range resolver *)

Lemma wrap_i64_spec x :
  (- 2 ^ 63 <= x < 2 ^ 63 -> wrap_i64 x = x)
  /\ - 2 ^ 63 <= wrap_i64 x < 2 ^ 63.
Proof.
  unfold wrap_i64. split.
  - intros Hx. rewrite Z.mod_small; lia.
  - pose proof (Z.mod_pos_bound (x + 2 ^ 63) (2 ^ 64) ltac:(lia)). lia.
Qed.

Lemma wrap_u64_spec x :
  (0 <= x < 2 ^ 64 -> wrap_u64 x = x) /\ 0 <= wrap_u64 x < 2 ^ 64.
Proof.
  unfold wrap_u64. split.
  - intros Hx. now apply Z.mod_small.
  - apply Z.mod_pos_bound. lia.
Qed.

(** Name every wrapped term and keep what is known of it, so that [lia]
    can decide which of them wrap. *)
Ltac name_wraps :=
  repeat match goal with
  | |- context [wrap_i64 ?x] =>
      let w := fresh "w" in
      pose proof (wrap_i64_spec x); set (w := wrap_i64 x) in *; clearbody w
  | H : context [wrap_i64 ?x] |- _ =>
      let w := fresh "w" in
      pose proof (wrap_i64_spec x); set (w := wrap_i64 x) in *; clearbody w
  | |- context [wrap_u64 ?x] =>
      let w := fresh "w" in
      pose proof (wrap_u64_spec x); set (w := wrap_u64 x) in *; clearbody w
  | H : context [wrap_u64 ?x] |- _ =>
      let w := fresh "w" in
      pose proof (wrap_u64_spec x); set (w := wrap_u64 x) in *; clearbody w
  end.

Ltac bool_to_prop :=
  repeat match goal with
  | H : (_ && _) = true |- _ => apply andb_true_iff in H; destruct H
  | H : (_ && _) = false |- _ => apply andb_false_iff in H
  | H : (_ <? _) = true |- _ => apply Z.ltb_lt in H
  | H : (_ <? _) = false |- _ => apply Z.ltb_ge in H
  | H : (_ =? _) = true |- _ => apply Z.eqb_eq in H
  | H : (_ =? _) = false |- _ => apply Z.eqb_neq in H
  end.

Section ResolveFacts.
Context `{RpcDecls} `{HistoryCache}.

(** The resolver consults the backend for the head and nothing else, and
    leaves the cache alone. *)
Lemma resolveBlockRange_state oracle lastBlock blocks st :
  historyCache (snd (resolveBlockRange oracle lastBlock blocks st))
  = historyCache st.
Proof.
  unfold resolveBlockRange, backend_LastAcceptedBlock, bind, ret, called.
  repeat match goal with
  | |- context [if ?c then _ else _] => destruct c; cbn
  end; reflexivity.
Qed.

Lemma resolveBlockRange_error oracle lastBlock blocks st last n e :
  fst (resolveBlockRange oracle lastBlock blocks st) = (last, n, Some e) ->
  last = 0 /\ n = 0.
Proof.
  unfold resolveBlockRange, backend_LastAcceptedBlock, bind, ret, called.
  repeat match goal with
  | |- context [if ?c then _ else _] => destruct c; cbn
  end; intros Heq; inversion Heq; auto.
Qed.

Lemma wrap_i64_id x : - 2 ^ 63 <= x < 2 ^ 63 -> wrap_i64 x = x.
Proof. apply wrap_i64_spec. Qed.

Ltac unwrap :=
  repeat match goal with
  | |- context [wrap_i64 ?x] => rewrite (wrap_i64_id x) by lia
  end.

(** The two clamps at the end of the resolver, for a last block within the
    chain that is not further back than the history window. *)
Lemma clamps_bounds head maxQueryDepth lastBlock blocks :
  0 <= head < 2 ^ 63 - 1 ->
  -1 <= maxQueryDepth < 2 ^ 63 ->
  0 <= lastBlock <= head ->
  1 <= blocks < 2 ^ 63 ->
  head - maxQueryDepth <= lastBlock + 1 ->
  let blocks1 :=
    if wrap_i64 (lastBlock + 1) <? blocks
    then wrap_i64 (lastBlock + 1) else blocks in
  let oldestQueriedIndex := wrap_i64 (wrap_i64 (lastBlock - blocks1) + 1) in
  let queryDepth := wrap_i64 (head - oldestQueriedIndex) in
  let blocks2 :=
    if maxQueryDepth <? queryDepth
    then wrap_i64 (blocks1 - wrap_i64 (queryDepth - maxQueryDepth))
    else blocks1 in
  0 <= blocks2 <= lastBlock + 1 /\ blocks2 <= blocks.
Proof.
  intros Hhead Hmax Hlast Hblocks Hwindow. cbv zeta.
  rewrite (wrap_i64_id (lastBlock + 1)) by lia.
  destruct (Z.ltb_spec (lastBlock + 1) blocks).
  - unwrap.
    destruct (Z.ltb_spec maxQueryDepth
                (head - (lastBlock - (lastBlock + 1) + 1)));
      unwrap; lia.
  - unwrap.
    destruct (Z.ltb_spec maxQueryDepth (head - (lastBlock - blocks + 1)));
      unwrap; lia.
Qed.

Lemma resolveBlockRange_success oracle lastBlock blocks st last n :
  rpc_wf ->
  0 <= LastAcceptedBlock (backend oracle) < 2 ^ 63 - 1 ->
  0 <= maxBlockHistory oracle < 2 ^ 63 ->
  1 <= blocks < 2 ^ 63 ->
  lastBlock = PendingBlockNumber \/ IsAccepted lastBlock = true
  \/ 0 <= lastBlock < 2 ^ 63 ->
  fst (resolveBlockRange oracle lastBlock blocks st) = (last, n, None) ->
  0 <= n <= last + 1
  /\ n <= blocks
  /\ last <= LastAcceptedBlock (backend oracle).
Proof.
  intros [Hpend [Hlatest Hneg]] Hhead Hmax Hblocks Hlast.
  unfold resolveBlockRange, backend_LastAcceptedBlock, bind, ret, called.
  set (head := LastAcceptedBlock (backend oracle)) in *.
  rewrite (wrap_i64_id head) by lia.
  rewrite (wrap_i64_id (maxBlockHistory oracle)) by lia.
  rewrite (wrap_i64_id (maxBlockHistory oracle - 1)) by lia.
  set (maxQueryDepth := maxBlockHistory oracle - 1) in *.
  assert (Hu : forall L, 0 <= L <= head -> wrap_u64 L = L)
    by (intros L HL; apply wrap_u64_spec; lia).
  destruct (lastBlock =? PendingBlockNumber) eqn:Epend.
  - rewrite Hlatest. rewrite (wrap_i64_id (blocks - 1)) by lia.
    destruct (Z.eqb_spec (blocks - 1) 0); cbn;
      [intros [= <- <-]; lia|].
    pose proof (clamps_bounds head maxQueryDepth head (blocks - 1)
                  Hhead ltac:(lia) ltac:(lia) ltac:(lia) ltac:(lia)) as Hc.
    cbv zeta in Hc. rewrite Hu by lia.
    intros [= <- <-]. lia.
  - destruct (Z.eqb_spec blocks 0); [lia|].
    destruct (IsAccepted lastBlock) eqn:Eacc; cbn.
    + pose proof (clamps_bounds head maxQueryDepth head blocks
                    Hhead ltac:(lia) ltac:(lia) ltac:(lia) ltac:(lia)) as Hc.
      cbv zeta in Hc. rewrite Hu by lia.
      intros [= <- <-]. lia.
    + apply Z.eqb_neq in Epend.
      destruct Hlast as [Hlast|[Hlast|Hlast]]; [lia|congruence|].
      rewrite (wrap_i64_id (head - maxQueryDepth)) by lia.
      destruct (Z.ltb_spec maxQueryDepth head);
        destruct (Z.ltb_spec lastBlock (head - maxQueryDepth)); cbn;
        try discriminate;
        (destruct (Z.ltb_spec head lastBlock); cbn; [discriminate|]);
        (pose proof (clamps_bounds head maxQueryDepth lastBlock blocks
                       Hhead ltac:(lia) ltac:(lia) ltac:(lia) ltac:(lia))
           as Hc;
         cbv zeta in Hc; rewrite Hu by lia;
         intros [= <- <-]; lia).
Qed.

End ResolveFacts.

Section ResolveClaims.
Context `{RpcDecls} `{HistoryCache}.

(** C3 (as amended).  An error return carries the range [(0, 0)].  For a
    request of at least one block whose [lastBlock] is a named selector or
    a non-negative block number, a return without error yields a block
    count between 0 and [lastBlock + 1], so that
    [oldestBlock = lastBlock - blockCount + 1 >= 0], computed by
    [FeeHistory] without wrap-around. *)
Theorem resolveBlockRange_fetchable oracle lastBlock blocks st last n e :
  fst (resolveBlockRange oracle lastBlock blocks st) = (last, n, e) ->
  (e <> None -> last = 0 /\ n = 0)
  /\ (rpc_wf ->
      0 <= LastAcceptedBlock (backend oracle) < 2 ^ 63 - 1 ->
      0 <= maxBlockHistory oracle < 2 ^ 63 ->
      1 <= blocks < 2 ^ 63 ->
      lastBlock = PendingBlockNumber \/ IsAccepted lastBlock = true
      \/ 0 <= lastBlock < 2 ^ 63 ->
      e = None ->
      0 <= n
      /\ 0 <= last - n + 1
      /\ wrap_u64 (last + 1 - wrap_u64 n) = last - n + 1).
Proof.
  intros Hres. split.
  - destruct e as [e|]; [intros _|congruence].
    eapply resolveBlockRange_error; eassumption.
  - intros Hwf Hhead Hmax Hblocks Hlast ->.
    pose proof (resolveBlockRange_success oracle lastBlock blocks st last n
                  Hwf Hhead Hmax Hblocks Hlast Hres) as [Hn [_ Hle]].
    split; [lia|]. split; [lia|].
    name_wraps. lia.
Qed.

(** C4 (as amended).  For a request of a non-zero number of blocks whose
    [lastBlock] is no selector: if the head is past the history window and
    [lastBlock] lies before [head - (maxBlockHistory - 1)], the resolver
    fails with [errBeyondHistoricalLimit]; if [lastBlock] is above the
    head, it fails with [errRequestBeyondHead]. *)
Theorem resolveBlockRange_limits oracle lastBlock blocks st :
  blocks <> 0 ->
  lastBlock <> PendingBlockNumber -> IsAccepted lastBlock = false ->
  - 2 ^ 63 <= lastBlock < 2 ^ 63 ->
  0 <= LastAcceptedBlock (backend oracle) < 2 ^ 63 - 1 ->
  0 <= maxBlockHistory oracle < 2 ^ 63 ->
  let head := LastAcceptedBlock (backend oracle) in
  let maxDepth := maxBlockHistory oracle - 1 in
  (maxDepth < head -> lastBlock < head - maxDepth ->
   fst (resolveBlockRange oracle lastBlock blocks st)
   = (0, 0, Some (errBeyondHistoricalLimit lastBlock head)))
  /\ (head < lastBlock ->
      fst (resolveBlockRange oracle lastBlock blocks st)
      = (0, 0, Some (errRequestBeyondHead lastBlock head))).
Proof.
  intros Hblocks Hpend Hacc Hlast Hhead Hmax head maxDepth.
  unfold resolveBlockRange, backend_LastAcceptedBlock, bind, ret, called.
  apply Z.eqb_neq in Hpend, Hblocks. rewrite Hpend, Hblocks, Hacc. cbn.
  pose proof (proj1 (wrap_i64_spec (LastAcceptedBlock (backend oracle)))
                ltac:(lia)) as ->.
  pose proof (proj1 (wrap_i64_spec (maxBlockHistory oracle)) ltac:(lia))
    as ->.
  pose proof (proj1 (wrap_i64_spec (maxBlockHistory oracle - 1)) ltac:(lia))
    as ->.
  pose proof (proj1 (wrap_i64_spec (LastAcceptedBlock (backend oracle)
                                    - (maxBlockHistory oracle - 1)))
                ltac:(lia)) as ->.
  fold head maxDepth. split.
  - intros Hdepth Hbehind.
    destruct (Z.ltb_spec maxDepth head); [|lia].
    destruct (Z.ltb_spec lastBlock (head - maxDepth)); [|lia].
    reflexivity.
  - intros Habove.
    destruct (Z.ltb_spec maxDepth head);
      destruct (Z.ltb_spec lastBlock (head - maxDepth)); cbn;
      try (unfold head, maxDepth in *; lia);
      destruct (Z.ltb_spec head lastBlock); try lia; reflexivity.
Qed.

End ResolveClaims.

Section ResolveScenarios.
Import Sample.

Lemma sample_rpc_wf : rpc_wf.
Proof.
  split; [reflexivity|]. split; [reflexivity|].
  intros n Hn. simpl in Hn. apply andb_true_iff in Hn as [Hn _].
  now apply Z.ltb_lt.
Defined.

(** C3, as stated for every input, fails: a request for zero blocks ending
    at the pending block, and a request ending at a negative number that is
    no selector, both come back without error and with a negative block
    count. *)
Lemma resolveBlockRange_negative_count :
  fst (resolveBlockRange (oracle 9) PendingBlockNumber 0 fresh)
  = (9, -1, None)
  /\ fst (resolveBlockRange young_oracle (-5) 3 fresh)
     = (2 ^ 64 - 5, -4, None).
Proof. split; vm_compute; reflexivity. Qed.

Lemma resolveBlockRange_fetchable_witness :
  fst (resolveBlockRange (oracle 9) 9 5 fresh) = (9, 5, None)
  /\ rpc_wf
  /\ 0 <= LastAcceptedBlock (backend (oracle 9)) < 2 ^ 63 - 1
  /\ 0 <= maxBlockHistory (oracle 9) < 2 ^ 63
  /\ 1 <= 5 < 2 ^ 63
  /\ (9 = PendingBlockNumber \/ IsAccepted 9 = true \/ 0 <= 9 < 2 ^ 63)
  /\ 0 <= 5
  /\ 0 <= 9 - 5 + 1
  /\ wrap_u64 (9 + 1 - wrap_u64 5) = 9 - 5 + 1.
Proof.
  assert (Hres : fst (resolveBlockRange (oracle 9) 9 5 fresh) = (9, 5, None))
    by reflexivity.
  assert (Hhead : 0 <= LastAcceptedBlock (backend (oracle 9)) < 2 ^ 63 - 1)
    by (simpl; lia).
  assert (Hmax : 0 <= maxBlockHistory (oracle 9) < 2 ^ 63) by (simpl; lia).
  assert (Hblocks : 1 <= 5 < 2 ^ 63) by lia.
  assert (Hlast : 9 = PendingBlockNumber \/ IsAccepted 9 = true
                  \/ 0 <= 9 < 2 ^ 63) by (right; right; lia).
  split; [exact Hres|]. split; [exact sample_rpc_wf|].
  split; [exact Hhead|]. split; [exact Hmax|]. split; [exact Hblocks|].
  split; [exact Hlast|].
  exact (proj2 (resolveBlockRange_fetchable (oracle 9) 9 5 fresh 9 5 None
                  Hres)
           sample_rpc_wf Hhead Hmax Hblocks Hlast eq_refl).
Defined.

(** C4, as stated for every request, fails: a request for zero blocks is
    answered with the empty range and no error, wherever it ends. *)
Lemma resolveBlockRange_zero_blocks_no_error :
  LastAcceptedBlock (backend (oracle 9)) < 100
  /\ fst (resolveBlockRange (oracle 9) 100 0 fresh) = (0, 0, None)
  /\ 1 < LastAcceptedBlock (backend (oracle 9))
         - (maxBlockHistory (oracle 9) - 1)
  /\ fst (resolveBlockRange (oracle 9) 1 0 fresh) = (0, 0, None).
Proof. repeat split; vm_compute; reflexivity. Qed.

Lemma resolveBlockRange_limits_witness :
  fst (resolveBlockRange (oracle 9) 1 5 fresh)
  = (0, 0, Some (errBeyondHistoricalLimit 1 9))
  /\ fst (resolveBlockRange (oracle 9) 10 5 fresh)
     = (0, 0, Some (errRequestBeyondHead 10 9)).
Proof.
  split.
  - apply (resolveBlockRange_limits (oracle 9) 1 5 fresh);
      try reflexivity; try discriminate; simpl; lia.
  - apply (resolveBlockRange_limits (oracle 9) 10 5 fresh);
      try reflexivity; try discriminate; simpl; lia.
Defined.

End ResolveScenarios.

(** ** Validation in [FeeHistory] *)

Lemma last_of_snoc pre p : last_of (pre ++ [p]) = Some p.
Proof.
  unfold last_of. rewrite length_app. simpl.
  replace (length pre + 1 - 1)%nat with (length pre) by lia.
  rewrite nth_error_app2 by lia. now rewrite Nat.sub_diag.
Qed.

Lemma check_percentiles_sound ps : forall pre e,
  check_percentiles (length pre) (last_of pre) ps = Some e ->
  names_offence (pre ++ ps) e.
Proof.
  induction ps as [|p rest IH]; intros pre e; simpl; [discriminate|].
  destruct (F64.ltb p F64.zero || F64.ltb F64.hundred p) eqn:Erange.
  - intros [= <-]. simpl. split; [apply in_or_app; right; now left|].
    apply orb_true_iff in Erange. exact Erange.
  - assert (Hstep : check_percentiles (S (length pre)) (Some p) rest = Some e
                    -> names_offence (pre ++ p :: rest) e).
    { intros Hc. specialize (IH (pre ++ [p]) e).
      rewrite length_app, last_of_snoc, <- app_assoc in IH. simpl in IH.
      replace (length pre + 1)%nat with (S (length pre)) in IH by lia.
      now apply IH. }
    destruct (last_of pre) as [q|] eqn:Elast; [|exact Hstep].
    destruct (F64.ltb p q) eqn:Eorder; [|exact Hstep].
    intros [= <-]. simpl.
    assert (Hpre : (0 < length pre)%nat).
    { destruct pre; [discriminate|simpl; lia]. }
    split; [lia|]. split.
    + rewrite nth_error_app1 by lia. exact Elast.
    + split; [|exact Eorder].
      rewrite nth_error_app2 by lia. now rewrite Nat.sub_diag.
Qed.

Lemma check_percentiles_complete ps : forall i prev k p,
  nth_error ps k = Some p ->
  F64.ltb p F64.zero = true \/ F64.ltb F64.hundred p = true
  \/ (exists q, match k with
                | O => prev = Some q
                | S k' => nth_error ps k' = Some q
                end /\ F64.ltb p q = true) ->
  exists e, check_percentiles i prev ps = Some e.
Proof.
  induction ps as [|a rest IH]; intros i prev k p Hk Hbad;
    [destruct k; discriminate|].
  simpl.
  destruct (F64.ltb a F64.zero || F64.ltb F64.hundred a) eqn:Erange;
    [eauto|].
  apply orb_false_iff in Erange as [Ezero Ehundred].
  destruct k as [|k].
  - injection Hk as ->.
    destruct Hbad as [Hbad|[Hbad|[q [-> Hbad]]]]; try congruence.
    rewrite Hbad. eauto.
  - assert (Hrec : exists e,
               check_percentiles (S i) (Some a) rest = Some e).
    { apply (IH (S i) (Some a) k p Hk).
      destruct Hbad as [Hbad|[Hbad|[q [Hq Hbad]]]]; auto.
      right; right. exists q. split; [|exact Hbad].
      destruct k; simpl in Hq; [congruence|exact Hq]. }
    destruct prev as [q|]; [|exact Hrec].
    destruct (F64.ltb a q); [eauto|exact Hrec].
Qed.

Section ValidationClaims.
Context `{Platform} `{GoSort} `{RpcDecls} `{HistoryCache}.

(** C6.  A call for fewer than one block returns no data and no error,
    having called neither the backend nor the cache. *)
Theorem FeeHistory_no_blocks oracle blocks unresolvedLastBlock
    rewardPercentiles schedule st :
  blocks < 1 ->
  FeeHistory oracle blocks unresolvedLastBlock rewardPercentiles schedule st
  = (Returned (no_data None), st).
Proof.
  intros Hblocks. unfold FeeHistory.
  destruct (Z.ltb_spec blocks 1); [reflexivity|lia].
Qed.

(** C5 (as amended).  A call for at least one block whose percentiles hold
    an entry outside [0, 100], or an entry smaller than its predecessor,
    fails with [errInvalidPercentile] naming such an entry or pair, the
    state untouched: no call to the backend has been made. *)
Theorem FeeHistory_invalid_percentile oracle blocks unresolvedLastBlock
    rewardPercentiles schedule st i :
  1 <= blocks ->
  offends rewardPercentiles i ->
  exists e,
    FeeHistory oracle blocks unresolvedLastBlock rewardPercentiles schedule st
    = (Returned (no_data (Some e)), st)
    /\ isInvalidPercentile e = true
    /\ names_offence rewardPercentiles e.
Proof.
  intros Hblocks [p [Hp Hbad]]. unfold FeeHistory.
  destruct (Z.ltb_spec blocks 1); [lia|].
  destruct (check_percentiles_complete rewardPercentiles 0 None i p Hp)
    as [e He].
  { destruct Hbad as [Hbad|[Hbad|[j [q [-> [Hq Hbad]]]]]]; eauto. }
  rewrite He. exists e. split; [reflexivity|].
  pose proof (check_percentiles_sound rewardPercentiles [] e He) as Hname.
  simpl in Hname. split; [|exact Hname].
  destruct e; simpl in *; tauto.
Qed.

End ValidationClaims.

Section ValidationScenarios.
Import Sample.

Lemma FeeHistory_no_blocks_witness :
  0 < 1
  /\ FeeHistory (oracle 9) 0 9 [] round_robin fresh
     = (Returned (no_data None), fresh).
Proof.
  split; [lia|].
  apply (FeeHistory_no_blocks (oracle 9) 0 9 [] round_robin fresh). lia.
Defined.

(** C5, as stated for every call, fails: a call for no blocks returns its
    empty success before the percentiles are looked at. *)
Lemma FeeHistory_no_blocks_skips_validation :
  offends [F64.of_uint64 200] 0
  /\ FeeHistory (oracle 9) 0 9 [F64.of_uint64 200] round_robin fresh
     = (Returned (no_data None), fresh).
Proof.
  split; [|reflexivity].
  exists (F64.of_uint64 200). split; [reflexivity|].
  right; left. reflexivity.
Qed.

Lemma offends_descending :
  offends [F64.of_uint64 50; F64.of_uint64 20] 1.
Proof.
  exists (F64.of_uint64 20). split; [reflexivity|].
  right; right. exists 0%nat, (F64.of_uint64 50).
  split; [reflexivity|]. split; reflexivity.
Defined.

Lemma FeeHistory_invalid_percentile_witness :
  1 <= 5
  /\ offends [F64.of_uint64 50; F64.of_uint64 20] 1
  /\ exists e,
       FeeHistory (oracle 9) 5 9 [F64.of_uint64 50; F64.of_uint64 20]
         round_robin fresh
       = (Returned (no_data (Some e)), fresh)
       /\ isInvalidPercentile e = true
       /\ names_offence [F64.of_uint64 50; F64.of_uint64 20] e.
Proof.
  split; [lia|]. split; [exact offends_descending|].
  apply (FeeHistory_invalid_percentile (oracle 9) 5 9
           [F64.of_uint64 50; F64.of_uint64 20] round_robin fresh 1%nat);
    [lia|exact offends_descending].
Defined.

End ValidationScenarios.

(** ** The fetcher pool *)

Lemma set_nth_length {A} i (x : A) l : length (set_nth i x l) = length l.
Proof.
  revert i. induction l as [|y l IH]; intros [|i]; simpl; auto.
Qed.

Lemma set_nth_same {A} i (x : A) l :
  (i < length l)%nat -> nth_error (set_nth i x l) i = Some x.
Proof.
  revert i. induction l as [|y l IH]; intros [|i] Hi; simpl in *;
    try lia; [reflexivity|apply IH; lia].
Qed.

Lemma set_nth_other {A} i j (x : A) l :
  i <> j -> nth_error (set_nth i x l) j = nth_error l j.
Proof.
  revert i j. induction l as [|y l IH]; intros [|i] [|j] Hij; simpl;
    try reflexivity; try congruence.
  apply IH. congruence.
Qed.

Lemma holding_set_nth ws w a b :
  nth_error ws w = Some a ->
  Permutation (holds a ++ holding (set_nth w b ws)) (holds b ++ holding ws).
Proof.
  revert w. induction ws as [|c ws IH]; intros [|w] Hw; simpl in *;
    try discriminate.
  - injection Hw as ->. unfold holding. simpl.
    apply Permutation_app_swap_app.
  - unfold holding in *. simpl.
    etransitivity; [apply Permutation_app_swap_app|].
    etransitivity; [|apply Permutation_app_swap_app].
    apply Permutation_app_head. now apply IH.
Qed.

Lemma exited_count_set_nth ws w a b :
  nth_error ws w = Some a ->
  (exited_count (set_nth w b ws) + (if is_exited a then 1 else 0)
   = exited_count ws + (if is_exited b then 1 else 0))%nat.
Proof.
  unfold exited_count.
  revert w. induction ws as [|c ws IH]; intros [|w] Hw; simpl in *;
    try discriminate.
  - injection Hw as ->. destruct a, b; simpl; lia.
  - specialize (IH w Hw). destruct (is_exited c); simpl; lia.
Qed.

Lemma exited_count_le ws : (exited_count ws <= length ws)%nat.
Proof. apply filter_length_le. Qed.

Lemma percentile_loop_length `{Platform} sb ps idx sum :
  length (percentile_loop sb ps idx sum) = length ps.
Proof.
  revert idx sum. induction ps as [|p ps IH]; intros idx sum; simpl;
    [reflexivity|].
  destruct (advance _ _ _ idx sum) as [k s]. simpl. now rewrite IH.
Qed.

Lemma processPercentiles_shape `{Platform} sb ps :
  pf_baseFee (processPercentiles sb ps) = Some (BaseFee sb)
  /\ length (pf_reward (processPercentiles sb ps)) = length ps.
Proof.
  unfold processPercentiles. destruct ps as [|p ps]; [now split|].
  destruct (Txs sb) as [|tx0 txs]; cbn [pf_baseFee pf_reward].
  - split; [reflexivity|apply length_map].
  - split; [reflexivity|apply percentile_loop_length].
Qed.

Lemma pair_up_enough baseFee txs receipts :
  (length txs <= length receipts)%nat ->
  exists sorter, pair_up baseFee txs receipts = Some sorter.
Proof.
  revert receipts. induction txs as [|tx txs IH]; intros receipts Hlen;
    simpl; [eauto|].
  destruct receipts as [|r receipts]; [simpl in Hlen; lia|].
  destruct (IH receipts) as [rest ->]; [simpl in Hlen; lia|]. eauto.
Qed.

Section PoolFacts.
Context `{Platform} `{GoSort} `{RpcDecls} `{HistoryCache}.
Variables (oracle : Oracle) (rewardPercentiles : list float64).
Variables (oldestBlock lastBlock : Z).
Hypothesis oldest_nonneg : 0 <= oldestBlock.
Hypothesis last_bounded : lastBlock + 6 < 2 ^ 64.

Lemma fetch_sent blockNumber0 st m continue st' :
  fetch oracle rewardPercentiles blockNumber0 st = (Sent m continue, st') ->
  blockNumber m = blockNumber0
  /\ (is_missing m ->
      BlockByNumber (backend oracle) blockNumber0 = (None, None))
  /\ (continue = true -> good rewardPercentiles m).
Proof.
  unfold fetch, bind, ret, historyCache_Get, historyCache_Add, called.
  destruct (cache_Get (historyCache st) blockNumber0) as [[sb|] c].
  - intros [= <- <- <-]. cbn.
    destruct (processPercentiles_shape sb rewardPercentiles) as [Hb Hl].
    split; [reflexivity|]. split.
    + intros [_ Hnone]. cbn in Hnone. congruence.
    + intros _. split; [reflexivity|]. split; [eauto|exact Hl].
  - cbn.
    destruct (BlockByNumber (backend oracle) blockNumber0)
      as [[block|] [e|]] eqn:Eblock; cbn.
    + intros [= <- <- <-]. cbn. split; [reflexivity|].
      split; [intros [Herr _]; discriminate|discriminate].
    + destruct (GetReceipts (backend oracle) (Hash block))
        as [receipts [e|]]; cbn.
      * intros [= <- <- <-]. cbn. split; [reflexivity|].
        split; [intros [Herr _]; discriminate|discriminate].
      * destruct (processBlock block receipts) as [sb|]; cbn;
          [|discriminate].
        intros [= <- <- <-]. cbn.
        destruct (processPercentiles_shape sb rewardPercentiles) as [Hb Hl].
        split; [reflexivity|]. split.
        -- intros [_ Hnone]. cbn in Hnone. congruence.
        -- intros _. split; [reflexivity|]. split; [eauto|exact Hl].
    + intros [= <- <- <-]. cbn. split; [reflexivity|].
      split; [intros [Herr _]; discriminate|discriminate].
    + intros [= <- <- <-]. cbn. split; [reflexivity|].
      split; [reflexivity|discriminate].
Qed.

Lemma fetch_served lo hi blockNumber0 st :
  serves (backend oracle) lo hi -> lo <= blockNumber0 <= hi ->
  exists m st',
    fetch oracle rewardPercentiles blockNumber0 st = (Sent m true, st').
Proof.
  intros Hserves Hn.
  destruct (Hserves blockNumber0 Hn) as [block [receipts [Hb [Hr Hlen]]]].
  unfold fetch, bind, ret, historyCache_Get, historyCache_Add, called.
  destruct (cache_Get (historyCache st) blockNumber0) as [[sb|] c];
    [eauto|].
  cbn. rewrite Hb. cbn. rewrite Hr. cbn.
  unfold processBlock.
  destruct (pair_up_enough
              (match block_BaseFee block with Some b => b | None => 0 end)
              (Transactions block) receipts Hlen) as [sorter ->].
  cbn. eauto.
Qed.

Lemma pool_inv_perm p p' :
  pool_inv oldestBlock lastBlock p ->
  next p' = next p ->
  Permutation (claimed p') (claimed p) ->
  (exited_count (workers p) <= exited_count (workers p'))%nat ->
  length (workers p') = length (workers p) ->
  pool_inv oldestBlock lastBlock p'.
Proof.
  intros [Hlo Hhi Hw Hnd Hcl] Hnext Hperm Hex Hlen.
  constructor; rewrite ?Hnext, ?Hlen; try assumption; try lia.
  - eapply Permutation_NoDup; [symmetry; exact Hperm|exact Hnd].
  - intros n. rewrite <- Hcl. split; apply Permutation_in;
      [exact Hperm|symmetry; exact Hperm].
Qed.

Lemma worker_step_inv w p st p' st' :
  pool_inv oldestBlock lastBlock p ->
  worker_step oracle rewardPercentiles lastBlock w p st = (Some p', st') ->
  pool_inv oldestBlock lastBlock p'.
Proof.
  intros Hinv. pose proof Hinv as [Hlo Hhi Hw Hnd Hcl].
  unfold worker_step.
  destruct (nth_error (workers p) w) as [[|n|]|] eqn:Ew;
    unfold bind, ret; try (intros [= <- <-]; exact Hinv).
  - (* claim *)
    pose proof (exited_count_le (workers p)) as Hexle.
    assert (Hnext : wrap_u64 (next p + 1) = next p + 1)
      by (apply wrap_u64_spec; lia).
    assert (Hnum : wrap_u64 (wrap_u64 (next p + 1) - 1) = next p)
      by (rewrite Hnext; replace (next p + 1 - 1) with (next p) by lia;
          apply wrap_u64_spec; lia).
    rewrite Hnum, Hnext.
    intros [= <- <-].
    destruct (Z.ltb_spec lastBlock (next p)) as [Hpast|Hin].
    + pose proof (exited_count_set_nth (workers p) w Ready Exited Ew) as Hc.
      pose proof (holding_set_nth (workers p) w Ready Exited Ew) as Hp.
      simpl in Hc, Hp.
      constructor; cbn [next workers sent];
        rewrite ?set_nth_length; try lia; try assumption.
      * unfold claimed in *. cbn [workers sent].
        eapply Permutation_NoDup; [|exact Hnd].
        apply Permutation_app_head. symmetry. exact Hp.
      * intros n. unfold claimed in *. cbn [workers sent].
        replace (Z.min (next p + 1) (lastBlock + 1))
          with (Z.min (next p) (lastBlock + 1)) by lia.
        rewrite <- Hcl. rewrite !in_app_iff.
        split; (intros [Hs|Hh]; [now left|right]);
          eapply Permutation_in; try exact Hh;
          [exact Hp|symmetry; exact Hp].
    + pose proof (exited_count_set_nth (workers p) w Ready
                    (Fetching (next p)) Ew) as Hc.
      pose proof (holding_set_nth (workers p) w Ready (Fetching (next p)) Ew)
        as Hp.
      simpl in Hc, Hp.
      assert (Hperm : Permutation
                (map blockNumber (sent p)
                 ++ holding (set_nth w (Fetching (next p)) (workers p)))
                (next p :: claimed p)).
      { unfold claimed. etransitivity;
          [apply Permutation_app_head; exact Hp|].
        symmetry. apply Permutation_middle. }
      constructor; cbn [next workers sent];
        rewrite ?set_nth_length; try lia; try assumption.
      * unfold claimed at 1. cbn [workers sent].
        eapply Permutation_NoDup; [symmetry; exact Hperm|].
        constructor; [|exact Hnd].
        intros Hin'. apply Hcl in Hin'. lia.
      * intros n. unfold claimed at 1. cbn [workers sent]. split.
        -- intros Hn. apply (Permutation_in _ Hperm) in Hn.
           destruct Hn as [<-|Hn]; [lia|]. apply Hcl in Hn. lia.
        -- intros Hn. apply (Permutation_in _ (Permutation_sym Hperm)).
           destruct (Z.eq_dec n (next p)) as [->|Hne]; [now left|].
           right. apply Hcl. lia.
  - (* fetch and send *)
    destruct (fetch oracle rewardPercentiles n st) as [[m c|] st1] eqn:Ef;
      [|discriminate].
    intros [= <- <-].
    destruct (fetch_sent _ _ _ _ _ Ef) as [Hnum _].
    set (b := if c then Ready else Exited).
    pose proof (exited_count_set_nth (workers p) w (Fetching n) b Ew) as Hc.
    pose proof (holding_set_nth (workers p) w (Fetching n) b Ew) as Hp.
    assert (Hb : holds b = []) by (unfold b; now destruct c).
    rewrite Hb in Hp. simpl in Hc, Hp.
    apply (pool_inv_perm p); cbn [next workers sent]; try assumption;
      try reflexivity; try lia; [|apply set_nth_length].
    unfold claimed. cbn [workers sent].
    rewrite map_app, <- app_assoc. simpl. rewrite Hnum.
    apply Permutation_app_head. exact Hp.
Qed.

Lemma run_workers_inv schedule : forall p st p' st',
  pool_inv oldestBlock lastBlock p ->
  run_workers oracle rewardPercentiles lastBlock schedule p st
  = (Some p', st') ->
  pool_inv oldestBlock lastBlock p'.
Proof.
  induction schedule as [|w rest IH]; intros p st p' st' Hinv; simpl.
  - unfold ret. now intros [= <- <-].
  - unfold bind.
    destruct (worker_step oracle rewardPercentiles lastBlock w p st)
      as [[p1|] st1] eqn:Estep; [|discriminate].
    apply IH. eapply worker_step_inv; eassumption.
Qed.

End PoolFacts.

Section PoolMessages.
Context `{Platform} `{GoSort} `{RpcDecls} `{HistoryCache}.
Variables (oracle : Oracle) (rewardPercentiles : list float64).
Variables (oldestBlock lastBlock : Z).
Hypothesis oldest_nonneg : 0 <= oldestBlock.
Hypothesis last_bounded : lastBlock + 6 < 2 ^ 64.

Lemma worker_step_reported w p st p' st' :
  Forall (missing_reported (backend oracle)) (sent p) ->
  worker_step oracle rewardPercentiles lastBlock w p st = (Some p', st') ->
  Forall (missing_reported (backend oracle)) (sent p').
Proof.
  intros Hsent. unfold worker_step.
  destruct (nth_error (workers p) w) as [[|n|]|] eqn:Ew;
    unfold bind, ret; try (intros [= <- <-]; exact Hsent).
  destruct (fetch oracle rewardPercentiles n st) as [[m c|] st1] eqn:Ef;
    [|discriminate].
  intros [= <- <-]. cbn [sent].
  destruct (fetch_sent _ _ _ _ _ _ _ Ef) as [Hnum [Hmiss _]].
  apply Forall_app. split; [exact Hsent|].
  constructor; [|constructor].
  intros Hm. rewrite Hnum. now apply Hmiss.
Qed.

Lemma run_workers_reported schedule : forall p st p' st',
  Forall (missing_reported (backend oracle)) (sent p) ->
  run_workers oracle rewardPercentiles lastBlock schedule p st
  = (Some p', st') ->
  Forall (missing_reported (backend oracle)) (sent p').
Proof.
  induction schedule as [|w rest IH]; intros p st p' st' Hsent; simpl.
  - unfold ret. now intros [= <- <-].
  - unfold bind.
    destruct (worker_step oracle rewardPercentiles lastBlock w p st)
      as [[p1|] st1] eqn:Estep; [|discriminate].
    apply IH. eapply worker_step_reported; eassumption.
Qed.

(** *** When the backend serves the whole range *)

Hypothesis served : serves (backend oracle) oldestBlock lastBlock.

Lemma in_set_nth {A} i (x y : A) l :
  In y (set_nth i x l) -> y = x \/ In y l.
Proof.
  revert i. induction l as [|z l IH]; intros [|i]; simpl; auto.
  - intros [<-|Hin]; auto.
  - intros [<-|Hin]; auto. destruct (IH i Hin); auto.
Qed.

Lemma holding_in ws w n :
  nth_error ws w = Some (Fetching n) -> In n (holding ws).
Proof.
  intros Hw. unfold holding. apply in_flat_map.
  exists (Fetching n). split; [eapply nth_error_In; eassumption|now left].
Qed.

Lemma worker_step_served w p st :
  pool_inv oldestBlock lastBlock p -> pool_served rewardPercentiles lastBlock p ->
  exists p' st',
    worker_step oracle rewardPercentiles lastBlock w p st = (Some p', st')
    /\ pool_served rewardPercentiles lastBlock p'
    /\ (turns_left lastBlock p' w <= turns_left lastBlock p w - 1)%nat
    /\ (forall v, v <> w ->
          (turns_left lastBlock p' v <= turns_left lastBlock p v)%nat).
Proof.
  intros Hinv [Hgood Hexit]. pose proof Hinv as [Hlo Hhi Hw Hnd Hcl].
  unfold worker_step, turns_left.
  destruct (nth_error (workers p) w) as [[|n|]|] eqn:Ew; unfold bind, ret.
  - (* claim *)
    pose proof (exited_count_le (workers p)) as Hexle.
    assert (Hnext : wrap_u64 (next p + 1) = next p + 1)
      by (apply wrap_u64_spec; lia).
    assert (Hnum : wrap_u64 (wrap_u64 (next p + 1) - 1) = next p)
      by (rewrite Hnext; replace (next p + 1 - 1) with (next p) by lia;
          apply wrap_u64_spec; lia).
    rewrite Hnum, Hnext.
    assert (Hlt : (w < length (workers p))%nat)
      by (apply nth_error_Some; congruence).
    eexists _, _. split; [reflexivity|].
    unfold pool_served. cbn [next workers sent].
    split; [|split].
    + split; [exact Hgood|].
      intros Hin. apply in_set_nth in Hin.
      destruct (Z.ltb_spec lastBlock (next p)); [lia|].
      destruct Hin as [Hin|Hin]; [discriminate|].
      specialize (Hexit Hin). lia.
    + rewrite set_nth_same by exact Hlt.
      destruct (Z.ltb_spec lastBlock (next p)); lia.
    + intros v Hv. rewrite set_nth_other by congruence.
      destruct (nth_error (workers p) v) as [[|n|]|]; lia.
  - (* fetch and send *)
    assert (Hn : oldestBlock <= n <= lastBlock).
    { assert (Hin : In n (claimed p))
        by (unfold claimed; apply in_or_app; right;
            eapply holding_in; eassumption).
      apply Hcl in Hin. lia. }
    destruct (fetch_served oracle rewardPercentiles _ _ n st served Hn)
      as [m [st1 Ef]].
    rewrite Ef.
    destruct (fetch_sent _ _ _ _ _ _ _ Ef) as [_ [_ Hg]].
    assert (Hlt : (w < length (workers p))%nat)
      by (apply nth_error_Some; congruence).
    eexists _, _. split; [reflexivity|].
    unfold pool_served. cbn [next workers sent].
    split; [|split].
    + split.
      * apply Forall_app. split; [exact Hgood|].
        constructor; [now apply Hg|constructor].
      * intros Hin. apply in_set_nth in Hin.
        destruct Hin as [Hin|Hin]; [discriminate|now apply Hexit].
    + rewrite set_nth_same by exact Hlt. lia.
    + intros v Hv. rewrite set_nth_other by congruence.
      destruct (nth_error (workers p) v) as [[|k|]|]; lia.
  - eexists _, _. split; [reflexivity|].
    split; [now split|]. rewrite Ew. split; [lia|intros; lia].
  - eexists _, _. split; [reflexivity|].
    split; [now split|]. rewrite Ew. split; [lia|intros; lia].
Qed.

Lemma run_workers_served schedule : forall p st,
  pool_inv oldestBlock lastBlock p -> pool_served rewardPercentiles lastBlock p ->
  exists p' st',
    run_workers oracle rewardPercentiles lastBlock schedule p st
    = (Some p', st')
    /\ pool_inv oldestBlock lastBlock p'
    /\ pool_served rewardPercentiles lastBlock p'
    /\ length (workers p') = length (workers p)
    /\ (forall v,
          (turns_left lastBlock p' v
           <= turns_left lastBlock p v - count_occ Nat.eq_dec schedule v)%nat).
Proof.
  induction schedule as [|w rest IH]; intros p st Hinv Hserved; simpl.
  - exists p, st. unfold ret. split; [reflexivity|]. split; [exact Hinv|].
    split; [exact Hserved|]. split; [reflexivity|]. intros v; lia.
  - unfold bind.
    destruct (worker_step_served w p st Hinv Hserved)
      as [p1 [st1 [Estep [Hserved1 [Hself Hother]]]]].
    rewrite Estep.
    assert (Hinv1 : pool_inv oldestBlock lastBlock p1)
      by (eapply worker_step_inv; eassumption).
    assert (Hlen1 : length (workers p1) = length (workers p)).
    { revert Estep. unfold worker_step.
      destruct (nth_error (workers p) w) as [[|n|]|]; unfold bind, ret.
      - intros [= <- <-]. cbn. apply set_nth_length.
      - destruct (fetch oracle rewardPercentiles n st) as [[m c|] ?];
          [|discriminate].
        intros [= <- <-]. cbn. apply set_nth_length.
      - now intros [= <- <-].
      - now intros [= <- <-]. }
    destruct (IH p1 st1 Hinv1 Hserved1)
      as [p' [st' [Erun [Hinv' [Hserved' [Hlen' Hturns]]]]]].
    exists p', st'. split; [exact Erun|]. split; [exact Hinv'|].
    split; [exact Hserved'|]. split; [congruence|].
    intros v. specialize (Hturns v).
    destruct (Nat.eq_dec w v) as [->|Hne].
    + lia.
    + specialize (Hother v ltac:(congruence)). lia.
Qed.

End PoolMessages.

(** ** The receiving loop *)

Lemma store_some {A} (l : list A) i x l' :
  store l i x = Some l' ->
  0 <= i < Z.of_nat (length l) /\ l' = set_nth (Z.to_nat i) x l.
Proof.
  unfold store.
  destruct (Z.leb_spec 0 i); destruct (Z.ltb_spec i (Z.of_nat (length l)));
    cbn; try discriminate.
  intros [= <-]. split; [lia|reflexivity].
Qed.

Lemma firstn_In {A} k (l : list A) x : In x (firstn k l) -> In x l.
Proof.
  intros Hin. rewrite <- (firstn_skipn k l). apply in_or_app. now left.
Qed.

Section DrainFacts.
Variables (oldestBlock : Z) (n : nat).
Hypothesis oldest_nonneg : 0 <= oldestBlock.
Hypothesis range_bounded : oldestBlock + Z.of_nat n < 2 ^ 63.

Lemma slot_index m :
  in_range oldestBlock n m ->
  wrap_i64 (wrap_u64 (blockNumber m - oldestBlock))
  = Z.of_nat (slot oldestBlock m)
  /\ (slot oldestBlock m < n)%nat.
Proof.
  intros Hm. unfold in_range in Hm. unfold slot.
  rewrite (proj1 (wrap_u64_spec _)) by lia.
  rewrite (proj1 (wrap_i64_spec _)) by lia.
  split; lia.
Qed.

Lemma slot_injective m m' :
  in_range oldestBlock n m -> in_range oldestBlock n m' ->
  slot oldestBlock m = slot oldestBlock m' -> blockNumber m = blockNumber m'.
Proof. unfold in_range, slot. intros Hm Hm' Heq. lia. Qed.

Lemma drain_spec k : forall chan c d,
  arrays_len n c ->
  0 <= c_firstMissing c <= Z.of_nat n ->
  Forall (in_range oldestBlock n) chan ->
  NoDup (map blockNumber chan) ->
  drain k oldestBlock chan c = Drained d ->
  (k <= length chan)%nat
  /\ arrays_len n d
  /\ 0 <= c_firstMissing d <= c_firstMissing c
  /\ Forall (fun m => err m = None) (firstn k chan)
  /\ (forall m, In m (firstn k chan) -> pf_baseFee (results m) = None ->
        c_firstMissing d <= Z.of_nat (slot oldestBlock m))
  /\ (c_firstMissing d = c_firstMissing c
      \/ exists m, In m (firstn k chan) /\ is_missing m
                   /\ Z.of_nat (slot oldestBlock m) = c_firstMissing d)
  /\ (forall m b, In m (firstn k chan) ->
        pf_baseFee (results m) = Some b ->
        nth_error (c_baseFee d) (slot oldestBlock m) = Some (Some b)
        /\ nth_error (c_reward d) (slot oldestBlock m)
           = Some (pf_reward (results m)))
  /\ (forall i, (forall m, In m (firstn k chan) -> slot oldestBlock m <> i) ->
        nth_error (c_baseFee d) i = nth_error (c_baseFee c) i
        /\ nth_error (c_reward d) i = nth_error (c_reward c) i).
Proof.
  induction k as [|k IH]; intros chan c d Hlen Hfm Hrange Hnd; simpl.
  - intros [= <-]. split; [lia|]. split; [exact Hlen|]. split; [lia|].
    split; [constructor|]. split; [intros m []|]. split; [now left|].
    split; [intros m b []|]. intros i _. now split.
  - destruct chan as [|m chan]; [discriminate|].
    destruct (err m) as [e|] eqn:Eerr; [discriminate|].
    inversion Hrange as [|? ? Hm Hrange']; subst.
    inversion Hnd as [|? ? Hfresh Hnd']; subst.
    destruct (slot_index m Hm) as [Hidx Hslot]. rewrite Hidx.
    assert (Hother : forall m', In m' (firstn k chan) ->
                       slot oldestBlock m' <> slot oldestBlock m).
    { intros m' Hin Heq. apply Hfresh.
      apply firstn_In in Hin.
      rewrite <- (slot_injective m' m); [now apply in_map| |exact Hm|exact Heq].
      rewrite Forall_forall in Hrange'. now apply Hrange'. }
    destruct Hlen as [Hl1 [Hl2 Hl3]].
    destruct (pf_baseFee (results m)) as [b|] eqn:Ebase.
    + destruct (store (c_reward c) _ _) as [reward'|] eqn:E1; [|discriminate].
      destruct (store (c_baseFee c) _ _) as [baseFee'|] eqn:E2;
        [|discriminate].
      destruct (store (c_gasUsedRatio c) _ _) as [ratio'|] eqn:E3;
        [|discriminate].
      apply store_some in E1 as [_ ->], E2 as [_ ->], E3 as [_ ->].
      rewrite Nat2Z.id.
      intros Hd.
      apply IH in Hd; cbn [c_reward c_baseFee c_gasUsedRatio c_firstMissing];
        try assumption;
        [|unfold arrays_len; cbn; rewrite !set_nth_length; auto].
      cbn [c_reward c_baseFee c_gasUsedRatio c_firstMissing] in Hd.
      destruct Hd as [Hk [Hlen' [Hfm' [Herr [Hmiss [Hwit [Hdata Hframe]]]]]]].
      split; [simpl; lia|]. split; [exact Hlen'|]. split; [exact Hfm'|].
      split; [now constructor|].
      split.
      { intros m' [<-|Hin] Hnone; [congruence|now apply Hmiss]. }
      split.
      { destruct Hwit as [Hwit|[m' [Hin Hm']]]; [now left|].
        right. exists m'. split; [now right|exact Hm']. }
      split.
      { intros m' b' [<-|Hin] Hb'; [|now apply Hdata].
        destruct (Hframe (slot oldestBlock m) Hother) as [-> ->].
        rewrite !set_nth_same by lia. split; congruence. }
      intros i Hi.
      destruct (Hframe i) as [-> ->]; [intros m' Hin; apply Hi; now right|].
      assert (slot oldestBlock m <> i) by (apply Hi; now left).
      now rewrite !set_nth_other by assumption.
    + intros Hd.
      apply IH in Hd; cbn [c_reward c_baseFee c_gasUsedRatio c_firstMissing];
        try assumption;
        [|now unfold arrays_len
         |destruct (Z.ltb_spec (Z.of_nat (slot oldestBlock m))
                     (c_firstMissing c)); lia].
      cbn [c_reward c_baseFee c_gasUsedRatio c_firstMissing] in Hd.
      destruct Hd as [Hk [Hlen' [Hfm' [Herr [Hmiss [Hwit [Hdata Hframe]]]]]]].
      split; [simpl; lia|]. split; [exact Hlen'|].
      split.
      { destruct (Z.ltb_spec (Z.of_nat (slot oldestBlock m))
                    (c_firstMissing c)); lia. }
      split; [now constructor|].
      split.
      { intros m' [<-|Hin] Hnone; [|now apply Hmiss].
        destruct (Z.ltb_spec (Z.of_nat (slot oldestBlock m))
                    (c_firstMissing c)); lia. }
      split.
      { destruct Hwit as [Hwit|[m' [Hin Hm']]].
        - destruct (Z.ltb_spec (Z.of_nat (slot oldestBlock m))
                      (c_firstMissing c)); [|now left].
          right. exists m. split; [now left|]. split; [now split|lia].
        - right. exists m'. split; [now right|exact Hm']. }
      split.
      { intros m' b' [<-|Hin] Hb'; [congruence|now apply Hdata]. }
      intros i Hi. apply Hframe. intros m' Hin. apply Hi. now right.
Qed.

End DrainFacts.

(** ** From the resolved range to the response *)

Lemma block_range_in oldestBlock n x :
  In x (block_range oldestBlock n)
  <-> oldestBlock <= x < oldestBlock + Z.of_nat n.
Proof.
  unfold block_range. rewrite in_map_iff. split.
  - intros [i [<- Hi]]. apply in_seq in Hi. lia.
  - intros Hx. exists (Z.to_nat (x - oldestBlock)).
    split; [lia|]. apply in_seq. lia.
Qed.

Lemma block_range_nodup oldestBlock n : NoDup (block_range oldestBlock n).
Proof.
  unfold block_range. apply Finite.Injective_map_NoDup; [|apply seq_NoDup].
  intros i j Hij. lia.
Qed.

Lemma block_range_length oldestBlock n :
  length (block_range oldestBlock n) = n.
Proof. unfold block_range. now rewrite length_map, length_seq. Qed.

(** Distinct numbers of a range: no more than the range holds, and all of
    it once they are as many. *)
Lemma range_filled oldestBlock n l :
  NoDup l ->
  (forall x, In x l -> oldestBlock <= x < oldestBlock + Z.of_nat n) ->
  (length l <= n)%nat
  /\ ((n <= length l)%nat ->
      forall x, oldestBlock <= x < oldestBlock + Z.of_nat n -> In x l).
Proof.
  intros Hnd Hin.
  assert (Hincl : incl l (block_range oldestBlock n))
    by (intros x Hx; apply block_range_in; now apply Hin).
  split.
  - rewrite <- (block_range_length oldestBlock n).
    now apply NoDup_incl_length.
  - intros Hlen x Hx.
    assert (Hback : incl (block_range oldestBlock n) l).
    { apply NoDup_length_incl; [exact Hnd| |exact Hincl].
      now rewrite block_range_length. }
    apply Hback. now apply block_range_in.
Qed.

Lemma holding_ready k : holding (repeat Ready k) = [].
Proof. induction k; [reflexivity|exact IHk]. Qed.

Lemma exited_count_ready k : exited_count (repeat Ready k) = 0%nat.
Proof. induction k; [reflexivity|exact IHk]. Qed.

Lemma start_pool_inv oldestBlock lastBlock blocks :
  0 < blocks -> oldestBlock = lastBlock + 1 - blocks ->
  pool_inv oldestBlock lastBlock (start_pool oldestBlock blocks).
Proof.
  intros Hblocks Hold. unfold start_pool.
  constructor; cbn [next workers sent]; unfold claimed; cbn [workers sent];
    rewrite ?holding_ready, ?exited_count_ready, ?repeat_length.
  - lia.
  - lia.
  - unfold maxBlockFetchers. lia.
  - constructor.
  - intros n. simpl. lia.
Qed.

Lemma drain_total rewardPercentiles oldestBlock n k : forall chan c,
  0 <= oldestBlock -> oldestBlock + Z.of_nat n < 2 ^ 63 ->
  Forall (good rewardPercentiles) chan ->
  Forall (in_range oldestBlock n) chan ->
  (k <= length chan)%nat ->
  arrays_len n c ->
  exists d, drain k oldestBlock chan c = Drained d
            /\ c_firstMissing d = c_firstMissing c.
Proof.
  induction k as [|k IH]; intros chan c Hold Hbound Hgood Hrange Hk Hlen;
    simpl; [eauto|].
  destruct chan as [|m chan]; [simpl in Hk; lia|].
  inversion Hgood as [|? ? [Herr [[b Hb] _]] Hgood']; subst.
  inversion Hrange as [|? ? Hm Hrange']; subst.
  rewrite Herr, Hb.
  destruct (slot_index oldestBlock n Hold Hbound m Hm) as [-> Hslot].
  destruct Hlen as [Hl1 [Hl2 Hl3]].
  unfold store. rewrite Hl1, Hl2, Hl3.
  destruct (Z.leb_spec 0 (Z.of_nat (slot oldestBlock m))); [|lia].
  destruct (Z.ltb_spec (Z.of_nat (slot oldestBlock m)) (Z.of_nat n)); [|lia].
  cbn [andb].
  destruct (IH chan
              (mkCollected
                 (set_nth (Z.to_nat (Z.of_nat (slot oldestBlock m)))
                    (pf_reward (results m)) (c_reward c))
                 (set_nth (Z.to_nat (Z.of_nat (slot oldestBlock m)))
                    (Some b) (c_baseFee c))
                 (set_nth (Z.to_nat (Z.of_nat (slot oldestBlock m)))
                    (pf_gasUsedRatio (results m)) (c_gasUsedRatio c))
                 (c_firstMissing c)))
    as [d [Hd Hfm]]; try assumption.
  - simpl in Hk. lia.
  - unfold arrays_len. cbn. now rewrite !set_nth_length.
  - exists d. split; [exact Hd|exact Hfm].
Qed.

Section FetchRange.
Context `{Platform} `{GoSort} `{RpcDecls} `{HistoryCache}.
Variables (oracle : Oracle) (rewardPercentiles : list float64).
Variables (lastBlock blocks : Z).
Hypothesis blocks_fit : 0 < blocks <= lastBlock + 1.
Hypothesis last_bounded : lastBlock + 6 < 2 ^ 63.

Lemma oldestBlock_exact :
  wrap_u64 (lastBlock + 1 - wrap_u64 blocks) = lastBlock + 1 - blocks.
Proof. name_wraps. lia. Qed.

Lemma sent_in_range p :
  pool_inv (lastBlock + 1 - blocks) lastBlock p ->
  NoDup (map blockNumber (sent p))
  /\ Forall (in_range (lastBlock + 1 - blocks) (Z.to_nat blocks)) (sent p).
Proof.
  intros [_ _ _ Hnd Hcl]. split.
  - unfold claimed in Hnd. eapply NoDup_app_remove_r. exact Hnd.
  - apply Forall_forall. intros m Hm. unfold in_range.
    assert (Hin : In (blockNumber m) (claimed p))
      by (unfold claimed; apply in_or_app; left; now apply in_map).
    apply Hcl in Hin. lia.
Qed.

Lemma fetch_range_truncates schedule st r st' :
  fetch_range oracle rewardPercentiles lastBlock blocks schedule st
  = (Returned r, st') ->
  fh_err r = None ->
  exists firstMissing : nat,
    (firstMissing <= Z.to_nat blocks)%nat
    /\ length (fh_baseFee r) = firstMissing
    /\ length (fh_gasUsedRatio r) = firstMissing
    /\ length (fh_reward r)
       = match rewardPercentiles with [] => 0%nat | _ :: _ => firstMissing end
    /\ (forall i, (i < firstMissing)%nat ->
          exists b, nth_error (fh_baseFee r) i = Some (Some b))
    /\ (firstMissing = 0%nat -> r = no_data None)
    /\ ((0 < firstMissing)%nat -> fh_oldestBlock r = lastBlock + 1 - blocks)
    /\ ((firstMissing < Z.to_nat blocks)%nat ->
        BlockByNumber (backend oracle)
          (lastBlock + 1 - blocks + Z.of_nat firstMissing) = (None, None)).
Proof.
  unfold fetch_range. rewrite oldestBlock_exact.
  set (oldestBlock := lastBlock + 1 - blocks).
  set (n := Z.to_nat blocks).
  destruct (Z.ltb_spec blocks 0); [lia|].
  unfold bind.
  destruct (run_workers oracle rewardPercentiles lastBlock schedule
              (start_pool oldestBlock blocks) st) as [[p|] st1] eqn:Erun;
    [|discriminate].
  assert (Hinv : pool_inv oldestBlock lastBlock p).
  { eapply (run_workers_inv oracle rewardPercentiles oldestBlock lastBlock);
      [unfold oldestBlock; lia|lia| |exact Erun].
    apply start_pool_inv; [lia|reflexivity]. }
  assert (Hrep : Forall (missing_reported (backend oracle)) (sent p)).
  { eapply run_workers_reported; [|exact Erun]. constructor. }
  destruct (sent_in_range p Hinv) as [Hnd Hrange].
  fold oldestBlock n in Hrange.
  destruct (drain n oldestBlock (sent p) _) as [d|e| |] eqn:Edrain;
    unfold ret; try discriminate.
  2:{ intros [= <- <-]. discriminate. }
  apply (drain_spec oldestBlock n) in Edrain;
    [|unfold oldestBlock; lia|unfold oldestBlock, n; lia
     |unfold arrays_len; cbn; now rewrite !repeat_length
     |cbn; unfold n; lia|exact Hrange|exact Hnd].
  cbn [c_firstMissing c_baseFee c_reward] in Edrain.
  destruct Edrain
    as [Hk [[Hl1 [Hl2 Hl3]] [Hfm [Herr [Hmiss [Hwit [Hdata _]]]]]]].
  (* the channel holds the whole range *)
  destruct (range_filled oldestBlock n (map blockNumber (sent p)) Hnd)
    as [Hle Hall].
  { intros x Hx. apply in_map_iff in Hx as [m [<- Hm]].
    rewrite Forall_forall in Hrange. now apply Hrange. }
  rewrite length_map in Hle, Hall. specialize (Hall Hk).
  rewrite firstn_all2 in Herr, Hmiss, Hwit, Hdata by exact Hle.
  assert (Hreported : c_firstMissing d < blocks ->
            BlockByNumber (backend oracle) (oldestBlock + c_firstMissing d)
            = (None, None)).
  { intros Hlt. destruct Hwit as [Hwit|[m [Hm [Hmis Hslot]]]]; [lia|].
    rewrite Forall_forall in Hrep, Hrange.
    specialize (Hrep m Hm Hmis). specialize (Hrange m Hm).
    unfold in_range in Hrange. unfold slot in Hslot.
    replace (oldestBlock + c_firstMissing d) with (blockNumber m) by lia.
    exact Hrep. }
  destruct (Z.eqb_spec (c_firstMissing d) 0) as [Hzero|Hnz].
  - intros [= <- <-] _. exists 0%nat. cbn.
    split; [lia|]. split; [reflexivity|]. split; [reflexivity|].
    split; [now destruct rewardPercentiles|].
    split; [intros i Hi; lia|]. split; [reflexivity|].
    split; [lia|]. intros _.
    rewrite Z.add_0_r. rewrite <- (Z.add_0_r oldestBlock), <- Hzero.
    apply Hreported. lia.
  - intros [= <- <-] _. exists (Z.to_nat (c_firstMissing d)).
    cbn [fh_baseFee fh_gasUsedRatio fh_reward fh_oldestBlock].
    split; [unfold n; lia|].
    split; [rewrite length_firstn; unfold n in *; lia|].
    split; [rewrite length_firstn; unfold n in *; lia|].
    split.
    { destruct rewardPercentiles; [reflexivity|].
      rewrite length_firstn; unfold n in *; lia. }
    split.
    { intros i Hi.
      destruct (proj1 (in_map_iff _ _ _)
                  (Hall (oldestBlock + Z.of_nat i) ltac:(unfold n; lia)))
        as [m [Hnum Hm]].
      assert (Hslot : slot oldestBlock m = i) by (unfold slot; lia).
      destruct (pf_baseFee (results m)) as [b|] eqn:Ebase.
      - exists b. destruct (Hdata m b Hm Ebase) as [Hb _].
        rewrite nth_error_firstn.
        destruct (Nat.ltb_spec i (Z.to_nat (c_firstMissing d))); [|lia].
        now rewrite <- Hslot.
      - specialize (Hmiss m Hm Ebase). lia. }
    split; [lia|]. split; [reflexivity|].
    intros Hlt. rewrite Z2Nat.id by lia. apply Hreported. unfold n in Hlt. lia.
Qed.

End FetchRange.

Lemma holding_exited ws :
  (forall w, In w ws -> w = Exited) -> holding ws = [].
Proof.
  induction ws as [|w ws IH]; intros Hall; [reflexivity|].
  unfold holding in *. simpl.
  rewrite (Hall w) by now left. simpl. apply IH.
  intros v Hv. apply Hall. now right.
Qed.

Section FetchRangeServed.
Context `{Platform} `{GoSort} `{RpcDecls} `{HistoryCache}.
Variables (oracle : Oracle) (rewardPercentiles : list float64).
Variables (lastBlock blocks : Z).
Hypothesis blocks_fit : 0 < blocks <= lastBlock + 1.
Hypothesis last_bounded : lastBlock + 6 < 2 ^ 63.
Hypothesis served :
  serves (backend oracle) (lastBlock + 1 - blocks) lastBlock.

Lemma fetch_range_served schedule st :
  fair (2 * Z.to_nat blocks + 1) schedule ->
  exists r st',
    fetch_range oracle rewardPercentiles lastBlock blocks schedule st
    = (Returned r, st')
    /\ fh_err r = None
    /\ fh_oldestBlock r = lastBlock + 1 - blocks
    /\ length (fh_baseFee r) = Z.to_nat blocks
    /\ length (fh_gasUsedRatio r) = Z.to_nat blocks
    /\ (rewardPercentiles <> [] ->
        length (fh_reward r) = Z.to_nat blocks
        /\ Forall (fun row => length row = length rewardPercentiles)
             (fh_reward r)).
Proof.
  intros Hfair. unfold fetch_range.
  rewrite (oldestBlock_exact lastBlock blocks blocks_fit last_bounded).
  set (oldestBlock := lastBlock + 1 - blocks) in *.
  set (n := Z.to_nat blocks).
  destruct (Z.ltb_spec blocks 0); [lia|].
  assert (Hold : 0 <= oldestBlock) by (unfold oldestBlock; lia).
  assert (Hstart : pool_inv oldestBlock lastBlock
                     (start_pool oldestBlock blocks))
    by (apply start_pool_inv; [lia|reflexivity]).
  assert (Hstart' : pool_served rewardPercentiles lastBlock
                      (start_pool oldestBlock blocks)).
  { split; [constructor|]. unfold start_pool. cbn.
    intros Hin. apply repeat_spec in Hin. discriminate. }
  destruct (run_workers_served oracle rewardPercentiles oldestBlock lastBlock
              Hold ltac:(lia) served schedule _ st Hstart Hstart')
    as [p [st1 [Erun [Hinv [[Hgood Hexit] [Hlen Hturns]]]]]].
  unfold bind. rewrite Erun.
  (* every goroutine has returned *)
  assert (Hwidth : (0 < length (workers p) <= 4)%nat).
  { rewrite Hlen. unfold start_pool. cbn. rewrite repeat_length.
    unfold maxBlockFetchers. lia. }
  assert (Hdone : forall w, (w < length (workers p))%nat ->
                    nth_error (workers p) w = Some Exited).
  { intros w Hw. specialize (Hturns w). specialize (Hfair w ltac:(lia)).
    assert (Hbudget : (turns_left lastBlock (start_pool oldestBlock blocks) w
                       <= 2 * n + 1)%nat).
    { unfold turns_left, start_pool. cbn [next workers].
      replace (Z.to_nat (lastBlock + 1 - oldestBlock)) with n
        by (unfold n, oldestBlock; lia).
      destruct (nth_error _ w) as [wk|] eqn:Ew; [|lia].
      apply nth_error_In, repeat_spec in Ew. subst wk. lia. }
    assert (Hzero : turns_left lastBlock p w = 0%nat) by (fold n in Hfair; lia).
    unfold turns_left in Hzero.
    destruct (nth_error (workers p) w) as [[| |]|] eqn:Ew; try lia;
      [reflexivity|].
    apply nth_error_None in Ew. lia. }
  assert (Hall : forall w, In w (workers p) -> w = Exited).
  { intros w Hin. apply In_nth_error in Hin as [i Hi].
    assert (Hlt : (i < length (workers p))%nat)
      by (apply nth_error_Some; congruence).
    rewrite (Hdone i Hlt) in Hi. congruence. }
  assert (Hpast : lastBlock < next p).
  { apply Hexit. eapply nth_error_In. apply (Hdone 0%nat). lia. }
  destruct (sent_in_range lastBlock blocks blocks_fit p Hinv)
    as [Hnd Hrange].
  fold oldestBlock n in Hrange.
  assert (Hfull : forall x, oldestBlock <= x < oldestBlock + Z.of_nat n ->
                    In x (map blockNumber (sent p))).
  { intros x Hx. destruct Hinv as [_ _ _ _ Hcl].
    specialize (Hcl x). unfold claimed in Hcl.
    rewrite (holding_exited _ Hall), app_nil_r in Hcl.
    apply Hcl. unfold n, oldestBlock in *. lia. }
  assert (Hn : (n <= length (sent p))%nat).
  { rewrite <- (length_map blockNumber), <- (block_range_length oldestBlock n).
    apply NoDup_incl_length; [apply block_range_nodup|].
    intros x Hx. apply Hfull. now apply block_range_in. }
  destruct (drain_total rewardPercentiles oldestBlock n n (sent p)
              (mkCollected (repeat [] n) (repeat None n) (repeat F64.zero n)
                 blocks))
    as [d [Edrain Hfm]]; try assumption;
    [unfold n, oldestBlock; lia
    |unfold arrays_len; cbn; now rewrite !repeat_length|].
  rewrite Edrain.
  apply (drain_spec oldestBlock n) in Edrain;
    [|exact Hold|unfold oldestBlock, n; lia
     |unfold arrays_len; cbn; now rewrite !repeat_length
     |cbn; unfold n; lia|exact Hrange|exact Hnd].
  cbn [c_firstMissing] in Hfm, Edrain.
  destruct Edrain as [_ [[Hl1 [Hl2 Hl3]] [_ [_ [_ [_ [Hdata _]]]]]]].
  rewrite Hfm. destruct (Z.eqb_spec blocks 0); [lia|].
  unfold ret. eexists _, _. split; [reflexivity|].
  cbn [fh_err fh_oldestBlock fh_baseFee fh_gasUsedRatio fh_reward].
  fold n.
  split; [reflexivity|]. split; [reflexivity|].
  split; [rewrite length_firstn; lia|].
  split; [rewrite length_firstn; lia|].
  intros Hps. destruct rewardPercentiles as [|p0 ps0] eqn:Eps; [contradiction|].
  rewrite <- Eps in *.
  split; [rewrite length_firstn; lia|].
  rewrite firstn_all2 by lia.
  apply Forall_forall. intros row Hrow.
  apply In_nth_error in Hrow as [i Hi].
  assert (Hi' : (i < n)%nat)
    by (rewrite <- Hl1; apply nth_error_Some; congruence).
  destruct (proj1 (in_map_iff _ _ _)
              (Hfull (oldestBlock + Z.of_nat i) ltac:(lia)))
    as [m [Hnum Hm]].
  assert (Hslot : slot oldestBlock m = i) by (unfold slot; lia).
  rewrite Forall_forall in Hgood.
  destruct (Hgood m Hm) as [_ [[b Hb] Hrewards]].
  assert (Hle : (length (sent p) <= n)%nat).
  { rewrite <- (length_map blockNumber).
    apply (range_filled oldestBlock n _ Hnd).
    intros x Hx. apply in_map_iff in Hx as [m' [<- Hm']].
    rewrite Forall_forall in Hrange. now apply Hrange. }
  rewrite firstn_all2 in Hdata by exact Hle.
  destruct (Hdata m b Hm Hb) as [_ Hr].
  rewrite Hslot in Hr. congruence.
Qed.

End FetchRangeServed.

(** ** FeeHistory *)

Section FeeHistoryClaims.
Context `{Platform} `{GoSort} `{RpcDecls} `{HistoryCache}.

(** C2.  Whenever a call for at least one block returns without error,
    there is a [firstMissing] within the resolved range such that the three
    arrays of the response hold the entries [0 .. firstMissing) (the reward
    array only if percentiles were asked for), every one of these entries
    carrying the fees of its block; the block at [firstMissing], if the
    range reaches that far, is one the backend reported with no block and
    no error; and with [firstMissing = 0] the response is empty and without
    error. *)
Theorem FeeHistory_truncates oracle blocks unresolvedLastBlock
    rewardPercentiles schedule st r st' :
  rpc_wf ->
  0 <= LastAcceptedBlock (backend oracle) < 2 ^ 63 - 6 ->
  0 <= maxBlockHistory oracle < 2 ^ 63 ->
  1 <= maxCallBlockHistory oracle ->
  1 <= blocks < 2 ^ 63 ->
  unresolvedLastBlock = PendingBlockNumber
  \/ IsAccepted unresolvedLastBlock = true
  \/ 0 <= unresolvedLastBlock < 2 ^ 63 ->
  FeeHistory oracle blocks unresolvedLastBlock rewardPercentiles schedule st
  = (Returned r, st') ->
  fh_err r = None ->
  exists lastBlock n (firstMissing : nat),
    fst (resolveBlockRange oracle unresolvedLastBlock
           (if maxCallBlockHistory oracle <? blocks
            then maxCallBlockHistory oracle else blocks) st)
    = (lastBlock, n, None)
    /\ Z.of_nat firstMissing <= n
    /\ length (fh_baseFee r) = firstMissing
    /\ length (fh_gasUsedRatio r) = firstMissing
    /\ length (fh_reward r)
       = match rewardPercentiles with [] => 0%nat | _ :: _ => firstMissing end
    /\ (forall i, (i < firstMissing)%nat ->
          exists b, nth_error (fh_baseFee r) i = Some (Some b))
    /\ (firstMissing = 0%nat -> r = no_data None)
    /\ ((0 < firstMissing)%nat -> fh_oldestBlock r = lastBlock + 1 - n)
    /\ (Z.of_nat firstMissing < n ->
        BlockByNumber (backend oracle)
          (lastBlock + 1 - n + Z.of_nat firstMissing) = (None, None)).
Proof.
  intros Hwf Hhead Hmax Hcall Hblocks Hlast. unfold FeeHistory.
  destruct (Z.ltb_spec blocks 1); [lia|].
  set (blocks' := if maxCallBlockHistory oracle <? blocks
                  then maxCallBlockHistory oracle else blocks).
  assert (Hblocks' : 1 <= blocks' < 2 ^ 63)
    by (unfold blocks'; destruct (Z.ltb_spec (maxCallBlockHistory oracle)
                                    blocks); lia).
  destruct (check_percentiles 0 None rewardPercentiles) as [e|].
  { unfold ret. intros [= <- <-]. discriminate. }
  unfold bind.
  destruct (resolveBlockRange oracle unresolvedLastBlock blocks' st)
    as [[[lastBlock n] e] st1] eqn:Eres.
  assert (Hres : fst (resolveBlockRange oracle unresolvedLastBlock blocks' st)
                 = (lastBlock, n, e)) by now rewrite Eres.
  destruct e as [e|]; [unfold ret; intros [= <- <-]; discriminate|].
  pose proof (resolveBlockRange_success oracle unresolvedLastBlock blocks' st
                lastBlock n Hwf ltac:(lia) Hmax Hblocks' Hlast Hres)
    as [Hn [_ Hle]].
  intros Hfetch Herr.
  exists lastBlock, n.
  destruct (Z.eqb_spec n 0) as [->|Hnz].
  - unfold ret in Hfetch. injection Hfetch as <- <-. exists 0%nat. cbn.
    split; [first [exact Hres|reflexivity]|]. split; [lia|].
    split; [reflexivity|]. split; [reflexivity|].
    split; [now destruct rewardPercentiles|].
    split; [intros i Hi; lia|]. split; [reflexivity|].
    split; intros; lia.
  - destruct (fetch_range_truncates oracle rewardPercentiles lastBlock n
                ltac:(lia) ltac:(lia) schedule st1 r st' Hfetch Herr)
      as [fm [Hfm [Hb [Hg [Hr [Hdata [Hzero [Hold Hmiss]]]]]]]].
    exists fm. split; [first [exact Hres|reflexivity]|]. split; [lia|].
    split; [exact Hb|]. split; [exact Hg|]. split; [exact Hr|].
    split; [exact Hdata|]. split; [exact Hzero|]. split; [exact Hold|].
    intros Hlt. apply Hmiss. lia.
Qed.

(** C7.  On a chain whose last accepted block is 9 and whose backend
    serves the blocks 0 to 9, with [maxBlockHistory = 8] and
    [maxCallBlockHistory = 10], the call for 5 blocks ending at block 9 with
    the percentiles 0, 50, 100 returns, under every schedule that gives
    each fetcher eleven turns, [oldestBlock = 5], five base fees, five
    gas-used ratios and five reward rows of three entries each. *)
Theorem FeeHistory_five_blocks oracle schedule st :
  rpc_wf ->
  LastAcceptedBlock (backend oracle) = 9 ->
  maxBlockHistory oracle = 8 ->
  maxCallBlockHistory oracle = 10 ->
  serves (backend oracle) 0 9 ->
  fair 11 schedule ->
  exists r st',
    FeeHistory oracle 5 9 [F64.zero; F64.of_uint64 50; F64.hundred]
      schedule st = (Returned r, st')
    /\ fh_err r = None
    /\ fh_oldestBlock r = 5
    /\ length (fh_baseFee r) = 5%nat
    /\ length (fh_gasUsedRatio r) = 5%nat
    /\ length (fh_reward r) = 5%nat
    /\ Forall (fun row => length row = 3%nat) (fh_reward r).
Proof.
  intros [Hpend [_ Hneg]] Hhead Hmax Hcall Hserves Hfair.
  unfold FeeHistory. rewrite Hcall.
  change (5 <? 1) with false. change (10 <? 5) with false. cbv iota.
  change (check_percentiles 0 None
            [F64.zero; F64.of_uint64 50; F64.hundred])
    with (@None error).
  assert (Hres : forall st0,
            resolveBlockRange oracle 9 5 st0
            = ((9, 5, None),
               mkState (CallLastAcceptedBlock :: calls st0)
                 (historyCache st0))).
  { intros st0.
    unfold resolveBlockRange, backend_LastAcceptedBlock, bind, ret, called.
    destruct (Z.eqb_spec 9 PendingBlockNumber); [lia|].
    rewrite Hhead, Hmax. cbn.
    destruct (IsAccepted 9); reflexivity. }
  unfold bind. rewrite Hres. cbn [Z.eqb].
  destruct (fetch_range_served oracle
              [F64.zero; F64.of_uint64 50; F64.hundred] 9 5
              ltac:(lia) ltac:(lia)
              ltac:(intros n Hn; apply Hserves; lia)
              schedule
              (mkState (CallLastAcceptedBlock :: calls st) (historyCache st))
              Hfair)
    as [r [st' [Hrun [Herr [Hold [Hb [Hg Hrows]]]]]]].
  destruct (Hrows ltac:(discriminate)) as [Hr Hrow].
  exists r, st'. split; [exact Hrun|]. split; [exact Herr|].
  split; [rewrite Hold; reflexivity|].
  split; [exact Hb|]. split; [exact Hg|]. split; [exact Hr|exact Hrow].
Qed.

End FeeHistoryClaims.

Section FeeHistoryScenarios.
Import Sample.

Lemma sample_serves : serves (backend (oracle 9)) 0 9.
Proof.
  intros n Hn. exists (block n), [mkReceipt 21000; mkReceipt 21000].
  cbn. destruct (Z.leb_spec 0 n); [|lia].
  destruct (Z.leb_spec n 9); [|lia].
  cbn. split; [reflexivity|]. split; [reflexivity|]. lia.
Defined.

Lemma round_robin_fair : fair 11 round_robin.
Proof.
  intros w Hw.
  destruct w as [|[|[|[|w]]]]; [vm_compute; lia..|lia].
Defined.

Lemma FeeHistory_five_blocks_witness :
  rpc_wf
  /\ serves (backend (oracle 9)) 0 9
  /\ fair 11 round_robin
  /\ exists r st',
       FeeHistory (oracle 9) 5 9 [F64.zero; F64.of_uint64 50; F64.hundred]
         round_robin fresh = (Returned r, st')
       /\ fh_err r = None
       /\ fh_oldestBlock r = 5
       /\ length (fh_baseFee r) = 5%nat
       /\ length (fh_gasUsedRatio r) = 5%nat
       /\ length (fh_reward r) = 5%nat
       /\ Forall (fun row => length row = 3%nat) (fh_reward r).
Proof.
  split; [exact sample_rpc_wf|]. split; [exact sample_serves|].
  split; [exact round_robin_fair|].
  exact (FeeHistory_five_blocks (oracle 9) round_robin fresh sample_rpc_wf
           eq_refl eq_refl eq_refl sample_serves round_robin_fair).
Defined.

(** The chain of the reorganisation scenario: block 9 is reported with no
    block and no error, the blocks 5 to 8 are found. *)
Lemma FeeHistory_truncates_witness :
  BlockByNumber (backend (oracle 8)) 9 = (None, None)
  /\ FeeHistory (oracle 8) 5 9 percentiles round_robin fresh
     = (Returned
          (returned (fst (FeeHistory (oracle 8) 5 9 percentiles round_robin
                            fresh))),
        snd (FeeHistory (oracle 8) 5 9 percentiles round_robin fresh))
  /\ exists lastBlock n (firstMissing : nat),
       fst (resolveBlockRange (oracle 8) 9
              (if maxCallBlockHistory (oracle 8) <? 5
               then maxCallBlockHistory (oracle 8) else 5) fresh)
       = (lastBlock, n, None)
       /\ Z.of_nat firstMissing <= n
       /\ length (fh_baseFee
                    (returned (fst (FeeHistory (oracle 8) 5 9 percentiles
                                      round_robin fresh))))
          = firstMissing.
Proof.
  assert (Hcall : FeeHistory (oracle 8) 5 9 percentiles round_robin fresh
                  = (Returned
                       (returned (fst (FeeHistory (oracle 8) 5 9 percentiles
                                         round_robin fresh))),
                     snd (FeeHistory (oracle 8) 5 9 percentiles round_robin
                            fresh)))
    by (vm_compute; reflexivity).
  split; [reflexivity|]. split; [exact Hcall|].
  destruct (FeeHistory_truncates (oracle 8) 5 9 percentiles round_robin fresh
              _ _ sample_rpc_wf
              ltac:(simpl; lia) ltac:(simpl; lia) ltac:(simpl; lia)
              ltac:(lia) ltac:(right; right; lia) Hcall
              ltac:(vm_compute; reflexivity))
    as [lastBlock [n [fm [Hres [Hfm [Hlen _]]]]]].
  exists lastBlock, n, fm. split; [exact Hres|]. split; [exact Hfm|exact Hlen].
Defined.

End FeeHistoryScenarios.

(* ================================================================= *)
(** * Further properties of the code *)

(** ** processPercentiles, beyond the claims *)

Section PercentileExtras.
Context `{Platform}.

Lemma percentile_loop_app sb ps qs : forall idx sum,
  percentile_loop sb (ps ++ qs) idx sum
  = percentile_loop sb ps idx sum
    ++ percentile_loop sb qs
         (fst (fold_left
                 (fun c p => advance (length (Txs sb)) (Txs sb)
                               (thresholdGasUsed sb p) (fst c) (snd c))
                 ps (idx, sum)))
         (snd (fold_left
                 (fun c p => advance (length (Txs sb)) (Txs sb)
                               (thresholdGasUsed sb p) (fst c) (snd c))
                 ps (idx, sum))).
Proof.
  induction ps as [|p ps IH]; intros idx sum; [reflexivity|].
  simpl.
  destruct (advance (length (Txs sb)) (Txs sb) (thresholdGasUsed sb p)
              idx sum) as [k s] eqn:E.
  simpl. now rewrite IH.
Qed.

(** X1.  Whatever the block holds, the result carries the block's base fee
    (never a nil pointer), the ratio [float64(GasUsed) / float64(GasLimit)],
    and exactly one reward per requested percentile. *)
Theorem processPercentiles_result_shape sb ps :
  pf_baseFee (processPercentiles sb ps) = Some (BaseFee sb)
  /\ pf_gasUsedRatio (processPercentiles sb ps)
     = F64.div (F64.of_uint64 (GasUsed sb)) (F64.of_uint64 (GasLimit sb))
  /\ length (pf_reward (processPercentiles sb ps)) = length ps.
Proof.
  destruct (processPercentiles_shape sb ps) as [Hb Hl].
  split; [exact Hb|]. split; [|exact Hl].
  unfold processPercentiles.
  destruct ps; [reflexivity|]. now destruct (Txs sb).
Qed.

(** X2.  On a block with transactions every reward emitted is the reward
    of one of the block's transactions. *)
Theorem processPercentiles_rewards_of_transactions sb ps :
  Txs sb <> [] ->
  Forall (fun r => exists tx, In tx (Txs sb) /\ reward tx = r)
    (pf_reward (processPercentiles sb ps)).
Proof.
  intros Hne.
  destruct (processPercentiles_walk sb ps Hne) as [ks [Hwalk ->]].
  destruct (cursor_walk_bounds _ _ _ _ _ Hwalk) as [_ Hks].
  apply Forall_forall. intros r Hr.
  apply in_map_iff in Hr as [k [<- Hk]].
  rewrite Forall_forall in Hks. specialize (Hks k Hk).
  exists (tx_at (Txs sb) k). split; [|reflexivity].
  apply nth_In. lia.
Qed.

(** X3.  Percentiles asked for later do not change the rewards of those
    asked for before them: the rewards of a prefix of the request are the
    prefix of the rewards. *)
Theorem processPercentiles_prefix sb ps qs :
  firstn (length ps) (pf_reward (processPercentiles sb (ps ++ qs)))
  = pf_reward (processPercentiles sb ps).
Proof.
  unfold processPercentiles.
  destruct ps as [|p ps]; [reflexivity|].
  change ((p :: ps) ++ qs) with (p :: (ps ++ qs)).
  destruct (Txs sb) as [|tx0 txs] eqn:Htxs; cbn [pf_reward].
  - change (p :: ps ++ qs) with ((p :: ps) ++ qs).
    rewrite map_app, <- (length_map (fun _ : float64 => 0) (p :: ps)).
    rewrite firstn_app, firstn_all, Nat.sub_diag, firstn_O.
    apply app_nil_r.
  - change (p :: ps ++ qs) with ((p :: ps) ++ qs).
    rewrite percentile_loop_app.
    rewrite <- (percentile_loop_length sb (p :: ps) 0%nat (gasUsed tx0)) at 1.
    rewrite firstn_app, firstn_all, Nat.sub_diag, firstn_O.
    apply app_nil_r.
Qed.

Lemma walk_from_start thr txs start ps ks :
  cursor_walk thr txs start ps ks ->
  nondecreasing (map thr ps) ->
  (forall p rest, ps = p :: rest ->
     forall j, (j < start)%nat -> cumulativeGasUsed txs j < thr p) ->
  Forall2 (fun p k => cursor_stop txs (thr p) 0 k) ps ks.
Proof.
  induction 1 as [start|start p ps k ks [Hrange [Hbelow Hstop]] Hwalk IH];
    intros Hmono Hstart; [constructor|].
  specialize (Hstart p ps eq_refl).
  assert (Hall : forall j, (j < k)%nat -> cumulativeGasUsed txs j < thr p).
  { intros j Hj. destruct (Nat.lt_ge_cases j start);
      [now apply Hstart|apply Hbelow; lia]. }
  constructor.
  - split; [lia|]. split; [intros j Hj; apply Hall; lia|exact Hstop].
  - apply IH.
    + simpl in Hmono. apply Hmono.
    + intros q rest -> j Hj. simpl in Hmono.
      destruct Hmono as [Hle _]. specialize (Hall j Hj). lia.
Qed.

(** X4.  The single pass agrees with a scan per percentile: when the
    thresholds of the requested percentiles do not decrease, each reward is
    the one the calculator returns for that percentile asked for alone. *)
Theorem processPercentiles_single_pass sb ps :
  Txs sb <> [] ->
  nondecreasing (map (thresholdGasUsed sb) ps) ->
  pf_reward (processPercentiles sb ps)
  = concat (map (fun p => pf_reward (processPercentiles sb [p])) ps).
Proof.
  intros Hne Hmono.
  destruct (processPercentiles_walk sb ps Hne) as [ks [Hwalk ->]].
  pose proof (walk_from_start _ _ _ _ _ Hwalk Hmono
                ltac:(intros; lia)) as Hstops.
  clear Hwalk Hmono.
  induction Hstops as [|p k ps ks Hstop _ IH]; [reflexivity|].
  cbn [map concat]. rewrite IH.
  now rewrite (walk_single (thresholdGasUsed sb) sb p k Hne Hstop eq_refl).
Qed.

End PercentileExtras.

Section PercentileExtrasScenarios.
Import Sample.

Lemma processPercentiles_rewards_of_transactions_witness :
  Txs light_block <> []
  /\ Forall (fun r => exists tx, In tx (Txs light_block) /\ reward tx = r)
       (pf_reward (processPercentiles light_block percentiles)).
Proof.
  split; [discriminate|].
  apply processPercentiles_rewards_of_transactions. discriminate.
Defined.

Lemma processPercentiles_single_pass_witness :
  Txs light_block <> []
  /\ nondecreasing (map (thresholdGasUsed light_block) percentiles)
  /\ pf_reward (processPercentiles light_block percentiles)
     = concat (map (fun p => pf_reward (processPercentiles light_block [p]))
                 percentiles).
Proof.
  assert (Hne : Txs light_block <> []) by discriminate.
  assert (Hmono : nondecreasing
                    (map (thresholdGasUsed light_block) percentiles))
    by (vm_compute; repeat split; discriminate).
  split; [exact Hne|]. split; [exact Hmono|].
  exact (processPercentiles_single_pass light_block percentiles Hne Hmono).
Defined.

End PercentileExtrasScenarios.

(** ** resolveBlockRange, beyond the claims *)

Ltac unwrap_i64 :=
  repeat match goal with
  | |- context [wrap_i64 ?x] => rewrite (wrap_i64_id x) by lia
  end.

Lemma clamps_exact head maxQueryDepth lastBlock blocks :
  0 <= head < 2 ^ 63 - 1 ->
  -1 <= maxQueryDepth < 2 ^ 63 ->
  0 <= lastBlock <= head ->
  1 <= blocks < 2 ^ 63 ->
  head - maxQueryDepth <= lastBlock + 1 ->
  (if maxQueryDepth
      <? wrap_i64
           (head
            - wrap_i64
                (wrap_i64
                   (lastBlock
                    - (if wrap_i64 (lastBlock + 1) <? blocks
                       then wrap_i64 (lastBlock + 1) else blocks)) + 1))
   then
     wrap_i64
       ((if wrap_i64 (lastBlock + 1) <? blocks
         then wrap_i64 (lastBlock + 1) else blocks)
        - wrap_i64
            (wrap_i64
               (head
                - wrap_i64
                    (wrap_i64
                       (lastBlock
                        - (if wrap_i64 (lastBlock + 1) <? blocks
                           then wrap_i64 (lastBlock + 1) else blocks)) + 1))
             - maxQueryDepth))
   else
     (if wrap_i64 (lastBlock + 1) <? blocks
      then wrap_i64 (lastBlock + 1) else blocks))
  = Z.min blocks (Z.min (lastBlock + 1) (lastBlock + 1 + maxQueryDepth - head)).
Proof.
  intros Hhead Hmax Hlast Hblocks Hwindow.
  rewrite (wrap_i64_id (lastBlock + 1)) by lia.
  destruct (Z.ltb_spec (lastBlock + 1) blocks).
  - unwrap_i64.
    destruct (Z.ltb_spec maxQueryDepth
                (head - (lastBlock - (lastBlock + 1) + 1)));
      unwrap_i64; lia.
  - unwrap_i64.
    destruct (Z.ltb_spec maxQueryDepth (head - (lastBlock - blocks + 1)));
      unwrap_i64; lia.
Qed.

Section ResolveExtras.
Context `{RpcDecls} `{HistoryCache}.

Lemma accepted_resolved oracle lastBlock blocks st :
  lastBlock <> PendingBlockNumber -> IsAccepted lastBlock = true ->
  1 <= blocks < 2 ^ 63 ->
  0 <= LastAcceptedBlock (backend oracle) < 2 ^ 63 - 1 ->
  0 <= maxBlockHistory oracle < 2 ^ 63 ->
  fst (resolveBlockRange oracle lastBlock blocks st)
  = (LastAcceptedBlock (backend oracle),
     Z.min blocks
       (Z.min (LastAcceptedBlock (backend oracle) + 1)
          (maxBlockHistory oracle)),
     None).
Proof.
  intros Hpend Hacc Hblocks Hhead Hmax.
  unfold resolveBlockRange, backend_LastAcceptedBlock, bind, ret, called.
  apply Z.eqb_neq in Hpend. rewrite Hpend.
  destruct (Z.eqb_spec blocks 0); [lia|].
  rewrite Hacc. cbn.
  set (head := LastAcceptedBlock (backend oracle)) in *.
  rewrite (wrap_i64_id head) by lia.
  rewrite (wrap_i64_id (maxBlockHistory oracle)) by lia.
  rewrite (wrap_i64_id (maxBlockHistory oracle - 1)) by lia.
  rewrite (clamps_exact head (maxBlockHistory oracle - 1) head blocks)
    by lia.
  rewrite (proj1 (wrap_u64_spec head)) by lia.
  cbn [fst]. f_equal. f_equal. lia.
Qed.

(** X5.  A request ending at a selector served from the last accepted
    block ("latest", "accepted") resolves to the head, with the block count
    clamped to the height of the chain and to the history window:
    [min(blocks, head + 1, maxBlockHistory)]. *)
Theorem resolveBlockRange_accepted oracle lastBlock blocks st :
  lastBlock <> PendingBlockNumber -> IsAccepted lastBlock = true ->
  1 <= blocks < 2 ^ 63 ->
  0 <= LastAcceptedBlock (backend oracle) < 2 ^ 63 - 1 ->
  0 <= maxBlockHistory oracle < 2 ^ 63 ->
  fst (resolveBlockRange oracle lastBlock blocks st)
  = (LastAcceptedBlock (backend oracle),
     Z.min blocks
       (Z.min (LastAcceptedBlock (backend oracle) + 1)
          (maxBlockHistory oracle)),
     None).
Proof. exact (accepted_resolved oracle lastBlock blocks st). Qed.


Lemma absolute_resolved oracle lastBlock blocks st :
  lastBlock <> PendingBlockNumber -> IsAccepted lastBlock = false ->
  1 <= blocks < 2 ^ 63 ->
  0 <= LastAcceptedBlock (backend oracle) < 2 ^ 63 - 1 ->
  0 <= maxBlockHistory oracle < 2 ^ 63 ->
  0 <= lastBlock <= LastAcceptedBlock (backend oracle) ->
  LastAcceptedBlock (backend oracle) - (maxBlockHistory oracle - 1)
  <= lastBlock ->
  fst (resolveBlockRange oracle lastBlock blocks st)
  = (lastBlock,
     Z.min blocks
       (Z.min (lastBlock + 1)
          (lastBlock + maxBlockHistory oracle
           - LastAcceptedBlock (backend oracle))),
     None).
Proof.
  intros Hpend Hacc Hblocks Hhead Hmax Hlast Hwindow.
  unfold resolveBlockRange, backend_LastAcceptedBlock, bind, ret, called.
  apply Z.eqb_neq in Hpend. rewrite Hpend.
  destruct (Z.eqb_spec blocks 0); [lia|].
  rewrite Hacc. cbn.
  set (head := LastAcceptedBlock (backend oracle)) in *.
  rewrite (wrap_i64_id head) by lia.
  rewrite (wrap_i64_id (maxBlockHistory oracle)) by lia.
  rewrite (wrap_i64_id (maxBlockHistory oracle - 1)) by lia.
  rewrite (wrap_i64_id (head - (maxBlockHistory oracle - 1))) by lia.
  destruct (Z.ltb_spec lastBlock (head - (maxBlockHistory oracle - 1)));
    [lia|].
  rewrite andb_false_r.
  destruct (Z.ltb_spec head lastBlock); [lia|].
  rewrite (clamps_exact head (maxBlockHistory oracle - 1) lastBlock blocks)
    by lia.
  rewrite (proj1 (wrap_u64_spec lastBlock)) by lia.
  cbn [fst]. f_equal. f_equal. lia.
Qed.

(** X6.  A request ending at an absolute block number within the chain and
    within the history window resolves to that number, with the block count
    clamped so that the range starts neither before genesis nor before the
    window: [min(blocks, lastBlock + 1, lastBlock + maxBlockHistory - head)]. *)
Theorem resolveBlockRange_absolute oracle lastBlock blocks st :
  lastBlock <> PendingBlockNumber -> IsAccepted lastBlock = false ->
  1 <= blocks < 2 ^ 63 ->
  0 <= LastAcceptedBlock (backend oracle) < 2 ^ 63 - 1 ->
  0 <= maxBlockHistory oracle < 2 ^ 63 ->
  0 <= lastBlock <= LastAcceptedBlock (backend oracle) ->
  LastAcceptedBlock (backend oracle) - (maxBlockHistory oracle - 1)
  <= lastBlock ->
  fst (resolveBlockRange oracle lastBlock blocks st)
  = (lastBlock,
     Z.min blocks
       (Z.min (lastBlock + 1)
          (lastBlock + maxBlockHistory oracle
           - LastAcceptedBlock (backend oracle))),
     None).
Proof. exact (absolute_resolved oracle lastBlock blocks st). Qed.


Lemma pending_resolved oracle blocks st :
  IsAccepted LatestBlockNumber = true ->
  1 <= blocks < 2 ^ 63 ->
  0 <= LastAcceptedBlock (backend oracle) < 2 ^ 63 - 1 ->
  0 <= maxBlockHistory oracle < 2 ^ 63 ->
  (blocks = 1 ->
   resolveBlockRange oracle PendingBlockNumber blocks st = ((0, 0, None), st))
  /\ (2 <= blocks ->
      fst (resolveBlockRange oracle PendingBlockNumber blocks st)
      = (LastAcceptedBlock (backend oracle),
         Z.min (blocks - 1)
           (Z.min (LastAcceptedBlock (backend oracle) + 1)
              (maxBlockHistory oracle)),
         None)).
Proof.
  intros Hlatest Hblocks Hhead Hmax.
  unfold resolveBlockRange, backend_LastAcceptedBlock, bind, ret, called.
  rewrite Z.eqb_refl. rewrite (wrap_i64_id (blocks - 1)) by lia.
  split.
  - intros ->. reflexivity.
  - intros Htwo. destruct (Z.eqb_spec (blocks - 1) 0); [lia|].
    rewrite Hlatest. cbn.
    set (head := LastAcceptedBlock (backend oracle)) in *.
    rewrite (wrap_i64_id head) by lia.
    rewrite (wrap_i64_id (maxBlockHistory oracle)) by lia.
    rewrite (wrap_i64_id (maxBlockHistory oracle - 1)) by lia.
    rewrite (clamps_exact head (maxBlockHistory oracle - 1) head
               (blocks - 1)) by lia.
    rewrite (proj1 (wrap_u64_spec head)) by lia.
    cbn [fst]. f_equal. f_equal. lia.
Qed.

(** X7.  A request ending at the pending block is resolved as a request
    for one block less ending at the head; a pending request for a single
    block is the empty range, found without consulting the backend. *)
Theorem resolveBlockRange_pending oracle blocks st :
  IsAccepted LatestBlockNumber = true ->
  1 <= blocks < 2 ^ 63 ->
  0 <= LastAcceptedBlock (backend oracle) < 2 ^ 63 - 1 ->
  0 <= maxBlockHistory oracle < 2 ^ 63 ->
  (blocks = 1 ->
   resolveBlockRange oracle PendingBlockNumber blocks st = ((0, 0, None), st))
  /\ (2 <= blocks ->
      fst (resolveBlockRange oracle PendingBlockNumber blocks st)
      = (LastAcceptedBlock (backend oracle),
         Z.min (blocks - 1)
           (Z.min (LastAcceptedBlock (backend oracle) + 1)
              (maxBlockHistory oracle)),
         None)).
Proof. exact (pending_resolved oracle blocks st). Qed.


Lemma rejected_resolved oracle lastBlock blocks st :
  blocks <> 0 ->
  lastBlock <> PendingBlockNumber -> IsAccepted lastBlock = false ->
  - 2 ^ 63 <= lastBlock < 2 ^ 63 ->
  0 <= LastAcceptedBlock (backend oracle) < 2 ^ 63 - 1 ->
  0 <= maxBlockHistory oracle < 2 ^ 63 ->
  (maxBlockHistory oracle - 1 < LastAcceptedBlock (backend oracle) ->
   lastBlock
   < LastAcceptedBlock (backend oracle) - (maxBlockHistory oracle - 1) ->
   exists e, fst (resolveBlockRange oracle lastBlock blocks st)
             = (0, 0, Some e))
  /\ (LastAcceptedBlock (backend oracle) < lastBlock ->
      exists e, fst (resolveBlockRange oracle lastBlock blocks st)
                = (0, 0, Some e)).
Proof.
  intros Hblocks Hpend Hacc Hlast Hhead Hmax.
  unfold resolveBlockRange, backend_LastAcceptedBlock, bind, ret, called.
  apply Z.eqb_neq in Hpend, Hblocks. rewrite Hpend, Hblocks, Hacc. cbn.
  set (head := LastAcceptedBlock (backend oracle)) in *.
  rewrite (wrap_i64_id head) by lia.
  rewrite (wrap_i64_id (maxBlockHistory oracle)) by lia.
  rewrite (wrap_i64_id (maxBlockHistory oracle - 1)) by lia.
  rewrite (wrap_i64_id (head - (maxBlockHistory oracle - 1))) by lia.
  split.
  - intros Hdepth Hbehind.
    destruct (Z.ltb_spec (maxBlockHistory oracle - 1) head); [|lia].
    destruct (Z.ltb_spec lastBlock (head - (maxBlockHistory oracle - 1)));
      [|lia].
    cbn. eauto.
  - intros Habove.
    destruct (Z.ltb_spec (maxBlockHistory oracle - 1) head);
      destruct (Z.ltb_spec lastBlock (head - (maxBlockHistory oracle - 1)));
      cbn; eauto;
      destruct (Z.ltb_spec head lastBlock); try lia; cbn; eauto.
Qed.

(** X8.  With a history window of at least one block, a range resolved for
    a request of at least one block is either the empty range of a pending
    request for a single block, or holds at least one block, ends at or
    below the head, and starts within the window:
    [head - oldestBlock <= maxBlockHistory - 1]. *)
Theorem resolveBlockRange_within_window oracle lastBlock blocks st last n :
  rpc_wf ->
  0 <= LastAcceptedBlock (backend oracle) < 2 ^ 63 - 1 ->
  1 <= maxBlockHistory oracle < 2 ^ 63 ->
  1 <= blocks < 2 ^ 63 ->
  lastBlock = PendingBlockNumber \/ IsAccepted lastBlock = true
  \/ 0 <= lastBlock < 2 ^ 63 ->
  fst (resolveBlockRange oracle lastBlock blocks st) = (last, n, None) ->
  (lastBlock = PendingBlockNumber /\ blocks = 1 /\ last = 0 /\ n = 0)
  \/ (1 <= n
      /\ last <= LastAcceptedBlock (backend oracle)
      /\ LastAcceptedBlock (backend oracle) - (last - n + 1)
         <= maxBlockHistory oracle - 1).
Proof.
  intros [Hpend [Hlatest Hneg]] Hhead Hmax Hblocks Hlast Hres.
  destruct (Z.eq_dec lastBlock PendingBlockNumber) as [->|Hnp].
  - destruct (pending_resolved oracle blocks st Hlatest Hblocks
                Hhead ltac:(lia)) as [Hone Hmore].
    destruct (Z.eq_dec blocks 1) as [->|Hne].
    + rewrite (Hone eq_refl) in Hres. injection Hres as <- <-. now left.
    + rewrite (Hmore ltac:(lia)) in Hres. injection Hres as <- <-.
      right. lia.
  - destruct (IsAccepted lastBlock) eqn:Eacc.
    + rewrite (accepted_resolved oracle lastBlock blocks st Hnp Eacc
                 Hblocks Hhead ltac:(lia)) in Hres.
      injection Hres as <- <-. right. lia.
    + destruct Hlast as [Hlast|[Hlast|Hlast]]; [contradiction|congruence|].
      destruct (Z.lt_ge_cases (LastAcceptedBlock (backend oracle)) lastBlock)
        as [Habove|Hbelow].
      { pose proof (rejected_resolved oracle lastBlock blocks st
                      ltac:(lia) Hnp Eacc ltac:(lia) Hhead ltac:(lia))
          as [_ Hhd].
        destruct (Hhd Habove) as [e He]. rewrite He in Hres.
        discriminate. }
      destruct (Z.lt_ge_cases lastBlock
                  (LastAcceptedBlock (backend oracle)
                   - (maxBlockHistory oracle - 1))) as [Hold|Hin].
      { pose proof (rejected_resolved oracle lastBlock blocks st
                      ltac:(lia) Hnp Eacc ltac:(lia) Hhead ltac:(lia))
          as [Hlim _].
        destruct (Hlim ltac:(lia) Hold) as [e He]. rewrite He in Hres.
        discriminate. }
      rewrite (absolute_resolved oracle lastBlock blocks st Hnp Eacc
                 Hblocks Hhead ltac:(lia) ltac:(lia) Hin) in Hres.
      injection Hres as <- <-. right. lia.
Qed.

(** X9.  The resolver reads the head of the chain at most once and asks
    the backend for nothing else; it reads it exactly when the block count,
    after the adjustment for a pending request, is not zero.  The cache is
    left as it was. *)
Theorem resolveBlockRange_calls oracle lastBlock blocks st :
  let adjusted :=
    if lastBlock =? PendingBlockNumber then wrap_i64 (blocks - 1)
    else blocks in
  snd (resolveBlockRange oracle lastBlock blocks st)
  = if adjusted =? 0 then st
    else mkState (CallLastAcceptedBlock :: calls st) (historyCache st).
Proof.
  unfold resolveBlockRange, backend_LastAcceptedBlock, bind, ret, called.
  destruct (lastBlock =? PendingBlockNumber); cbv zeta.
  - destruct (wrap_i64 (blocks - 1) =? 0); [reflexivity|]. cbn.
    repeat match goal with
    | |- context [if ?c then _ else _] => destruct c; cbn
    end; reflexivity.
  - destruct (blocks =? 0); [reflexivity|]. cbn.
    repeat match goal with
    | |- context [if ?c then _ else _] => destruct c; cbn
    end; reflexivity.
Qed.

End ResolveExtras.

(** ** FeeHistory, beyond the claims *)

(** X10.  The check of the percentiles passes exactly when no entry is
    below 0, above 100 or smaller than its predecessor. *)
Theorem check_percentiles_passes rewardPercentiles :
  check_percentiles 0 None rewardPercentiles = None
  <-> forall i, ~ offends rewardPercentiles i.
Proof.
  split.
  - intros Hnone i [p [Hp Hbad]].
    destruct (check_percentiles_complete rewardPercentiles 0 None i p Hp)
      as [e He]; [|congruence].
    destruct Hbad as [Hbad|[Hbad|[j [q [-> [Hq Hbad]]]]]]; eauto.
  - intros Hok.
    destruct (check_percentiles 0 None rewardPercentiles) as [e|] eqn:E;
      [exfalso|reflexivity].
    pose proof (check_percentiles_sound rewardPercentiles [] e E) as Hname.
    simpl in Hname. destruct e as [p|i q j p| | |]; simpl in Hname;
      try contradiction.
    + destruct Hname as [Hin Hbad].
      apply In_nth_error in Hin as [i Hi].
      apply (Hok i). exists p. split; [exact Hi|]. tauto.
    + destruct Hname as [-> [Hq [Hp Hbad]]].
      apply (Hok (S i)). exists p. split; [exact Hp|].
      right; right. exists i, q. auto.
Qed.

Section SentFacts.
Context `{Platform} `{GoSort} `{RpcDecls} `{HistoryCache}.
Variables (oracle : Oracle) (rewardPercentiles : list float64).
Variable lastBlock : Z.
Variable P : blockFees -> Prop.
Hypothesis fetched_P : forall n st m continue st',
  fetch oracle rewardPercentiles n st = (Sent m continue, st') -> P m.

(** Whatever holds of every result a fetch can produce holds of everything
    on the channel. *)
Lemma run_workers_sent schedule : forall p st p' st',
  Forall P (sent p) ->
  run_workers oracle rewardPercentiles lastBlock schedule p st
  = (Some p', st') ->
  Forall P (sent p').
Proof.
  induction schedule as [|w rest IH]; intros p st p' st' Hsent; simpl.
  - unfold ret. now intros [= <- <-].
  - unfold bind.
    destruct (worker_step oracle rewardPercentiles lastBlock w p st)
      as [[p1|] st1] eqn:Estep; [|discriminate].
    apply IH. revert Estep. unfold worker_step.
    destruct (nth_error (workers p) w) as [[|n|]|];
      unfold bind, ret; try (intros [= <- <-]; exact Hsent).
    destruct (fetch oracle rewardPercentiles n st) as [[m c|] st2] eqn:Ef;
      [|discriminate].
    intros [= <- <-]. cbn [sent]. apply Forall_app. split; [exact Hsent|].
    constructor; [|constructor]. eapply fetched_P. exact Ef.
Qed.

End SentFacts.

Lemma drain_error n oldestBlock : forall chan c e,
  drain n oldestBlock chan c = DrainedError e ->
  exists m, In m chan /\ err m = Some e.
Proof.
  induction n as [|n IH]; intros chan c e; simpl; [discriminate|].
  destruct chan as [|m chan]; [discriminate|].
  destruct (err m) as [e'|] eqn:Eerr.
  - intros [= <-]. exists m. split; [now left|exact Eerr].
  - destruct (pf_baseFee (results m)).
    + destruct (store _ _ _); [|discriminate].
      destruct (store _ _ _); [|discriminate].
      destruct (store _ _ _); [|discriminate].
      intros Hd. destruct (IH _ _ _ Hd) as [m' [Hin He]].
      exists m'. split; [now right|exact He].
    + intros Hd. destruct (IH _ _ _ Hd) as [m' [Hin He]].
      exists m'. split; [now right|exact He].
Qed.

Section FeeHistoryExtras.
Context `{Platform} `{GoSort} `{RpcDecls} `{HistoryCache}.

Lemma fetch_failed oracle rewardPercentiles n st m continue st' :
  fetch oracle rewardPercentiles n st = (Sent m continue, st') ->
  forall e, err m = Some e -> backend_failed (backend oracle) n e.
Proof.
  unfold fetch, bind, ret, historyCache_Get, historyCache_Add, called.
  destruct (cache_Get (historyCache st) n) as [[sb|] c].
  - intros [= <- <- <-] e. cbn. discriminate.
  - cbn.
    destruct (BlockByNumber (backend oracle) n) as [[block|] [e0|]] eqn:Eb;
      cbn.
    + intros [= <- <- <-] e [= <-]. left. now rewrite Eb.
    + destruct (GetReceipts (backend oracle) (Hash block))
        as [receipts [e0|]] eqn:Er; cbn.
      * intros [= <- <- <-] e [= <-]. right. exists block.
        split; [exact Eb|now rewrite Er].
      * destruct (processBlock block receipts) as [sb|]; cbn;
          [|discriminate].
        intros [= <- <- <-] e. cbn. discriminate.
    + intros [= <- <- <-] e [= <-]. left. now rewrite Eb.
    + intros [= <- <- <-] e. cbn. discriminate.
Qed.

Lemma fetch_range_error oracle rewardPercentiles lastBlock blocks schedule
    st r st' :
  fetch_range oracle rewardPercentiles lastBlock blocks schedule st
  = (Returned r, st') ->
  (forall e, fh_err r = Some e ->
     r = no_data (Some e)
     /\ exists n, backend_failed (backend oracle) n e).
Proof.
  unfold fetch_range.
  destruct (blocks <? 0); [discriminate|].
  unfold bind.
  destruct (run_workers oracle rewardPercentiles lastBlock schedule _ st)
    as [[p|] st1] eqn:Erun; [|discriminate].
  assert (Hsent : Forall (fun m => forall e, err m = Some e ->
                            exists n, backend_failed (backend oracle) n e)
                    (sent p)).
  { eapply (run_workers_sent oracle rewardPercentiles lastBlock);
      [| |exact Erun]; [|constructor].
    intros n st0 m c st0' Hf e He. exists n.
    eapply fetch_failed; eassumption. }
  destruct (drain _ _ (sent p) _) as [d|e0| |] eqn:Edrain; unfold ret;
    try discriminate.
  - destruct (c_firstMissing d =? 0); intros [= <- <-] e; cbn; discriminate.
  - intros [= <- <-] e [= <-]. split; [reflexivity|].
    destruct (drain_error _ _ _ _ _ Edrain) as [m [Hin He]].
    rewrite Forall_forall in Hsent. exact (Hsent m Hin e0 He).
Qed.

(** X11.  There is no partial result beside an error: whenever FeeHistory
    returns an error, the oldest block is zero and the three arrays are
    empty. *)
Theorem FeeHistory_error_no_data oracle blocks unresolvedLastBlock
    rewardPercentiles schedule st r st' e :
  FeeHistory oracle blocks unresolvedLastBlock rewardPercentiles schedule st
  = (Returned r, st') ->
  fh_err r = Some e ->
  r = no_data (Some e).
Proof.
  unfold FeeHistory.
  destruct (blocks <? 1); [unfold ret; intros [= <- <-]; discriminate|].
  destruct (check_percentiles 0 None rewardPercentiles) as [e0|].
  { unfold ret. intros [= <- <-] [= <-]. reflexivity. }
  unfold bind.
  destruct (resolveBlockRange oracle unresolvedLastBlock _ st)
    as [[[lastBlock n] [e0|]] st1].
  { unfold ret. intros [= <- <-] [= <-]. reflexivity. }
  destruct (n =? 0); [unfold ret; intros [= <- <-]; discriminate|].
  intros Hfetch He.
  exact (proj1 (fetch_range_error _ _ _ _ _ _ _ _ Hfetch e He)).
Qed.


End FeeHistoryExtras.

(** ** The fetchers and the receiving loop, beyond the claims *)

Lemma drain_waiting k oldestBlock : forall chan c,
  Forall is_missing chan -> (length chan < k)%nat ->
  drain k oldestBlock chan c = DrainedWaiting.
Proof.
  induction k as [|k IH]; intros chan c Hmiss Hlen; [lia|].
  simpl. destruct chan as [|m chan]; [reflexivity|].
  inversion Hmiss as [|? ? [Herr Hbase] Hmiss']; subst.
  rewrite Herr, Hbase. apply IH; [exact Hmiss'|simpl in Hlen; lia].
Qed.

Section Starvation.
Context `{Platform} `{GoSort} `{RpcDecls} `{HistoryCache}.
Variables (oracle : Oracle) (rewardPercentiles : list float64).
Variables (lastBlock blocks : Z).
Hypothesis blocks_fit : maxBlockFetchers < blocks <= lastBlock + 1.
Hypothesis last_bounded : lastBlock + 6 < 2 ^ 63.
Hypothesis absent : forall n,
  lastBlock + 1 - blocks <= n <= lastBlock ->
  BlockByNumber (backend oracle) n = (None, None).
Hypothesis never_hits : forall c n, fst (cache_Get c n) = None.

Lemma fetch_absent n st :
  lastBlock + 1 - blocks <= n <= lastBlock ->
  exists st',
    fetch oracle rewardPercentiles n st
    = (Sent (mkBlockFees n zero_processedFees None) false, st').
Proof.
  intros Hn. unfold fetch, bind, ret, historyCache_Get, called.
  pose proof (never_hits (historyCache st) n) as Hmiss.
  destruct (cache_Get (historyCache st) n) as [v c]. cbn in Hmiss. subst v.
  cbn. rewrite (absent n Hn). cbn. eauto.
Qed.

Lemma run_workers_starved schedule : forall p st,
  pool_inv (lastBlock + 1 - blocks) lastBlock p ->
  Forall is_missing (sent p) ->
  (length (sent p) <= exited_count (workers p))%nat ->
  exists p' st',
    run_workers oracle rewardPercentiles lastBlock schedule p st
    = (Some p', st')
    /\ pool_inv (lastBlock + 1 - blocks) lastBlock p'
    /\ Forall is_missing (sent p')
    /\ (length (sent p') <= exited_count (workers p'))%nat.
Proof.
  induction schedule as [|w rest IH]; intros p st Hinv Hmiss Hlen; simpl.
  - exists p, st. unfold ret. auto.
  - unfold bind.
    assert (Hstep : exists p1 st1,
              worker_step oracle rewardPercentiles lastBlock w p st
              = (Some p1, st1)
              /\ Forall is_missing (sent p1)
              /\ (length (sent p1) <= exited_count (workers p1))%nat).
    { unfold worker_step.
      destruct (nth_error (workers p) w) as [[|n|]|] eqn:Ew;
        unfold bind, ret.
      - eexists _, _. split; [reflexivity|]. cbn [sent workers].
        split; [exact Hmiss|].
        pose proof (exited_count_set_nth (workers p) w Ready
                      (if lastBlock
                          <? wrap_u64 (wrap_u64 (next p + 1) - 1)
                       then Exited
                       else Fetching (wrap_u64 (wrap_u64 (next p + 1) - 1)))
                      Ew) as Hc.
        simpl in Hc.
        destruct (lastBlock <? wrap_u64 (wrap_u64 (next p + 1) - 1));
          simpl in Hc; lia.
      - assert (Hn : lastBlock + 1 - blocks <= n <= lastBlock).
        { destruct Hinv as [_ _ _ _ Hcl].
          assert (Hin : In n (claimed p))
            by (unfold claimed; apply in_or_app; right;
                eapply holding_in; eassumption).
          apply Hcl in Hin. lia. }
        destruct (fetch_absent n st Hn) as [st1 ->].
        eexists _, _. split; [reflexivity|]. cbn [sent workers].
        split.
        + apply Forall_app. split; [exact Hmiss|].
          constructor; [now split|constructor].
        + pose proof (exited_count_set_nth (workers p) w (Fetching n) Exited
                        Ew) as Hc.
          simpl in Hc. rewrite length_app. simpl. lia.
      - eexists _, _. split; [reflexivity|]. auto.
      - eexists _, _. split; [reflexivity|]. auto. }
    destruct Hstep as [p1 [st1 [Estep [Hmiss1 Hlen1]]]].
    rewrite Estep. apply IH; try assumption.
    unfold maxBlockFetchers in blocks_fit.
    eapply (worker_step_inv oracle rewardPercentiles
              (lastBlock + 1 - blocks) lastBlock); [lia|lia| |exact Estep].
    exact Hinv.
Qed.

Lemma fetch_range_starved schedule st :
  fst (fetch_range oracle rewardPercentiles lastBlock blocks schedule st)
  = Waiting.
Proof.
  unfold maxBlockFetchers in blocks_fit.
  unfold fetch_range.
  rewrite (oldestBlock_exact lastBlock blocks ltac:(lia) last_bounded).
  destruct (Z.ltb_spec blocks 0); [lia|].
  destruct (run_workers_starved schedule
              (start_pool (lastBlock + 1 - blocks) blocks) st)
    as [p [st1 [Erun [Hinv [Hmiss Hlen]]]]].
  - apply start_pool_inv; [lia|reflexivity].
  - constructor.
  - cbn. lia.
  - unfold bind. rewrite Erun.
    rewrite drain_waiting; [reflexivity|exact Hmiss|].
    pose proof (exited_count_le (workers p)).
    destruct Hinv as [_ _ Hw _ _]. lia.
Qed.

End Starvation.

Section FeeHistoryStarved.
Context `{Platform} `{GoSort} `{RpcDecls} `{HistoryCache}.

(** X13.  The caller can be left waiting for ever.  A fetcher returns
    after sending the result of a block the backend does not find, so when
    the resolved range holds more blocks than there are fetchers, none of
    them is found and none is cached, fewer results are sent than the
    caller receives: under every schedule the call is still waiting. *)
Theorem FeeHistory_starved oracle blocks unresolvedLastBlock
    rewardPercentiles schedule st lastBlock n :
  1 <= blocks ->
  check_percentiles 0 None rewardPercentiles = None ->
  fst (resolveBlockRange oracle unresolvedLastBlock
         (if maxCallBlockHistory oracle <? blocks
          then maxCallBlockHistory oracle else blocks) st)
  = (lastBlock, n, None) ->
  maxBlockFetchers < n <= lastBlock + 1 ->
  lastBlock + 6 < 2 ^ 63 ->
  (forall k, lastBlock + 1 - n <= k <= lastBlock ->
     BlockByNumber (backend oracle) k = (None, None)) ->
  (forall c k, fst (cache_Get c k) = None) ->
  fst (FeeHistory oracle blocks unresolvedLastBlock rewardPercentiles
         schedule st)
  = Waiting.
Proof.
  intros Hblocks Hcheck Hres Hn Hbound Habsent Hcache.
  unfold FeeHistory. destruct (Z.ltb_spec blocks 1); [lia|].
  rewrite Hcheck. unfold bind.
  destruct (resolveBlockRange oracle unresolvedLastBlock _ st)
    as [[[lastBlock' n'] e] st1].
  cbn in Hres. injection Hres as -> -> ->.
  unfold maxBlockFetchers in Hn.
  destruct (Z.eqb_spec n 0); [lia|].
  apply fetch_range_starved; assumption.
Qed.

End FeeHistoryStarved.

Section Entries.
Context `{Platform} `{GoSort} `{RpcDecls} `{HistoryCache}.
Variables (oracle : Oracle) (rewardPercentiles : list float64).
Variables (lastBlock blocks : Z).
Hypothesis blocks_fit : 0 < blocks <= lastBlock + 1.
Hypothesis last_bounded : lastBlock + 6 < 2 ^ 63.
Variable P : blockFees -> Prop.
Hypothesis fetched_P : forall n st m continue st',
  fetch oracle rewardPercentiles n st = (Sent m continue, st') -> P m.


End Entries.

Section FeeHistoryValues.
Context `{Platform} `{GoSort} `{RpcDecls} `{HistoryCache}.



(** X15.  Whatever range the resolver yields, if the backend serves all
    of it and every fetcher gets [2 * blockCount + 1] turns, the call
    returns without error, starting at [lastBlock - blockCount + 1], with
    one base fee and one ratio per block and, if percentiles were asked
    for, one reward row per block with one entry per percentile. *)
Theorem FeeHistory_served oracle blocks unresolvedLastBlock
    rewardPercentiles schedule st lastBlock n :
  1 <= blocks ->
  check_percentiles 0 None rewardPercentiles = None ->
  fst (resolveBlockRange oracle unresolvedLastBlock
         (if maxCallBlockHistory oracle <? blocks
          then maxCallBlockHistory oracle else blocks) st)
  = (lastBlock, n, None) ->
  0 < n <= lastBlock + 1 ->
  lastBlock + 6 < 2 ^ 63 ->
  serves (backend oracle) (lastBlock + 1 - n) lastBlock ->
  fair (2 * Z.to_nat n + 1) schedule ->
  exists r st',
    FeeHistory oracle blocks unresolvedLastBlock rewardPercentiles schedule st
    = (Returned r, st')
    /\ fh_err r = None
    /\ fh_oldestBlock r = lastBlock + 1 - n
    /\ length (fh_baseFee r) = Z.to_nat n
    /\ length (fh_gasUsedRatio r) = Z.to_nat n
    /\ (rewardPercentiles <> [] ->
        length (fh_reward r) = Z.to_nat n
        /\ Forall (fun row => length row = length rewardPercentiles)
             (fh_reward r)).
Proof.
  intros Hblocks Hcheck Hres Hn Hbound Hserves Hfair.
  unfold FeeHistory. destruct (Z.ltb_spec blocks 1); [lia|].
  rewrite Hcheck. unfold bind.
  destruct (resolveBlockRange oracle unresolvedLastBlock _ st)
    as [[[lastBlock' n'] e] st1].
  cbn in Hres. injection Hres as -> -> ->.
  destruct (Z.eqb_spec n 0); [lia|].
  exact (fetch_range_served oracle rewardPercentiles lastBlock n Hn Hbound
           Hserves schedule st1 Hfair).
Qed.

End FeeHistoryValues.

(** ** Scenarios for the further properties *)

Section ExtraScenarios.
Import Sample.

Lemma resolveBlockRange_accepted_witness :
  LatestBlockNumber <> PendingBlockNumber
  /\ IsAccepted LatestBlockNumber = true
  /\ fst (resolveBlockRange (oracle 9) LatestBlockNumber 5 fresh)
     = (9, Z.min 5 (Z.min (9 + 1) 8), None).
Proof.
  split; [discriminate|]. split; [reflexivity|].
  apply (resolveBlockRange_accepted (oracle 9) LatestBlockNumber 5 fresh);
    [discriminate|reflexivity|lia|simpl; lia|simpl; lia].
Defined.

Lemma resolveBlockRange_absolute_witness :
  9 <> PendingBlockNumber
  /\ IsAccepted 9 = false
  /\ fst (resolveBlockRange (oracle 9) 9 20 fresh)
     = (9, Z.min 20 (Z.min (9 + 1) (9 + 8 - 9)), None).
Proof.
  split; [discriminate|]. split; [reflexivity|].
  apply (resolveBlockRange_absolute (oracle 9) 9 20 fresh);
    [discriminate|reflexivity|lia|simpl; lia|simpl; lia|simpl; lia
    |simpl; lia].
Defined.

Lemma resolveBlockRange_pending_witness :
  IsAccepted LatestBlockNumber = true
  /\ resolveBlockRange (oracle 9) PendingBlockNumber 1 fresh
     = ((0, 0, None), fresh)
  /\ fst (resolveBlockRange (oracle 9) PendingBlockNumber 5 fresh)
     = (9, Z.min (5 - 1) (Z.min (9 + 1) 8), None).
Proof.
  split; [reflexivity|]. split.
  - apply (resolveBlockRange_pending (oracle 9) 1 fresh);
      [reflexivity|lia|simpl; lia|simpl; lia|reflexivity].
  - apply (resolveBlockRange_pending (oracle 9) 5 fresh);
      [reflexivity|lia|simpl; lia|simpl; lia|lia].
Defined.

Lemma resolveBlockRange_within_window_witness :
  fst (resolveBlockRange (oracle 9) 9 20 fresh) = (9, 8, None)
  /\ ((9 = PendingBlockNumber /\ 20 = 1 /\ 9 = 0 /\ 8 = 0)
      \/ (1 <= 8
          /\ 9 <= LastAcceptedBlock (backend (oracle 9))
          /\ LastAcceptedBlock (backend (oracle 9)) - (9 - 8 + 1)
             <= maxBlockHistory (oracle 9) - 1)).
Proof.
  assert (Hres : fst (resolveBlockRange (oracle 9) 9 20 fresh)
                 = (9, 8, None)) by reflexivity.
  split; [exact Hres|].
  apply (resolveBlockRange_within_window (oracle 9) 9 20 fresh 9 8);
    [exact sample_rpc_wf|simpl; lia|simpl; lia|lia|right; right; lia
    |exact Hres].
Defined.

Lemma FeeHistory_error_no_data_witness :
  FeeHistory (oracle 9) 5 10 percentiles round_robin fresh
  = (Returned (no_data (Some (errRequestBeyondHead 10 9))),
     snd (FeeHistory (oracle 9) 5 10 percentiles round_robin fresh))
  /\ no_data (Some (errRequestBeyondHead 10 9))
     = no_data (Some (errRequestBeyondHead 10 9)).
Proof.
  assert (Hcall : FeeHistory (oracle 9) 5 10 percentiles round_robin fresh
                  = (Returned (no_data (Some (errRequestBeyondHead 10 9))),
                     snd (FeeHistory (oracle 9) 5 10 percentiles round_robin
                            fresh))) by (vm_compute; reflexivity).
  split; [exact Hcall|].
  exact (FeeHistory_error_no_data (oracle 9) 5 10 percentiles round_robin
           fresh _ _ (errRequestBeyondHead 10 9) Hcall eq_refl).
Defined.


Lemma FeeHistory_served_witness :
  serves (backend (oracle 9)) (9 + 1 - 5) 9
  /\ fair (2 * Z.to_nat 5 + 1) round_robin
  /\ exists r st',
       FeeHistory (oracle 9) 5 9 percentiles round_robin fresh
       = (Returned r, st')
       /\ fh_err r = None
       /\ fh_oldestBlock r = 9 + 1 - 5
       /\ length (fh_baseFee r) = Z.to_nat 5.
Proof.
  assert (Hserves : serves (backend (oracle 9)) (9 + 1 - 5) 9)
    by (intros n Hn; apply sample_serves; lia).
  split; [exact Hserves|]. split; [exact round_robin_fair|].
  destruct (FeeHistory_served (oracle 9) 5 9 percentiles round_robin fresh
              9 5 ltac:(lia) ltac:(reflexivity) ltac:(reflexivity)
              ltac:(lia) ltac:(lia) Hserves round_robin_fair)
    as [r [st' [Hcall [Herr [Hold [Hlen _]]]]]].
  exists r, st'. auto.
Defined.

End ExtraScenarios.

(** The chain on which only the blocks 0 to 4 are found, with a cache that
    keeps nothing: the five blocks 5 to 9 are absent, the fetchers are
    four. *)
Lemma FeeHistory_starved_witness :
  (forall k, 9 + 1 - 5 <= k <= 9 ->
     BlockByNumber (backend (Sample.oracle 4)) k = (None, None))
  /\ fst (@FeeHistory Sample.platform Sample.insertion_sort Sample.rpc
            no_cache (Sample.oracle 4) 5 9 Sample.percentiles
            Sample.round_robin (@mkState no_cache [] tt))
     = Waiting.
Proof.
  assert (Habsent : forall k, 9 + 1 - 5 <= k <= 9 ->
            BlockByNumber (backend (Sample.oracle 4)) k = (None, None)).
  { intros k Hk. cbn. destruct (Z.leb_spec k 4); [lia|].
    now rewrite andb_false_r. }
  split; [exact Habsent|].
  apply (@FeeHistory_starved Sample.platform Sample.insertion_sort Sample.rpc
           no_cache (Sample.oracle 4) 5 9 Sample.percentiles
           Sample.round_robin (@mkState no_cache [] tt) 9 5);
    [lia|reflexivity|reflexivity|unfold maxBlockFetchers; lia|lia
    |exact Habsent|reflexivity].
Defined.



(** ** processBlock and the requests made to the backend *)

Lemma pair_up_short baseFee txs : forall receipts,
  pair_up baseFee txs receipts = None
  <-> (length receipts < length txs)%nat.
Proof.
  induction txs as [|tx txs IH]; intros receipts; simpl.
  - split; [discriminate|lia].
  - destruct receipts as [|r receipts]; simpl; [split; [lia|reflexivity]|].
    specialize (IH receipts).
    destruct (pair_up baseFee txs receipts) as [rest|].
    + split; [discriminate|]. intros Hlen.
      assert (Hnone : Some rest = None) by (apply IH; lia).
      discriminate.
    + split; [|reflexivity]. intros _.
      pose proof (proj1 IH eq_refl). lia.
Qed.

Lemma pair_up_surplus baseFee txs : forall receipts,
  pair_up baseFee txs (firstn (length txs) receipts)
  = pair_up baseFee txs receipts.
Proof.
  induction txs as [|tx txs IH]; intros receipts; simpl; [reflexivity|].
  destruct receipts as [|r receipts]; simpl; [reflexivity|].
  now rewrite IH.
Qed.

Lemma pair_up_entries baseFee txs : forall receipts sorter,
  pair_up baseFee txs receipts = Some sorter ->
  length sorter = length txs
  /\ forall i tx r,
       nth_error txs i = Some tx -> nth_error receipts i = Some r ->
       nth_error sorter i
       = Some (mkTx (receipt_GasUsed r) (EffectiveGasTip tx baseFee)).
Proof.
  induction txs as [|tx txs IH]; intros receipts sorter; simpl.
  - intros [= <-]. split; [reflexivity|]. intros [|i]; discriminate.
  - destruct receipts as [|r receipts]; [discriminate|].
    destruct (pair_up baseFee txs receipts) as [rest|] eqn:E; [|discriminate].
    intros [= <-]. destruct (IH receipts rest E) as [Hlen Hnth].
    split; [simpl; now rewrite Hlen|].
    intros [|i] tx' r'; simpl.
    + now intros [= <-] [= <-].
    + apply Hnth.
Qed.

(** X17.  processBlock reads [receipts[i]] for every transaction: it panics
    exactly when the receipts are fewer than the block's transactions, and
    receipts beyond the last transaction make no difference. *)
Theorem processBlock_receipts `{GoSort} block receipts :
  (processBlock block receipts = None
   <-> (length receipts < length (Transactions block))%nat)
  /\ processBlock block (firstn (length (Transactions block)) receipts)
     = processBlock block receipts.
Proof.
  unfold processBlock. rewrite pair_up_surplus. split; [|reflexivity].
  rewrite <- (pair_up_short
                (match block_BaseFee block with Some b => b | None => 0 end)).
  destruct (pair_up _ (Transactions block) receipts);
    split; (discriminate || reflexivity).
Qed.

(** X18.  The slimBlock never carries a nil base fee: a block without one
    is given zero.  What is handed to [sort.Sort] holds one entry per
    transaction, entry [i] pairing the gas used of receipt [i] with the tip
    of transaction [i] over that base fee. *)
Theorem processBlock_pairs `{GoSort} block receipts sb :
  processBlock block receipts = Some sb ->
  BaseFee sb = match block_BaseFee block with Some b => b | None => 0 end
  /\ exists sorter,
       Txs sb = sort_Sort Less sorter
       /\ length sorter = length (Transactions block)
       /\ forall i tx r,
            nth_error (Transactions block) i = Some tx ->
            nth_error receipts i = Some r ->
            nth_error sorter i
            = Some (mkTx (receipt_GasUsed r)
                      (EffectiveGasTip tx (BaseFee sb))).
Proof.
  unfold processBlock.
  destruct (pair_up _ (Transactions block) receipts) as [sorter|] eqn:E;
    [|discriminate].
  intros [= <-]. cbn [BaseFee Txs]. split; [reflexivity|].
  exists sorter. split; [reflexivity|].
  exact (pair_up_entries _ _ _ _ E).
Qed.

Lemma NoDup_app_apart {A} (l l' : list A) a :
  NoDup (l ++ l') -> In a l -> ~ In a l'.
Proof.
  intros Hnd Hl Hl'. apply in_split in Hl' as [l1 [l2 ->]].
  rewrite app_assoc in Hnd. apply NoDup_remove_2 in Hnd.
  apply Hnd. apply in_or_app. left. apply in_or_app. now left.
Qed.

Section RequestFacts.
Context `{Platform} `{GoSort} `{RpcDecls} `{HistoryCache}.
Variables (oracle : Oracle) (rewardPercentiles : list float64).
Variables (oldestBlock lastBlock : Z).
Hypothesis oldest_nonneg : 0 <= oldestBlock.
Hypothesis last_bounded : lastBlock + 6 < 2 ^ 64.

Lemma fetch_requests n st r st' :
  fetch oracle rewardPercentiles n st = (r, st') ->
  (requested (calls st') = requested (calls st)
   \/ requested (calls st') = n :: requested (calls st))
  /\ forall m c, r = Sent m c -> blockNumber m = n.
Proof.
  unfold fetch, bind, ret, historyCache_Get, historyCache_Add, called.
  destruct (cache_Get (historyCache st) n) as [[sb|] c].
  - intros [= <- <-]. cbn. split; [now left|]. now intros m c0 [= <- _].
  - cbn.
    destruct (BlockByNumber (backend oracle) n) as [[block|] [e|]]; cbn;
      try (intros [= <- <-]; cbn; split;
           [now right|now intros m c0 [= <- _]]).
    destruct (GetReceipts (backend oracle) (Hash block))
      as [receipts [e|]]; cbn;
      try (intros [= <- <-]; cbn; split;
           [now right|now intros m c0 [= <- _]]).
    destruct (processBlock block receipts) as [sb|]; cbn;
      intros [= <- <-]; cbn; split;
      solve [now right|now intros m c0 [= <- _]|discriminate].
Qed.

Lemma worker_step_requests w p st r st' :
  pool_inv oldestBlock lastBlock p ->
  worker_step oracle rewardPercentiles lastBlock w p st = (r, st') ->
  exists new,
    requested (calls st') = new ++ requested (calls st)
    /\ NoDup new
    /\ (forall n, In n new ->
          oldestBlock <= n <= lastBlock
          /\ ~ In n (map blockNumber (sent p)))
    /\ (forall p', r = Some p' ->
          incl new (map blockNumber (sent p'))
          /\ incl (map blockNumber (sent p)) (map blockNumber (sent p'))).
Proof.
  intros [Hlo Hhi Hw Hnd Hcl]. unfold worker_step.
  destruct (nth_error (workers p) w) as [[|n|]|] eqn:Ew;
    unfold bind, ret;
    try (intros [= <- <-]; exists []; split; [reflexivity|];
         split; [constructor|]; split; [intros n0 []|];
         intros p' [= <-]; cbn [sent];
         split; [intros n0 []|apply incl_refl]).
  destruct (fetch oracle rewardPercentiles n st) as [f st1] eqn:Ef.
  destruct (fetch_requests n st f st1 Ef) as [Hreq Hnum].
  assert (Hheld : In n (holding (workers p)))
    by (eapply holding_in; eassumption).
  assert (Hrange : oldestBlock <= n <= lastBlock)
    by (assert (Hin : In n (claimed p))
          by (unfold claimed; apply in_or_app; now right);
        apply Hcl in Hin; lia).
  assert (Hfresh : ~ In n (map blockNumber (sent p))).
  { intros Hin. unfold claimed in Hnd.
    exact (NoDup_app_apart _ _ n Hnd Hin Hheld). }
  assert (Hnew : exists new,
             requested (calls st1) = new ++ requested (calls st)
             /\ NoDup new /\ incl new [n]).
  { destruct Hreq as [->| ->].
    - exists []. split; [reflexivity|]. split; [constructor|intros x []].
    - exists [n]. split; [reflexivity|].
      split; [repeat constructor; intros []|apply incl_refl]. }
  destruct Hnew as [new [Hcalls [Hnodup Hincl]]].
  assert (Hsub : forall x, In x new -> x = n)
    by (intros x Hx; destruct (Hincl x Hx) as [<-|[]]; reflexivity).
  destruct f as [m c|]; intros [= <- <-]; exists new;
    (split; [exact Hcalls|]); (split; [exact Hnodup|]);
    (split; [intros x Hx; rewrite (Hsub x Hx); auto|]).
  - intros p' [= <-]. cbn [sent]. rewrite map_app. cbn [map].
    rewrite (Hnum m c eq_refl). split.
    + intros x Hx. rewrite (Hsub x Hx). apply in_or_app. right. now left.
    + apply incl_appl, incl_refl.
  - discriminate.
Qed.

Lemma run_workers_requests schedule : forall p st r st',
  pool_inv oldestBlock lastBlock p ->
  run_workers oracle rewardPercentiles lastBlock schedule p st = (r, st') ->
  exists new,
    requested (calls st') = new ++ requested (calls st)
    /\ NoDup new
    /\ forall n, In n new ->
         oldestBlock <= n <= lastBlock
         /\ ~ In n (map blockNumber (sent p)).
Proof.
  induction schedule as [|w rest IH]; intros p st r st' Hinv; simpl.
  - unfold ret. intros [= <- <-]. exists [].
    split; [reflexivity|]. split; [constructor|intros n []].
  - unfold bind.
    destruct (worker_step oracle rewardPercentiles lastBlock w p st)
      as [r1 st1] eqn:Estep.
    destruct (worker_step_requests w p st r1 st1 Hinv Estep)
      as [new1 [Hcalls1 [Hnd1 [Hin1 Hsent1]]]].
    destruct r1 as [p1|].
    + intros Hrun.
      assert (Hinv1 : pool_inv oldestBlock lastBlock p1)
        by (eapply worker_step_inv; eassumption).
      destruct (IH p1 st1 r st' Hinv1 Hrun)
        as [new2 [Hcalls2 [Hnd2 Hin2]]].
      destruct (Hsent1 p1 eq_refl) as [Hnew1 Hold].
      exists (new2 ++ new1). split; [|split].
      * now rewrite Hcalls2, Hcalls1, app_assoc.
      * apply NoDup_app; [exact Hnd2|exact Hnd1|].
        intros x Hx2 Hx1. apply (proj2 (Hin2 x Hx2)). now apply Hnew1.
      * intros x Hx. apply in_app_or in Hx as [Hx|Hx]; [|now apply Hin1].
        destruct (Hin2 x Hx) as [Hr Hf]. split; [exact Hr|].
        intros Hs. apply Hf. now apply Hold.
    + unfold ret. intros [= <- <-]. exists new1.
      split; [exact Hcalls1|]. split; [exact Hnd1|exact Hin1].
Qed.

End RequestFacts.

Lemma resolveBlockRange_requested `{RpcDecls} `{HistoryCache} oracle
    lastBlock blocks st :
  requested (calls (snd (resolveBlockRange oracle lastBlock blocks st)))
  = requested (calls st).
Proof.
  unfold resolveBlockRange, backend_LastAcceptedBlock, bind, ret, called.
  repeat match goal with
  | |- context [if ?c then _ else _] => destruct c; cbn
  end; reflexivity.
Qed.

Section FeeHistoryRequests.
Context `{Platform} `{GoSort} `{RpcDecls} `{HistoryCache}.

Lemma fetch_range_requests oracle rewardPercentiles lastBlock blocks
    schedule st :
  0 < blocks <= lastBlock + 1 -> lastBlock + 6 < 2 ^ 63 ->
  exists new,
    requested
      (calls (snd (fetch_range oracle rewardPercentiles lastBlock blocks
                     schedule st)))
    = new ++ requested (calls st)
    /\ NoDup new
    /\ forall k, In k new -> lastBlock + 1 - blocks <= k <= lastBlock.
Proof.
  intros Hfit Hbound. unfold fetch_range.
  rewrite (oldestBlock_exact lastBlock blocks Hfit Hbound).
  destruct (Z.ltb_spec blocks 0); [lia|]. unfold bind.
  destruct (run_workers oracle rewardPercentiles lastBlock schedule
              (start_pool (lastBlock + 1 - blocks) blocks) st)
    as [r st1] eqn:Erun.
  destruct (run_workers_requests oracle rewardPercentiles
              (lastBlock + 1 - blocks) lastBlock ltac:(lia) ltac:(lia)
              schedule _ st r st1
              (start_pool_inv _ lastBlock blocks ltac:(lia) eq_refl) Erun)
    as [new [Hcalls [Hnd Hin]]].
  assert (Hst : forall o : outcome, snd (ret o st1) = st1) by reflexivity.
  exists new. split; [|split; [exact Hnd|intros k Hk; now apply Hin]].
  rewrite <- Hcalls. f_equal. f_equal.
  destruct r as [p|]; [|reflexivity].
  destruct (drain _ _ _ _); try reflexivity.
  now destruct (c_firstMissing c =? 0).
Qed.

(** X16.  Once the range is resolved to the blocks
    [lastBlock + 1 - n .. lastBlock], the backend is asked for blocks of
    that range only, and for none of them twice, whatever the order in
    which the fetchers run and whether or not the call completes. *)
Theorem FeeHistory_requests oracle blocks unresolvedLastBlock
    rewardPercentiles schedule st lastBlock n :
  fst (resolveBlockRange oracle unresolvedLastBlock
         (if maxCallBlockHistory oracle <? blocks
          then maxCallBlockHistory oracle else blocks) st)
  = (lastBlock, n, None) ->
  0 <= n <= lastBlock + 1 ->
  lastBlock + 6 < 2 ^ 63 ->
  exists new,
    requested
      (calls (snd (FeeHistory oracle blocks unresolvedLastBlock
                     rewardPercentiles schedule st)))
    = new ++ requested (calls st)
    /\ NoDup new
    /\ forall k, In k new -> lastBlock + 1 - n <= k <= lastBlock.
Proof.
  intros Hres Hn Hbound. unfold FeeHistory.
  assert (Hnone : exists new,
            requested (calls st) = new ++ requested (calls st)
            /\ NoDup new
            /\ forall k, In k new -> lastBlock + 1 - n <= k <= lastBlock).
  { exists []. split; [reflexivity|]. split; [constructor|intros k []]. }
  destruct (blocks <? 1); [exact Hnone|].
  destruct (check_percentiles 0 None rewardPercentiles); [exact Hnone|].
  unfold bind.
  pose proof (resolveBlockRange_requested oracle unresolvedLastBlock
                (if maxCallBlockHistory oracle <? blocks
                 then maxCallBlockHistory oracle else blocks) st) as Hreq.
  destruct (resolveBlockRange oracle unresolvedLastBlock _ st)
    as [[[lastBlock' n'] e] st1].
  cbn in Hres, Hreq. injection Hres as -> -> ->.
  destruct (Z.eqb_spec n 0) as [->|Hne].
  { cbn. rewrite Hreq. exact Hnone. }
  destruct (fetch_range_requests oracle rewardPercentiles lastBlock n
              schedule st1 ltac:(lia) Hbound)
    as [new [Hcalls [Hnd Hin]]].
  exists new. rewrite Hcalls, Hreq. auto.
Qed.

End FeeHistoryRequests.

Section RequestScenarios.
Import Sample.

Lemma FeeHistory_requests_witness :
  fst (resolveBlockRange (oracle 9) 9
         (if maxCallBlockHistory (oracle 9) <? 5
          then maxCallBlockHistory (oracle 9) else 5) fresh)
  = (9, 5, None)
  /\ exists new,
       requested
         (calls (snd (FeeHistory (oracle 9) 5 9 percentiles round_robin
                        fresh)))
       = new ++ requested (calls fresh)
       /\ NoDup new
       /\ forall k, In k new -> 9 + 1 - 5 <= k <= 9.
Proof.
  split; [reflexivity|].
  apply (FeeHistory_requests (oracle 9) 5 9 percentiles round_robin fresh
           9 5); [reflexivity|lia|lia].
Defined.

Lemma processBlock_pairs_witness :
  processBlock (block 7) [mkReceipt 21000; mkReceipt 21000]
  = Some (mkSlimBlock 42000 8000000 107 [mkTx 21000 1; mkTx 21000 3])
  /\ exists sorter,
       [mkTx 21000 1; mkTx 21000 3] = sort_Sort Less sorter
       /\ length sorter = 2%nat.
Proof.
  assert (Hblock :
            processBlock (block 7) [mkReceipt 21000; mkReceipt 21000]
            = Some (mkSlimBlock 42000 8000000 107
                      [mkTx 21000 1; mkTx 21000 3])) by reflexivity.
  split; [exact Hblock|].
  destruct (processBlock_pairs (block 7)
              [mkReceipt 21000; mkReceipt 21000]
              (mkSlimBlock 42000 8000000 107 [mkTx 21000 1; mkTx 21000 3])
              Hblock) as [_ [sorter [Hs [Hlen _]]]].
  exists sorter. split; [exact Hs|exact Hlen].
Defined.

End RequestScenarios.
